(** * A shallow embedding of parts of tockloader-lib

    Bytes are modelled as [Z] values in [0, 256); fixed-width Rust integers as
    [Z] with their range or wrap-around written out where the code depends on
    it.  Rust panics (index out of bounds, [expect] on [None], arithmetic
    overflow in a debug build, [todo!]) are the [Panic] outcome of the result
    monad [res]; [Result::Err] is [Err]. *)

From Stdlib Require Import String Ascii ZArith List Lia Bool Permutation Sorted.
Import ListNotations.
Open Scope Z_scope.

(** ** Errors and the result monad *)

Inductive TockloaderError : Type :=
| BootloaderTimeout
| BootloaderBadHeader (h0 h1 : Z)
| InvalidAppTbfHeader (e : nat)
| ConnectionNotOpen
| ReadError
(** [TockError::AttributeParsing(AttributeParseError::InvalidNumber(_))] *)
| AttributeInvalidNumber
(** [TockError::AttributeParsing(AttributeParseError::InvalidString(_))] *)
| AttributeInvalidString
(** [TockError::MissingAttribute(_)] *)
| MissingAttribute
(** [InternalError::BootloaderNotPresent] *)
| BootloaderNotPresent.

Inductive res (A : Type) : Type :=
| Ok (a : A)
| Err (e : TockloaderError)
| Panic.
Arguments Ok {A} a.
Arguments Err {A} e.
Arguments Panic {A}.

Definition bind {A B} (m : res A) (k : A -> res B) : res B :=
  match m with
  | Ok a => k a
  | Err e => Err e
  | Panic => Panic
  end.

Notation "x <- m ;; k" := (bind m (fun x => k))
  (at level 61, m at next level, right associativity).
Notation "' p <- m ;; k" := (bind m (fun x => match x with p => k end))
  (at level 61, p pattern, m at next level, right associativity).

(** ** Little-endian byte encodings ([to_le_bytes], [from_le_bytes]) *)

Fixpoint le_bytes (n : nat) (v : Z) : list Z :=
  match n with
  | O => []
  | S k => (v mod 256) :: le_bytes k (v / 256)
  end.

Fixpoint from_le (bs : list Z) : Z :=
  match bs with
  | [] => 0
  | b :: t => b + 256 * from_le t
  end.

Definition u16_le (v : Z) : list Z := le_bytes 2 v.
Definition u32_le (v : Z) : list Z := le_bytes 4 v.
Definition u64_le (v : Z) : list Z := le_bytes 8 v.

(** [x as u32] and [x as u16] *)
Definition as_u32 (v : Z) : Z := v mod 2 ^ 32.
Definition as_u16 (v : Z) : Z := v mod 2 ^ 16.

(** ** Module bootloader_serial *)
Module BootloaderSerial.

Definition SYNC_MESSAGE : list Z := [0; 252; 5].
Definition ESCAPE_CHAR : Z := 252.

Inductive Command :=
| Ping | Info | ID | Reset | ErasePage | WritePage | XEBlock | XWPage | Crcx
| ReadRange | XRRange | SetAttribute | GetAttribute | CRCInternalFlash | Crcef
| XEPage | XFinit | ClkOut | WUser | ChangeBaudRate | Exit | SetStartAddress.

Definition command_byte (c : Command) : Z :=
  match c with
  | Ping => 1 | Info => 3 | ID => 4 | Reset => 5 | ErasePage => 6
  | WritePage => 7 | XEBlock => 8 | XWPage => 9 | Crcx => 16
  | ReadRange => 17 | XRRange => 18 | SetAttribute => 19 | GetAttribute => 20
  | CRCInternalFlash => 21 | Crcef => 22 | XEPage => 23 | XFinit => 24
  | ClkOut => 25 | WUser => 32 | ChangeBaudRate => 33 | Exit => 34
  | SetStartAddress => 35
  end.

Inductive Response :=
| Overflow | Pong | BadAddr | IntError | BadArgs | OK | Unknown | XFTimeout
| Xfepe | Crcrx | RReadRange | RXRRange | RGetAttribute | RCRCInternalFlash
| Crcxf | RInfo | ChangeBaudFail | BadResp.

(** [response_code as u8]; [BadResp] has the next discriminant, 0x27. *)
Definition response_byte (r : Response) : Z :=
  match r with
  | Overflow => 16 | Pong => 17 | BadAddr => 18 | IntError => 19
  | BadArgs => 20 | OK => 21 | Unknown => 22 | XFTimeout => 23 | Xfepe => 24
  | Crcrx => 25 | RReadRange => 32 | RXRRange => 33 | RGetAttribute => 34
  | RCRCInternalFlash => 35 | Crcxf => 36 | RInfo => 37 | ChangeBaudFail => 38
  | BadResp => 39
  end.

(** [impl From<u8> for Response] *)
Definition response_from (v : Z) : Response :=
  if v =? 16 then Overflow else if v =? 17 then Pong
  else if v =? 18 then BadAddr else if v =? 19 then IntError
  else if v =? 20 then BadArgs else if v =? 21 then OK
  else if v =? 22 then Unknown else if v =? 23 then XFTimeout
  else if v =? 24 then Xfepe else if v =? 25 then Crcrx
  else if v =? 32 then RReadRange else if v =? 33 then RXRRange
  else if v =? 34 then RGetAttribute else if v =? 35 then RCRCInternalFlash
  else if v =? 36 then Crcxf else if v =? 37 then RInfo
  else if v =? 38 then ChangeBaudFail else BadResp.

(** The serial port: the bytes the bootloader will still deliver ([rx]) and
    the bytes written so far ([tx]).  A read that asks for more bytes than
    the line delivers runs into the 5 s timeout. *)
Record Port := mkPort { rx : list Z; tx : list Z }.

Definition read_bytes (p : Port) (n : nat) : res (list Z * Port) :=
  if (n <=? length (rx p))%nat
  then Ok (firstn n (rx p), mkPort (skipn n (rx p)) (tx p))
  else Err BootloaderTimeout.

Definition write_bytes (p : Port) (bs : list Z) : res Port :=
  Ok (mkPort (rx p) (tx p ++ bs)).

(** [Vec::insert(k, x)] for [k <= len] *)
Definition insert_at (k : nat) (x : Z) (l : list Z) : list Z :=
  firstn k l ++ x :: skipn k l.

(** The escape loop of [issue_command] (lines 188-198).  Every iteration
    decreases [len - i] by one, so [length message] iterations suffice. *)
Fixpoint escape_loop (fuel : nat) (i : nat) (message : list Z) : list Z :=
  match fuel with
  | O => message
  | S f =>
      if (i <? length message)%nat then
        if nth i message 0 =? ESCAPE_CHAR
        then escape_loop f (i + 2) (insert_at (i + 1) ESCAPE_CHAR message)
        else escape_loop f (i + 1) message
      else message
  end.

Definition escape (message : list Z) : list Z :=
  escape_loop (length message) 0 message.

(** The frame written by [issue_command] (lines 188-207). *)
Definition build_frame (command : Command) (message : list Z) (sync : bool)
  : list Z :=
  let m := escape message ++ [ESCAPE_CHAR; command_byte command] in
  if sync then SYNC_MESSAGE ++ m else m.

(** The de-escape loop of [issue_command] (lines 226-238): [input] grows by
    one byte read from the port each time a pair is collapsed. *)
Fixpoint deescape_loop (fuel : nat) (p : Port) (input : list Z) (i : nat)
  (result : list Z) : res (list Z * Port) :=
  match fuel with
  | O => Ok (result, p)
  | S f =>
      if (i <? length input)%nat then
        if ((i + 1 <? length input)%nat && (nth i input 0 =? ESCAPE_CHAR)
            && (nth (i + 1) input 0 =? ESCAPE_CHAR))%bool
        then
          '(extra, p') <- read_bytes p 1 ;;
          deescape_loop f p' (input ++ extra) (i + 2) (result ++ [ESCAPE_CHAR])
        else deescape_loop f p input (i + 1) (result ++ [nth i input 0])
      else Ok (result, p)
  end.

(** Lines 219-243: read [response_len] bytes, then de-escape them. *)
Definition receive_payload (p : Port) (response_len : nat)
  : res (list Z * Port) :=
  if (response_len =? 0)%nat then Ok ([], p)
  else
    '(input, p1) <- read_bytes p response_len ;;
    deescape_loop (length input) p1 input 0 [].

Definition issue_command (p : Port) (command : Command) (message : list Z)
  (sync : bool) (response_len : nat) (response_code : Response)
  : res ((Response * list Z) * Port) :=
  p1 <- write_bytes p (build_frame command message sync) ;;
  '(header, p2) <- read_bytes p1 2 ;;
  let h0 := nth 0 header 0 in
  let h1 := nth 1 header 0 in
  if (h0 =? ESCAPE_CHAR) && (h1 =? response_byte response_code)
  then
    '(result, p3) <- receive_payload p2 response_len ;;
    Ok ((response_from h1, result), p3)
  else Err (BootloaderBadHeader h0 h1).

End BootloaderSerial.

(** ** [impl ReadWrite for SerialConnection] (command_impl/serial/read_write.rs) *)
Module SerialReadWrite.
Import BootloaderSerial.

(** The ReadRange request payload built by [read] (lines 16-18):
    [address.to_le_bytes()] of the [u64] address, then [data.len() as u16]. *)
Definition read_packet (address : Z) (len : nat) : list Z :=
  u64_le address ++ u16_le (as_u16 (Z.of_nat len)).

(** [read(address, data)]: the bytes read, or the error; [copy_from_slice]
    panics when the lengths differ. *)
Definition read (is_open : bool) (p : Port) (address : Z) (len : nat)
  : res (list Z * Port) :=
  if negb is_open then Err ConnectionNotOpen
  else
    '((_, read_data), p') <-
      issue_command p ReadRange (read_packet address len) true len RReadRange ;;
    if (length read_data =? len)%nat then Ok (read_data, p') else Panic.

(** [write] is [todo!("Serial write not yet implemented")] once the
    connection is open. *)
Definition write (is_open : bool) (p : Port) (address : Z) (data : list Z)
  : res Port :=
  if negb is_open then Err ConnectionNotOpen else Panic.

End SerialReadWrite.

(** ** Reference definitions used to state properties of the serial layer *)
Module SerialSpec.
Import BootloaderSerial.

(** Byte stuffing as a plain map: each [ESCAPE_CHAR] becomes two. *)
Definition dup (l : list Z) : list Z :=
  flat_map (fun b => if b =? ESCAPE_CHAR then [ESCAPE_CHAR; ESCAPE_CHAR] else [b]) l.

End SerialSpec.

(** ** Word helpers: [chunks_exact(4)] and the XOR of the 32-bit LE words *)

(** [slice::chunks_exact(k)]: the full chunks, remainder dropped. *)
Fixpoint chunks_exact_aux (fuel : nat) (k : nat) (l : list Z) : list (list Z) :=
  match fuel with
  | O => []
  | S f =>
      if (k <=? length l)%nat && negb (k =? 0)%nat
      then firstn k l :: chunks_exact_aux f k (skipn k l)
      else []
  end.

Definition chunks_exact (k : nat) (l : list Z) : list (list Z) :=
  chunks_exact_aux (length l) k l.

(** XOR of all 4-byte little-endian words of a buffer. *)
Definition xor_words (h : list Z) : Z :=
  fold_left Z.lxor (map from_le (chunks_exact 4 h)) 0.

(** [buf[k..k+n]] and an in-place overwrite of [buf[k..k+length bs]]. *)
Definition slice (k n : nat) (l : list Z) : list Z := firstn n (skipn k l).

Definition write_at (k : nat) (bs : list Z) (l : list Z) : list Z :=
  firstn k l ++ bs ++ skipn (k + length bs) l.

(** ** [create_padding] (command_impl/reshuffle_apps.rs, lines 362-378) *)
Module Padding.

Definition create_padding (size : Z) : list Z :=
  let buf := u16_le 2 ++ u16_le 16 ++ u32_le size in
  let checksum := fold_left Z.lxor (map from_le (chunks_exact 4 buf)) 0 in
  let buf := buf ++ u32_le checksum in
  (* while buf.len() < size as usize { buf.push(0) } *)
  buf ++ repeat 0 (Z.to_nat size - length buf).

(** The padding layout as §4.G of the spec describes it: version, header
    length, total length, a zero flag word, then the XOR of those three
    words, then zeros. *)
Definition spec_padding (size : Z) : list Z :=
  let w := u16_le 2 ++ u16_le 16 ++ u32_le size ++ u32_le 0 in
  w ++ u32_le (xor_words w) ++ repeat 0 (Z.to_nat size - 16).

End Padding.

(** ** [disable_app] (command_impl/probers/disable_app.rs) *)
Module DisableApp.

Definition ENABLED_OFFSET : nat := 8.
Definition CHECKSUM_OFFSET : nat := 12.

(** The fields of [AppData] read from the header bytes (lines 76-87); the
    checksum is [u32::from_ne_bytes], little-endian on the hosts the tool
    runs on. *)
Definition app_checksum (header_data : list Z) : Z :=
  from_le (slice CHECKSUM_OFFSET 4 header_data).

Definition app_enabled (header_data : list Z) : bool :=
  nth ENABLED_OFFSET header_data 0 =? 1.

(** The two [loader.add_data] writes for one app (lines 157-161) applied to
    its header bytes; [keep_unwritten_bytes] leaves every other byte as it
    was.  [app.checksum - 1] on a [u32] panics when the checksum is 0. *)
Definition disable_header (header_data : list Z) : res (list Z) :=
  let c := app_checksum header_data in
  if c =? 0 then Panic
  else Ok (write_at CHECKSUM_OFFSET (u32_le (c - 1))
             (write_at ENABLED_OFFSET [0] header_data)).

End DisableApp.

(** ** The placement planner (command_impl/reshuffle_apps.rs) *)
Module Reshuffle.

Definition U64_MAX : Z := 2 ^ 64 - 1.
(** [usize::MAX] on the 64-bit hosts the tool runs on *)
Definition USIZE_MAX : Z := 2 ^ 64 - 1.

(** Checked [u64]/[usize] arithmetic: overflow panics. *)
Definition add_u64 (a b : Z) : res Z :=
  if a + b <=? U64_MAX then Ok (a + b) else Panic.
Definition sub_u64 (a b : Z) : res Z :=
  if b <=? a then Ok (a - b) else Panic.
Definition rem_u64 (a b : Z) : res Z :=
  if b =? 0 then Panic else Ok (a mod b).
(** [u64::is_multiple_of] *)
Definition is_multiple_of (a b : Z) : bool :=
  if b =? 0 then a =? 0 else a mod b =? 0.

Definition nth_res {A} (l : list A) (n : nat) : res A :=
  match nth_error l n with Some a => Ok a | None => Panic end.

Record FlexibleApp := mkFlexible {
  fl_installed : bool; fl_idx : option nat; fl_size : Z }.

Record FixedApp := mkFixed {
  fx_installed : bool; fx_idx : option nat;
  (** flash and ram *)
  compatible_addresses : list (option (Z * Z));
  fx_size : Z }.

Inductive TockApp :=
| Flexible (a : FlexibleApp)
| Fixed (a : FixedApp).

Record Index := mkIndex {
  installed : bool; idx : option nat; fixed : bool;
  ram_address : option Z; address : Z; size : Z }.

(** The fields of [BoardSettings] the planner reads. *)
Record BoardSettings := mkSettings {
  arch : option string; start_address : Z; page_size : Z }.

(** [TockApp::replace_idx] *)
Definition replace_idx (app : TockApp) (new_idx : nat) : TockApp :=
  match app with
  | Flexible f => Flexible (mkFlexible (fl_installed f) (Some new_idx) (fl_size f))
  | Fixed f => Fixed (mkFixed (fx_installed f) (Some new_idx)
                        (compatible_addresses f) (fx_size f))
  end.

(** The first pass of [reshuffle_apps]: every app gets its position. *)
Fixpoint assign_from (i : nat) (apps : list TockApp) : list TockApp :=
  match apps with
  | [] => []
  | a :: t => replace_idx a i :: assign_from (S i) t
  end.

(** [c_apps] and [rust_apps], in input order *)
Definition flexible_apps (apps : list TockApp) : list FlexibleApp :=
  flat_map (fun a => match a with Flexible f => [f] | Fixed _ => [] end) apps.
Definition fixed_apps (apps : list TockApp) : list FixedApp :=
  flat_map (fun a => match a with Fixed f => [f] | Flexible _ => [] end) apps.

Definition fixed_as_index (a : FixedApp) (ram : option Z) (install_address : Z)
  : Index := mkIndex (fx_installed a) (fx_idx a) true ram install_address (fx_size a).
Definition flexible_as_index (a : FlexibleApp) (ram : option Z)
  (install_address : Z) : Index :=
  mkIndex (fl_installed a) (fl_idx a) false ram install_address (fl_size a).

(** [rust_apps.sort_by_key(|app| app.compatible_addresses[0].unwrap().0)]:
    a stable sort; for two or more apps every key is evaluated, which
    panics when an app has no first candidate. *)
Definition sort_key_ok (a : FixedApp) : bool :=
  match compatible_addresses a with Some _ :: _ => true | _ => false end.
Definition sort_key (a : FixedApp) : Z :=
  match compatible_addresses a with Some (f, _) :: _ => f | _ => 0 end.

Fixpoint insert_by_key (x : FixedApp) (l : list FixedApp) : list FixedApp :=
  match l with
  | [] => [x]
  | y :: t => if sort_key x <=? sort_key y then x :: y :: t
              else y :: insert_by_key x t
  end.

Fixpoint sort_by_key (l : list FixedApp) : list FixedApp :=
  match l with
  | [] => []
  | x :: t => insert_by_key x (sort_by_key t)
  end.

Definition sort_rust_apps (l : list FixedApp) : res (list FixedApp) :=
  if (length l <? 2)%nat then Ok l
  else if forallb sort_key_ok l then Ok (sort_by_key l) else Panic.

(** [(0..n).permutations(n)] of itertools: all orderings, lexicographic. *)
Fixpoint select (l : list nat) : list (nat * list nat) :=
  match l with
  | [] => []
  | x :: t => (x, t) :: map (fun p => (fst p, x :: snd p)) (select t)
  end.

Fixpoint perms_aux (fuel : nat) (l : list nat) : list (list nat) :=
  match l with
  | [] => [[]]
  | _ => match fuel with
         | O => []
         | S f => flat_map (fun p => map (cons (fst p)) (perms_aux f (snd p)))
                    (select l)
         end
  end.

Definition permutations (n : nat) : list (list nat) := perms_aux n (seq 0 n).

(** The state of one placement pass (lines 211-215). *)
Record PState := mkPState {
  permutation_index : nat; rust_index : nat; compatible_index : nat;
  total_padding : Z; reordered_apps : list Index }.

Fixpoint last_opt (l : list Index) : option Index :=
  match l with
  | [] => None
  | [x] => Some x
  | _ :: t => last_opt t
  end.

(** The inner [loop] over [compatible_index] (lines 228-238, 251-268):
    indexing past the end panics, so does [expect] on [None]. *)
Fixpoint walk_candidates (cands : list (option (Z * Z))) (ci : nat) (addr : Z)
  : res nat :=
  match cands with
  | [] => Panic
  | None :: _ => Panic
  | Some (f, _) :: t => if addr <=? f then Ok ci else walk_candidates t (S ci) addr
  end.

Section Placement.
Variable settings : BoardSettings.
Variable c_apps : list FlexibleApp.
Variable rust_apps : list FixedApp.
Variable order : list nat.

(** [reordered_apps.last().map_or(settings.start_address, |app| app.address + app.size)] *)
Definition last_end (apps : list Index) : res Z :=
  match last_opt apps with
  | None => Ok (start_address settings)
  | Some e => add_u64 (address e) (size e)
  end.

Definition find_compatible (r : FixedApp) (ci : nat) (addr : Z) : res nat :=
  walk_candidates (skipn ci (compatible_addresses r)) ci addr.

(** [rust_app.compatible_addresses[ci].expect(..)] *)
Definition candidate (r : FixedApp) (ci : nat) : res (Z * Z) :=
  match nth_error (compatible_addresses r) ci with
  | Some (Some p) => Ok p
  | _ => Panic
  end.

(** The [insert_c] decision of one iteration (lines 224-273): [None] is
    the [break], [Some (insert_c, compatible_index)] otherwise. *)
Definition insert_decision (s : PState) (address : Z) : res (option (bool * nat)) :=
  match nth_error order (permutation_index s) with
  | Some k =>
      match nth_error rust_apps (rust_index s) with
      | Some r =>
          ci <- find_compatible r (compatible_index s) address ;;
          c <- nth_res c_apps k ;;
          '(f, _) <- candidate r ci ;;
          room <- sub_u64 f address ;;
          Ok (Some (fl_size c <=? room, ci))
      | None => Ok (Some (true, compatible_index s))
      end
  | None =>
      match nth_error rust_apps (rust_index s) with
      | Some r =>
          ci <- find_compatible r (compatible_index s) address ;;
          Ok (Some (false, ci))
      | None => Ok None
      end
  end.

(** The rest of the iteration (lines 275-342): the padding, then the app. *)
Definition place (s : PState) (insert_c : bool) (ci : nat) : res PState :=
  start <- last_end (reordered_apps s) ;;
  needed_padding <-
    (if insert_c then
       if is_multiple_of start (page_size settings) then Ok 0
       else (m <- rem_u64 start (page_size settings) ;;
             Ok (page_size settings - m))
     else
       (r <- nth_res rust_apps (rust_index s) ;;
        '(f, _) <- candidate r ci ;;
        sub_u64 f start)) ;;
  '(tp, apps, start') <-
    (if 0 <? needed_padding then
       tp <- add_u64 (total_padding s) needed_padding ;;
       start' <- add_u64 start needed_padding ;;
       Ok (tp, reordered_apps s
                 ++ [mkIndex false None false None start needed_padding],
           start')
     else Ok (total_padding s, reordered_apps s, start)) ;;
  if insert_c then
    k <- nth_res order (permutation_index s) ;;
    c <- nth_res c_apps k ;;
    let e := flexible_as_index c None start' in
    match idx e with
    | None => Panic
    | Some _ => Ok (mkPState (S (permutation_index s)) (rust_index s)
                      ci tp (apps ++ [e]))
    end
  else
    r <- nth_res rust_apps (rust_index s) ;;
    '(f, ram) <- candidate r ci ;;
    let e := fixed_as_index r (Some ram) f in
    match idx e with
    | None => Panic
    | Some _ => Ok (mkPState (permutation_index s) (S (rust_index s))
                      ci tp (apps ++ [e]))
    end.

(** One iteration of the placement [loop] (lines 216-343); [None] is its
    [break]. *)
Definition step (s : PState) : res (option PState) :=
  address <- last_end (reordered_apps s) ;;
  decision <- insert_decision s address ;;
  match decision with
  | None => Ok None
  | Some (insert_c, ci) =>
      s' <- place s insert_c ci ;;
      Ok (Some s')
  end.

(** The placement [loop]: every iteration but the last places one app, so
    [length order + length rust_apps + 1] iterations reach the [break]. *)
Fixpoint run_loop (fuel : nat) (s : PState) : res PState :=
  match fuel with
  | O => Panic
  | S f =>
      r <- step s ;;
      match r with
      | None => Ok s
      | Some s' => run_loop f s'
      end
  end.

Definition run_permutation : res (Z * list Index) :=
  s <- run_loop (length order + length rust_apps + 1) (mkPState 0 0 0 0 []) ;;
  Ok (total_padding s, reordered_apps s).

End Placement.

(** The permutation search (lines 205-357). *)
Fixpoint search (settings : BoardSettings) (c_apps : list FlexibleApp)
  (rust_apps : list FixedApp) (ps : list (list nat)) (min_padding : Z)
  (saved : list Index) : res (list Index) :=
  match ps with
  | [] => Ok saved
  | order :: rest =>
      '(tp, apps) <- run_permutation settings c_apps rust_apps order ;;
      if tp <? min_padding then
        if tp =? 0 then Ok apps
        else search settings c_apps rust_apps rest tp apps
      else search settings c_apps rust_apps rest min_padding saved
  end.

Definition reshuffle_apps (settings : BoardSettings) (installed_apps : list TockApp)
  : res (option (list Index)) :=
  let apps := assign_from 0 installed_apps in
  let c_apps := flexible_apps apps in
  rust_apps <- sort_rust_apps (fixed_apps apps) ;;
  if existsb (fun r => match compatible_addresses r with [] => true | _ => false end)
       rust_apps
  then Ok None
  else
    saved <- search settings c_apps rust_apps
               (firstn 100000 (permutations (length c_apps))) USIZE_MAX [] ;;
    Ok (Some saved).

End Reshuffle.

(** ** Layout properties of a placement *)
Module ReshuffleSpec.
Import Reshuffle.

Definition app_size (a : TockApp) : Z :=
  match a with Flexible f => fl_size f | Fixed f => fx_size f end.

Definition zsum (l : list Z) : Z := fold_right Z.add 0 l.
Arguments zsum : simpl never.

Definition opt_list {A} (o : option A) : list A :=
  match o with Some a => [a] | None => [] end.

(** Positions (into the input list) of the apps a placement contains *)
Definition placed_indices (l : list Index) : list nat :=
  flat_map (fun e => opt_list (idx e)) l.

Definition is_padding (e : Index) : bool :=
  match idx e with None => true | Some _ => false end.

Definition pad_sum (l : list Index) : Z :=
  zsum (map size (filter is_padding l)).

(** The entries lie back to back from address [a], each non-empty. *)
Fixpoint chain (a : Z) (l : list Index) : Prop :=
  match l with
  | [] => True
  | e :: t => address e = a /\ 0 < size e /\ chain (a + size e) t
  end.

(** An entry is padding, or the app at its position in the input, placed
    on a page boundary (Flexible) or at one of its candidates (Fixed). *)
Definition entry_spec (settings : BoardSettings) (apps : list TockApp)
  (e : Index) : Prop :=
  match idx e with
  | None => fixed e = false /\ 0 < size e
  | Some i =>
      exists a, nth_error apps i = Some a /\
      match a with
      | Flexible f =>
          fixed e = false /\ size e = fl_size f
          /\ Z.divide (page_size settings) (address e)
      | Fixed f =>
          fixed e = true /\ size e = fx_size f
          /\ exists ram, In (Some (address e, ram)) (compatible_addresses f)
      end
  end.

Definition flex_origin (apps : list TockApp) (c : FlexibleApp) : Prop :=
  exists i c', fl_idx c = Some i /\ nth_error apps i = Some (Flexible c')
               /\ fl_size c' = fl_size c.

Definition fixed_origin (apps : list TockApp) (r : FixedApp) : Prop :=
  exists i r', fx_idx r = Some i /\ nth_error apps i = Some (Fixed r')
               /\ compatible_addresses r' = compatible_addresses r
               /\ fx_size r' = fx_size r.

Definition flex_ids (c_apps : list FlexibleApp) : list nat :=
  flat_map (fun c => opt_list (fl_idx c)) c_apps.
Definition fixed_ids (rust_apps : list FixedApp) : list nat :=
  flat_map (fun r => opt_list (fx_idx r)) rust_apps.

Definition pad_entry (a n : Z) : list Index :=
  if 0 <? n then [mkIndex false None false None a n] else [].

(** What a pass of the placement loop maintains over its state *)
Definition loop_inv (settings : BoardSettings) (apps : list TockApp)
  (c_apps : list FlexibleApp) (rust_apps : list FixedApp) (order : list nat)
  (s : PState) : Prop :=
  chain (start_address settings) (reordered_apps s)
  /\ Forall (entry_spec settings apps) (reordered_apps s)
  /\ Permutation (placed_indices (reordered_apps s))
       (flex_ids (flat_map (fun k => opt_list (nth_error c_apps k))
                    (firstn (permutation_index s) order))
        ++ fixed_ids (firstn (rust_index s) rust_apps))
  /\ total_padding s = pad_sum (reordered_apps s)
  /\ (total_padding s = 0 \/ total_padding s < zsum (map size (reordered_apps s))).

(** The layout properties of a placement [P] of [apps] *)
Definition layout_ok (settings : BoardSettings) (apps : list TockApp)
  (P : list Index) : Prop :=
  StronglySorted Z.lt (map address P)
  /\ Forall (entry_spec settings apps) P
  /\ Permutation (placed_indices P) (seq 0 (length apps))
  /\ chain (start_address settings) P
  /\ zsum (map size P) = zsum (map app_size apps) + pad_sum P.

End ReshuffleSpec.

(** ** System attributes (attributes/decode.rs, attributes/system_attributes.rs) *)
Module Attributes.

(** The [utf8_decode::Decoder] iterator over a byte slice, as the external
    crate decodes UTF-8 (RFC 3629): [Some] code points when every sequence is
    well formed; [None] when the iterator yields an [Err], which the callers'
    [expect] turns into a panic. *)
Definition is_cont (b : Z) : bool := (128 <=? b) && (b <? 192).

Fixpoint utf8_decode (bs : list Z) : option (list Z) :=
  match bs with
  | [] => Some []
  | a :: t =>
      if a <? 128 then option_map (cons a) (utf8_decode t)
      else if (194 <=? a) && (a <? 224) then
        match t with
        | b :: t' =>
            if is_cont b then option_map (cons ((a - 192) * 64 + (b - 128)))
                                (utf8_decode t')
            else None
        | [] => None
        end
      else if (224 <=? a) && (a <? 240) then
        match t with
        | b :: c :: t' =>
            let cp := (a - 224) * 4096 + (b - 128) * 64 + (c - 128) in
            if is_cont b && is_cont c && (2048 <=? cp)
               && negb ((55296 <=? cp) && (cp <? 57344))
            then option_map (cons cp) (utf8_decode t') else None
        | _ => None
        end
      else if (240 <=? a) && (a <? 245) then
        match t with
        | b :: c :: d :: t' =>
            let cp := (a - 240) * 262144 + (b - 128) * 4096 + (c - 128) * 64
                      + (d - 128) in
            if is_cont b && is_cont c && is_cont d && (65536 <=? cp)
               && (cp <=? 1114111)
            then option_map (cons cp) (utf8_decode t') else None
        | _ => None
        end
      else None
  end.

(** [String::trim_end_matches('\0')] on code points *)
Fixpoint trim_end_nul (s : list Z) : list Z :=
  match s with
  | [] => []
  | c :: t => match trim_end_nul t with
              | [] => if c =? 0 then [] else [c]
              | t' => c :: t'
              end
  end.

(** Decoding with [expect] on every character *)
Definition decode_expect (bs : list Z) : res (list Z) :=
  match utf8_decode bs with Some s => Ok s | None => Panic end.

(** [&step[k..k+n]], which panics past the end *)
Definition slice_res (k n : nat) (l : list Z) : res (list Z) :=
  if (k + n <=? length l)%nat then Ok (slice k n l) else Panic.

Record DecodedAttribute := mkDecodedAttribute { key : list Z; value : list Z }.

Definition decode_attribute (step : list Z) : res (option DecodedAttribute) :=
  raw_key <- slice_res 0 8 step ;;
  key <- decode_expect raw_key ;;
  let key := trim_end_nul key in
  vlen <- (match nth_error step 8 with Some v => Ok v | None => Panic end) ;;
  if (55 <? vlen) || (vlen =? 0) then Ok None
  else
    raw_value <- slice_res 9 (Z.to_nat vlen) step ;;
    value <- decode_expect raw_value ;;
    Ok (Some (mkDecodedAttribute key (trim_end_nul value))).

(** [slice::chunks(k)]: consecutive chunks, the last one possibly short *)
Fixpoint chunks_aux (fuel : nat) (k : nat) (l : list Z) : list (list Z) :=
  match fuel with
  | O => []
  | S f => match l with
           | [] => []
           | _ => firstn k l :: chunks_aux f k (skipn k l)
           end
  end.

Definition chunks (k : nat) (l : list Z) : list (list Z) := chunks_aux (length l) k l.

(** [str::trim_start_matches("0x")] *)
Fixpoint trim_0x (s : list Z) : list Z :=
  match s with
  | 48 :: 120 :: t => trim_0x t
  | _ => s
  end.

Definition hex_digit (c : Z) : option Z :=
  if (48 <=? c) && (c <=? 57) then Some (c - 48)
  else if (97 <=? c) && (c <=? 102) then Some (c - 87)
  else if (65 <=? c) && (c <=? 70) then Some (c - 55)
  else None.

Fixpoint hex_value (acc : Z) (s : list Z) : option Z :=
  match s with
  | [] => Some acc
  | c :: t => match hex_digit c with
              | Some d => hex_value (acc * 16 + d) t
              | None => None
              end
  end.

(** [u64::from_str_radix(s, 16)]: an optional [+], then hex digits; an empty
    string, a bad digit or a value past [u64::MAX] is an error. *)
Definition u64_from_str_radix16 (s : list Z) : option Z :=
  let digits := match s with
                | 43 :: (_ :: _) as t => Some t
                | [43] => None
                | [] => None
                | _ => Some s
                end in
  match digits with
  | None => None
  | Some d => match hex_value 0 d with
              | Some v => if v <=? 2 ^ 64 - 1 then Some v else None
              | None => None
              end
  end.

(** The fields of [SystemAttributes] the slot loop assigns *)
Record SystemAttributes := mkSystemAttributes {
  board : option (list Z); arch : option (list Z);
  appaddr : option Z; boothash : option (list Z) }.

Definition new_attributes : SystemAttributes := mkSystemAttributes None None None None.

(** The body of the slot loop for slot [current_slot] (lines 96-122) *)
Definition assign_slot (current_slot : nat) (d : DecodedAttribute)
  (r : SystemAttributes) : res SystemAttributes :=
  match current_slot with
  | 0%nat => Ok (mkSystemAttributes (Some (value d)) (arch r) (appaddr r) (boothash r))
  | 1%nat => Ok (mkSystemAttributes (board r) (Some (value d)) (appaddr r) (boothash r))
  | 2%nat => match u64_from_str_radix16 (trim_0x (value d)) with
             | Some v => Ok (mkSystemAttributes (board r) (arch r) (Some v) (boothash r))
             | None => Err AttributeInvalidNumber
             end
  | 3%nat => Ok (mkSystemAttributes (board r) (arch r) (appaddr r) (Some (value d)))
  | _ => Ok r
  end.

Fixpoint slot_loop (slots : list (nat * list Z)) (r : SystemAttributes)
  : res SystemAttributes :=
  match slots with
  | [] => Ok r
  | (current_slot, slot_data) :: t =>
      o <- decode_attribute slot_data ;;
      match o with
      | None => slot_loop t r
      | Some d => r' <- assign_slot current_slot d r ;; slot_loop t r'
      end
  end.

(** The attribute part of [read_system_attributes_probe] (lines 79-123), on
    the 1024 bytes read at 0x600 *)
Definition read_attribute_slots (buf : list Z) : res SystemAttributes :=
  let data := chunks 64 buf in
  slot_loop (combine (seq 0 (length data)) data) new_attributes.

End Attributes.

(** ** The flash phase of the serial [install_app]
    (command_impl/serial/install.rs, lines 110-186) *)
Module SerialInstall.
Import BootloaderSerial.

Definition page_size : nat := 512.

Definition add_u32 (a b : Z) : res Z := if a + b <? 2 ^ 32 then Ok (a + b) else Panic.
Definition add_u8 (a b : Z) : res Z := if a + b <? 256 then Ok (a + b) else Panic.

(** [binary.extend(vec![0xFF; remaining % page_size])] *)
Definition pad_binary (binary : list Z) : list Z :=
  let remaining := (page_size - length binary mod page_size)%nat in
  binary ++ repeat 255 (remaining mod page_size).

(** [binary[(i * page_size)..((i + 1) * page_size)]] *)
Definition page (binary : list Z) (i : nat) : list Z :=
  slice (i * page_size) page_size binary.

Definition page_nonzero (binary : list Z) (i : nat) : bool :=
  existsb (fun b => negb (b =? 0)) (page binary i).

(** [valid_pages]: the pages holding a nonzero byte as [u8] indices, or all
    pages when there is none *)
Definition valid_pages (binary : list Z) : list Z :=
  let n := (length binary / page_size)%nat in
  match map (fun i => Z.of_nat i mod 256) (filter (page_nonzero binary) (seq 0 n)) with
  | [] => map (fun i => Z.of_nat i mod 256) (seq 0 n)
  | v => v
  end.

(** [valid_pages.extend(ending_pages)]: the page after each valid page when
    it exists and is not already listed; [i + 1] on a [u8] panics at 255. *)
Definition with_ending_pages (existing : list Z) (npages : nat) : res (list Z) :=
  if existsb (fun i => i =? 255) existing then Panic
  else Ok (existing
           ++ filter (fun next => (next <? Z.of_nat npages mod 256)
                                  && negb (existsb (Z.eqb next) existing))
                (map (fun i => i + 1) existing)).

Section Flash.
(** The bootloader exchange: [issue_command(stream, command, pkt, true, 0,
    Response::OK).await?] on a state [St] of the connection. *)
Variable St : Type.
Variable issue : St -> Command -> list Z -> res St.

Fixpoint write_pages (st : St) (new_address : Z) (binary : list Z) (pages : list Z)
  : res St :=
  match pages with
  | [] => Ok st
  | i :: t =>
      addr <- add_u32 (as_u32 new_address) ((i * 512) mod 2 ^ 32) ;;
      next <- add_u8 i 1 ;;
      data <- (if (Z.to_nat next * page_size <=? length binary)%nat
               then Ok (page binary (Z.to_nat i)) else Panic) ;;
      st' <- issue st WritePage (u32_le addr ++ data) ;;
      write_pages st' new_address binary t
  end.

(** From the app start [address] found by the scan and the app's binary *)
Definition install_write (st : St) (address : Z) (binary : list Z) : res St :=
  let size := Z.of_nat (length binary) in
  if size =? 0 then Panic
  else
    let multiple := address / size in
    new_address <- (if negb (multiple * size =? address)
                    then (s <- Reshuffle.add_u64 address size ;; Ok (s / size * size))
                    else Ok address) ;;
    let binary := pad_binary binary in
    let binary_len := length binary in
    pages <- with_ending_pages (valid_pages binary) (binary_len / page_size) ;;
    st' <- write_pages st new_address binary pages ;;
    new_address <- Reshuffle.add_u64 new_address (Z.of_nat (length binary)) ;;
    issue st' ErasePage (u32_le (as_u32 new_address)).

End Flash.

(** A bootloader that acknowledges every command; the state records the
    commands and payloads in the order they are issued. *)
Definition log_issue (st : list (Command * list Z)) (c : Command) (pkt : list Z)
  : res (list (Command * list Z)) := Ok (st ++ [(c, pkt)]).

End SerialInstall.

(** ** The inventory walk (attributes/app_attributes.rs)

    [read_apps_data_probe] and [read_apps_data_serial] run the same loop and
    differ only in how they read device memory; the loop is written once
    over a device state [St] and the two readers. *)
Module AppInventory.
Import BootloaderSerial.

(** Modelled from the spec: [parse_tbf_header_lengths] of the tbf-parser
    crate reads the version (u16 LE), [header_len] (u16 LE) and [total_len]
    (u32 LE) from the 8-byte prologue, and fails if [header_len = 0] or
    [header_len > total_len]. *)
Definition parse_tbf_header_lengths (bs : list Z) : option (Z * Z * Z) :=
  let version := from_le (slice 0 2 bs) in
  let header_len := from_le (slice 2 2 bs) in
  let total_len := from_le (slice 4 4 bs) in
  if (header_len =? 0) || (total_len <? header_len) then None
  else Some (version, header_len, total_len).

Section Walk.
(** The tbf-parser interface the walk relies on: [parse_tbf_header],
    [get_binary_end], the [TbfHeader::TbfHeaderV2] test and
    [parse_tbf_footer]; parse errors are [TbfParseError] codes. *)
Variables TbfHeader Credentials : Type.
Variable parse_tbf_header : list Z -> Z -> TbfHeader + nat.
Variable get_binary_end : TbfHeader -> Z.
Variable is_v2 : TbfHeader -> bool.
Variable parse_tbf_footer : list Z -> (Credentials * Z) + nat.

(** The device: [read_at st address len] reads [len] bytes at [address];
    [read_footer st appaddr footer_offset len] reads a footer. *)
Variable St : Type.
Variable read_at : St -> Z -> nat -> res (list Z * St).
Variable read_footer : St -> Z -> Z -> nat -> res (list Z * St).

Record AppAttributes := mkAppAttributes {
  address : Z;
  tbf_header : TbfHeader;
  tbf_footers : list (Credentials * Z)
}.

(** [while footer_offset < total_size { ... }]; each round moves
    [footer_offset] forward by at least 4, so [fuel] never runs out when it
    is the total size. *)
Fixpoint footer_loop (fuel : nat) (st : St) (appaddr total_size binary_end
    total_footers_size footer_offset : Z) (footers : list (Credentials * Z))
  : res (list (Credentials * Z) * St) :=
  match fuel with
  | O => Panic
  | S f =>
      if footer_offset <? total_size then
        len <- Reshuffle.sub_u64 total_footers_size (footer_offset - binary_end) ;;
        '(appfooter, st') <- read_footer st appaddr footer_offset (Z.to_nat len) ;;
        match parse_tbf_footer appfooter with
        | inr e => Err (InvalidAppTbfHeader e)
        | inl (credentials, size) =>
            step <- SerialInstall.add_u32 size 4 ;;
            footer_offset' <- SerialInstall.add_u32 footer_offset step ;;
            footer_loop f st' appaddr total_size binary_end total_footers_size
              footer_offset' (footers ++ [(credentials, size)])
        end
      else Ok (footers, st)
  end.

(** The [loop] of the walk; a failed prologue parse ends it with the
    applications collected so far. Each round advances [appaddr] by a
    nonzero [total_size] and reads device data, so [fuel] never runs out
    when it bounds the rounds. *)
Fixpoint walk (fuel : nat) (st : St) (appaddr : Z) (apps_details : list AppAttributes)
  : res (list AppAttributes) :=
  match fuel with
  | O => Panic
  | S f =>
      '(appdata, st1) <- read_at st appaddr 8 ;;
      (* [appdata[0..8].try_into().expect(...)] *)
      prologue <- (if (8 <=? length appdata)%nat then Ok (firstn 8 appdata) else Panic) ;;
      match parse_tbf_header_lengths prologue with
      | None => Ok apps_details
      | Some (tbf_version, header_size, total_size) =>
          '(header_data, st2) <- read_at st1 appaddr (Z.to_nat header_size) ;;
          match parse_tbf_header header_data tbf_version with
          | inr e => Err (InvalidAppTbfHeader e)
          | inl header =>
              let binary_end_offset := get_binary_end header in
              if negb (is_v2 header) then
                appaddr' <- Reshuffle.add_u64 appaddr total_size ;;
                walk f st2 appaddr' apps_details
              else
                total_footers_size <- Reshuffle.sub_u64 total_size binary_end_offset ;;
                '(footers, st3) <- footer_loop (Z.to_nat total_size) st2 appaddr total_size
                                     binary_end_offset total_footers_size
                                     binary_end_offset [] ;;
                appaddr' <- Reshuffle.add_u64 appaddr total_size ;;
                walk f st3 appaddr'
                  (apps_details ++ [mkAppAttributes appaddr header footers])
          end
      end
  end.

End Walk.

(** The probe: flash is a byte image from address 0; a read outside it is
    an error of the probe ([board_core.read(..)?]). *)
Definition probe_read (mem : list Z) (address : Z) (len : nat) : res (list Z * list Z) :=
  if (0 <=? address) && (address + Z.of_nat len <=? Z.of_nat (length mem))
  then Ok (slice (Z.to_nat address) len mem, mem)
  else Err ReadError.

Definition probe_read_footer (mem : list Z) (appaddr footer_offset : Z) (len : nat)
  : res (list Z * list Z) :=
  a <- Reshuffle.add_u64 appaddr footer_offset ;;
  probe_read mem a len.

(** The serial reads: a [ReadRange] on the [u32] address and [u16] length. *)
Definition serial_read (p : Port) (address : Z) (len : nat) : res (list Z * Port) :=
  '((_, data), p') <- issue_command p ReadRange
                        (u32_le (as_u32 address) ++ u16_le (as_u16 (Z.of_nat len)))
                        true len RReadRange ;;
  Ok (data, p').

(** [(appaddr as u32 + footer_offset).to_le_bytes()] *)
Definition serial_read_footer (p : Port) (appaddr footer_offset : Z) (len : nat)
  : res (list Z * Port) :=
  a <- SerialInstall.add_u32 (as_u32 appaddr) footer_offset ;;
  '((_, data), p') <- issue_command p ReadRange (u32_le a ++ u16_le (as_u16 (Z.of_nat len)))
                        true len RReadRange ;;
  Ok (data, p').

Definition read_apps_data_probe {H C} (parse : list Z -> Z -> H + nat)
    (binary_end : H -> Z) (v2 : H -> bool) (parse_footer : list Z -> (C * Z) + nat)
    (mem : list Z) (addr : Z) : res (list (AppAttributes H C)) :=
  walk H C parse binary_end v2 parse_footer (list Z) probe_read probe_read_footer
    (S (length mem)) mem addr [].

Definition read_apps_data_serial {H C} (parse : list Z -> Z -> H + nat)
    (binary_end : H -> Z) (v2 : H -> bool) (parse_footer : list Z -> (C * Z) + nat)
    (p : Port) (addr : Z) : res (list (AppAttributes H C)) :=
  walk H C parse binary_end v2 parse_footer Port serial_read serial_read_footer
    (S (length (rx p))) p addr [].

End AppInventory.

(** ** Modelled from the spec: the TBF header parser of the tbf-parser crate
    (spec 4.A and 3): for version 2 the header is at least 16 bytes, the
    XOR of the 32-bit words of its first [header_len] bytes is zero (else
    [ChecksumMismatch]), and its TLVs after the 16-byte base fill exactly
    [header_len] bytes; a header without a Main TLV is a padding
    application. The binary of a header with a Main TLV runs to
    [total_len], so it has no footer. *)
Module TbfSpec.

Inductive TbfHeader :=
| TbfHeaderV2 (version header_len total_len flags : Z)
| TbfHeaderPadding (version header_len total_len : Z).

(** [TbfParseError] codes *)
Definition UnsupportedVersion : nat := 0.
Definition BadLength : nat := 1.
Definition ChecksumMismatch : nat := 2.
Definition BadTlv : nat := 3.

Definition TLV_MAIN : Z := 1.

(** Walks the TLVs (type u16, length u16, payload); [Some b] when they fill
    the buffer exactly, [b] telling whether a Main TLV was seen. *)
Fixpoint walk_tlvs (fuel : nat) (l : list Z) : option bool :=
  match l with
  | [] => Some false
  | _ =>
      match fuel with
      | O => None
      | S f =>
          if (length l <? 4)%nat then None
          else
            let t := from_le (slice 0 2 l) in
            let n := Z.to_nat (from_le (slice 2 2 l)) in
            let rest := skipn 4 l in
            if (length rest <? n)%nat then None
            else option_map (orb (t =? TLV_MAIN)) (walk_tlvs f (skipn n rest))
      end
  end.

Definition parse_tbf_header (bytes : list Z) (version : Z) : TbfHeader + nat :=
  if negb (version =? 2) then inr UnsupportedVersion
  else
    let header_len := from_le (slice 2 2 bytes) in
    let total_len := from_le (slice 4 4 bytes) in
    let flags := from_le (slice 8 4 bytes) in
    let header := firstn (Z.to_nat header_len) bytes in
    if (header_len <? 16) || (Z.of_nat (length bytes) <? header_len) then inr BadLength
    else if negb (xor_words header =? 0) then inr ChecksumMismatch
    else match walk_tlvs (length header) (skipn 16 header) with
         | None => inr BadTlv
         | Some true => inl (TbfHeaderV2 version header_len total_len flags)
         | Some false => inl (TbfHeaderPadding version header_len total_len)
         end.

Definition is_v2 (h : TbfHeader) : bool :=
  match h with TbfHeaderV2 _ _ _ _ => true | _ => false end.

Definition get_binary_end (h : TbfHeader) : Z :=
  match h with TbfHeaderV2 _ _ total_len _ => total_len | _ => 0 end.

(** A footer TLV: type u16, length u16, then the 4-byte credential format
    word; the result is the format word and the payload length. *)
Definition parse_tbf_footer (bytes : list Z) : (Z * Z) + nat :=
  if (length bytes <? 8)%nat then inr BadLength
  else inl (from_le (slice 4 4 bytes), from_le (slice 2 2 bytes)).

End TbfSpec.

(** ** [ping_bootloader_and_wait_for_response] (bootloader_serial.rs,
    lines 160-176) *)
Module Ping.
Import BootloaderSerial.

Definition ping_pkt : list Z := [ESCAPE_CHAR; command_byte Ping].

(** [for _ in 0..30]: [n] attempts left *)
Fixpoint ping_loop (n : nat) (p : Port) : res Port :=
  match n with
  | O => Err BootloaderNotPresent
  | S k =>
      p1 <- write_bytes p ping_pkt ;;
      '(ret, p2) <- read_bytes p1 2 ;;
      if nth 1 ret 0 =? response_byte Pong then Ok p2 else ping_loop k p2
  end.

Definition ping_bootloader_and_wait_for_response (p : Port) : res Port :=
  ping_loop 30 p.

End Ping.

(** ** [impl IO for SerialConnection] and the serial commands built on it
    (command_impl/serial/io.rs, erase_apps.rs) *)
Module SerialIO.
Import BootloaderSerial.

(** [IO::read]; [self.stream.as_mut().expect(..)] panics on a closed
    connection. *)
Definition io_read (is_open : bool) (p : Port) (address : Z) (size : nat)
  : res (list Z * Port) :=
  if negb is_open then Panic
  else
    '((_, appdata), p') <-
      issue_command p ReadRange (u32_le (as_u32 address) ++ u16_le (as_u16 (Z.of_nat size)))
        true size RReadRange ;;
    if (length appdata <? size)%nat then Panic else Ok (appdata, p').

(** [u32] multiplication, which panics on overflow *)
Definition mul_u32 (a b : Z) : res Z := if a * b <? 2 ^ 32 then Ok (a * b) else Panic.

Section Write.
(** The bootloader exchange [issue_command(stream, command, pkt, true, 0,
    Response::OK).await?] on a connection state [St], and the [u32]
    [PAGE_SIZE] of [reshuffle_apps]. *)
Variable St : Type.
Variable issue : St -> Command -> list Z -> res St.
Variable PAGE_SIZE : Z.

(** [binary.extend(vec![0u8; PAGE_SIZE - binary.len() % PAGE_SIZE])] when
    the length is not a multiple of [PAGE_SIZE] *)
Definition pad_zero (binary : list Z) : res (list Z) :=
  let len := Z.of_nat (length binary) in
  if negb (Reshuffle.is_multiple_of len PAGE_SIZE) then
    r <- Reshuffle.rem_u64 len PAGE_SIZE ;;
    Ok (binary ++ repeat 0 (Z.to_nat (PAGE_SIZE - r)))
  else Ok binary.

(** [for page_number in pages]: one [WritePage] per page *)
Fixpoint write_page_loop (st : St) (address : Z) (binary : list Z) (pages : list nat)
  : res St :=
  match pages with
  | [] => Ok st
  | page_number :: t =>
      off <- mul_u32 (as_u32 (Z.of_nat page_number)) PAGE_SIZE ;;
      addr <- SerialInstall.add_u32 (as_u32 address) off ;;
      let ps := Z.to_nat PAGE_SIZE in
      data <- Attributes.slice_res (page_number * ps) ps binary ;;
      st' <- issue st WritePage (u32_le addr ++ data) ;;
      write_page_loop st' address binary t
  end.

Definition io_write (st : St) (address : Z) (pkt : list Z) : res St :=
  binary <- pad_zero pkt ;;
  npages <- (if PAGE_SIZE =? 0 then Panic
             else Ok (Z.to_nat (Z.of_nat (length binary) / PAGE_SIZE))) ;;
  st' <- write_page_loop st address binary (seq 0 npages) ;;
  final <- SerialInstall.add_u32 (as_u32 address) (as_u32 (Z.of_nat (length binary))) ;;
  issue st' ErasePage (u32_le final).

End Write.

(** [CommandEraseApps::erase_apps] *)
Definition erase_apps (is_open : bool) (p : Port) (start_address : Z) : res Port :=
  if negb is_open then Err ConnectionNotOpen
  else
    p1 <- Ping.ping_bootloader_and_wait_for_response p ;;
    '(_, p2) <- issue_command p1 ErasePage (u32_le (as_u32 start_address)) true 0 OK ;;
    Ok p2.

End SerialIO.

(** ** [SystemAttributes::read_system_attributes_probe] and
    [read_system_attributes_serial] (attributes/system_attributes.rs) *)
Module SystemRead.
Import Attributes.

(** [String::from_utf8], whose error is [AttributeInvalidString]; the
    standard library accepts exactly the well-formed UTF-8 of [utf8_decode]. *)
Definition from_utf8 (bs : list Z) : res (list Z) :=
  match utf8_decode bs with Some s => Ok s | None => Err AttributeInvalidString end.

(** [str::trim_start_matches('\0')] on code points *)
Fixpoint trim_start_nul (s : list Z) : list Z :=
  match s with
  | 0 :: t => trim_start_nul t
  | _ => s
  end.

(** [str::trim_matches(char::from(0))] *)
Definition trim_nul (s : list Z) : list Z := trim_end_nul (trim_start_nul s).

(** [LittleEndian::read_u32], which reads the first four bytes and panics
    on a shorter slice *)
Definition read_u32 (bs : list Z) : res Z :=
  if (4 <=? length bs)%nat then Ok (from_le (firstn 4 bs)) else Panic.

(** The fields of [SystemAttributes] past the attribute slots *)
Record KernelAttributes := mkKernelAttributes {
  bootloader_version : list Z;
  sentinel : list Z;
  kernel_version : Z;
  app_mem_start : Z;
  app_mem_len : Z;
  kernel_bin_start : Z;
  kernel_bin_len : Z }.

Section Read.
(** The board access: [read_at st address len] reads [len] bytes at
    [address] ([board_core.read], [read_8], or a [ReadRange] command). *)
Variable St : Type.
Variable read_at : St -> Z -> nat -> res (list Z * St).

(** The two functions share their steps: 1024 bytes of attribute slots at
    0x600, the 8-byte bootloader version at 0x40E, then the 100 bytes of
    kernel attributes below [appaddr] ([appaddr - 100] in [u64]; the serial
    version's [as u32] is the one [ReadRange] applies). *)
Definition read_system_attributes (st : St)
  : res ((SystemAttributes * KernelAttributes) * St) :=
  '(buf, st1) <- read_at st 1536 1024 ;;
  result <- read_attribute_slots buf ;;
  '(vbuf, st2) <- read_at st1 1038 8 ;;
  string <- from_utf8 vbuf ;;
  let version := trim_nul string in
  a <- (match appaddr result with Some a => Ok a | None => Err MissingAttribute end) ;;
  kernel_attr_addr <- Reshuffle.sub_u64 a 100 ;;
  '(kernel_attr_binary, st3) <- read_at st2 kernel_attr_addr 100 ;;
  raw_sentinel <- slice_res 96 4 kernel_attr_binary ;;
  sentinel <- decode_expect raw_sentinel ;;
  raw_version <- slice_res 95 1 kernel_attr_binary ;;
  let kernel_version := from_le raw_version in
  raw_len <- slice_res 84 8 kernel_attr_binary ;;
  app_memory_len <- read_u32 raw_len ;;
  raw_start <- slice_res 80 4 kernel_attr_binary ;;
  app_memory_start <- read_u32 raw_start ;;
  raw_kstart <- slice_res 68 4 kernel_attr_binary ;;
  kernel_binary_start <- read_u32 raw_kstart ;;
  raw_klen <- slice_res 72 4 kernel_attr_binary ;;
  kernel_binary_len <- read_u32 raw_klen ;;
  Ok ((result, mkKernelAttributes version sentinel kernel_version app_memory_start
                 app_memory_len kernel_binary_start kernel_binary_len), st3).

End Read.

Definition read_system_attributes_probe (mem : list Z)
  : res ((SystemAttributes * KernelAttributes) * list Z) :=
  read_system_attributes (list Z) AppInventory.probe_read mem.

Definition read_system_attributes_serial (p : BootloaderSerial.Port)
  : res ((SystemAttributes * KernelAttributes) * BootloaderSerial.Port) :=
  read_system_attributes BootloaderSerial.Port AppInventory.serial_read p.

End SystemRead.

(** ** [align_down], [TockApp::from_app_attributes] and [create_pkt]
    (command_impl/reshuffle_apps.rs) *)
Module ReshuffleApps.
Import Reshuffle.

Definition ALIGNMENT : Z := 1024.

(** [address - address % ALIGNMENT] on a [u64], which cannot underflow *)
Definition align_down (address : Z) : Z := address - address mod ALIGNMENT.

(** [from_app_attributes]: the tbf-parser getters [get_fixed_address_flash],
    [get_fixed_address_ram] and [total_size] of the app's header. *)
Definition from_app_attributes {H C} (get_fixed_address_flash : H -> option Z)
    (get_fixed_address_ram : H -> option Z) (total_size : H -> Z)
    (app_attributes : AppInventory.AppAttributes H C) : TockApp :=
  let h := AppInventory.tbf_header H C app_attributes in
  match get_fixed_address_flash h, get_fixed_address_ram h with
  | Some flash_addr, Some ram_addr =>
      let aligned_adr := align_down flash_addr in
      let aligned_adr := if aligned_adr <? 262144 then 262144 else aligned_adr in
      Fixed (mkFixed true None [Some (aligned_adr, ram_addr)] (total_size h))
  | _, _ => Flexible (mkFlexible true None (total_size h))
  end.

(** [app_binaries[i]] after [pkt.append(&mut app_binaries[i])], which
    leaves that vector empty *)
Definition take_binary (bins : list (list Z)) (i : nat) : list (list Z) :=
  firstn i bins ++ [] :: skipn (S i) bins.

Section CreatePkt.
(** The branch of an app that is not installed: the arch string
    [settings.arch], extended with the fixed flash and ram addresses for a
    Rust app, then [tab.extract_binary(arch).unwrap()]. *)
Variable tab_binary : Index -> res (list Z).

Fixpoint create_pkt_loop (items : list Index) (app_binaries : list (list Z))
  (pkt : list Z) : res (list Z) :=
  match items with
  | [] => Ok pkt
  | item :: t =>
      match idx item with
      | None =>
          create_pkt_loop t app_binaries
            (pkt ++ Padding.create_padding (as_u32 (size item)))
      | Some i =>
          if installed item then
            b <- nth_res app_binaries i ;;
            create_pkt_loop t (take_binary app_binaries i) (pkt ++ b)
          else
            b <- tab_binary item ;;
            create_pkt_loop t app_binaries (pkt ++ b)
      end
  end.

Definition create_pkt (configuration : list Index) (app_binaries : list (list Z))
  : res (list Z) :=
  create_pkt_loop configuration app_binaries [].

End CreatePkt.

End ReshuffleApps.

(** * Proofs *)

Module SerialProofs.
Import BootloaderSerial SerialSpec.


Lemma dup_app (a b : list Z) : dup (a ++ b) = dup a ++ dup b.
Proof. unfold dup. apply flat_map_app. Qed.

Lemma nth_middle_Z (a s : list Z) (x : Z) : nth (length a) (a ++ x :: s) 0 = x.
Proof. rewrite app_nth2 by lia. now rewrite Nat.sub_diag. Qed.

Lemma insert_at_middle (a s : list Z) (x y : Z) :
  insert_at (length a + 1) y (a ++ x :: s) = a ++ x :: y :: s.
Proof.
  unfold insert_at. induction a as [|z a IH]; [reflexivity|].
  simpl. now rewrite IH.
Qed.

Lemma escape_loop_dup (s p : list Z) (fuel : nat) :
  (length s <= fuel)%nat ->
  escape_loop fuel (length (dup p)) (dup p ++ s) = dup p ++ dup s.
Proof.
  revert p fuel. induction s as [|x s IH]; intros p fuel Hf.
  - destruct fuel; simpl; [reflexivity|].
    rewrite app_nil_r, Nat.ltb_irrefl. reflexivity.
  - destruct fuel as [|fuel]; simpl in Hf; [lia|]. simpl.
    assert (Hlt : (length (dup p) <? length (dup p ++ x :: s))%nat = true).
    { apply Nat.ltb_lt. rewrite length_app. simpl. lia. }
    rewrite Hlt, nth_middle_Z.
    destruct (x =? ESCAPE_CHAR) eqn:Hx.
    + apply Z.eqb_eq in Hx. subst x.
      rewrite insert_at_middle.
      specialize (IH (p ++ [ESCAPE_CHAR]) fuel ltac:(lia)).
      rewrite dup_app in IH. unfold dup at 2 in IH. simpl in IH.
      rewrite length_app in IH. simpl in IH. rewrite <- !app_assoc in IH.
      simpl in IH. rewrite IH. reflexivity.
    + specialize (IH (p ++ [x]) fuel ltac:(lia)).
      rewrite dup_app in IH. unfold dup at 2 in IH. simpl in IH.
      rewrite Hx in IH. simpl in IH. rewrite length_app in IH. simpl in IH.
      rewrite <- !app_assoc in IH. simpl in IH. rewrite IH. reflexivity.
Qed.

Lemma escape_is_dup (m : list Z) : escape m = dup m.
Proof.
  unfold escape. pose proof (escape_loop_dup m [] (length m) (le_n _)) as H.
  simpl in H. exact H.
Qed.

Lemma length_dup (m : list Z) :
  length (dup m) = (length m + count_occ Z.eq_dec m ESCAPE_CHAR)%nat.
Proof.
  induction m as [|x m IH]; [reflexivity|].
  unfold dup in *. simpl. destruct (Z.eq_dec x ESCAPE_CHAR) as [->|Hne].
  - rewrite Z.eqb_refl. simpl. rewrite IH. lia.
  - destruct (x =? ESCAPE_CHAR) eqn:Hx; [apply Z.eqb_eq in Hx; congruence|].
    simpl. rewrite IH. lia.
Qed.

(** The receive loop decodes a stuffed stream: [input ++ rx] is the stream,
    [b1] already decoded, [b2] still to decode. *)
Lemma deescape_loop_dup (b2 b1 input wire rest tx : list Z) (i : nat) :
  input ++ wire = dup b1 ++ dup b2 ++ rest ->
  i = length (dup b1) ->
  length input = (i + length b2)%nat ->
  exists p', deescape_loop (length b2) (mkPort wire tx) input i b1
             = Ok (b1 ++ b2, p').
Proof.
  revert b1 input wire i. induction b2 as [|x t IH]; intros b1 input wire i Hs Hi Hl.
  - exists (mkPort wire tx). simpl. now rewrite app_nil_r.
  - assert (Hnth : forall k, (k < length input)%nat ->
              nth k input 0 = nth k (dup b1 ++ dup (x :: t) ++ rest) 0).
    { intros k Hk. rewrite <- Hs, app_nth1 by exact Hk. reflexivity. }
    simpl length. simpl deescape_loop.
    assert (Hlt : (i <? length input)%nat = true) by (apply Nat.ltb_lt; simpl in Hl; lia).
    rewrite Hlt.
    assert (Hx : nth i input 0 = x).
    { rewrite Hnth by (simpl in Hl; lia). subst i. unfold dup at 2. simpl.
      destruct (x =? ESCAPE_CHAR) eqn:E.
      - apply Z.eqb_eq in E. subst. simpl. apply nth_middle_Z.
      - simpl. apply nth_middle_Z. }
    rewrite Hx.
    destruct (x =? ESCAPE_CHAR) eqn:E.
    + apply Z.eqb_eq in E. rewrite E in Hx. subst x.
      assert (Hd : dup (ESCAPE_CHAR :: t) = ESCAPE_CHAR :: ESCAPE_CHAR :: dup t).
      { reflexivity. }
      destruct t as [|y t'].
      * (* a lone first half of the last pair *)
        simpl in Hl. assert (Hn : (i + 1 <? length input)%nat = false)
          by (apply Nat.ltb_ge; lia).
        rewrite Hn. simpl. exists (mkPort wire tx). reflexivity.
      * assert (Hn : (i + 1 <? length input)%nat = true)
          by (apply Nat.ltb_lt; simpl in Hl; lia).
        assert (Hx1 : nth (i + 1) input 0 = ESCAPE_CHAR).
        { rewrite Hnth by (simpl in Hl; lia). subst i. rewrite Hd.
          rewrite app_nth2 by lia.
          replace (length (dup b1) + 1 - length (dup b1))%nat with 1%nat by lia.
          reflexivity. }
        rewrite Hn, Hx1, Z.eqb_refl. cbn [andb].
        assert (Hw : (1 <= length wire)%nat).
        { apply (f_equal (@length Z)) in Hs. rewrite !length_app in Hs.
          rewrite Hd in Hs. simpl in Hs.
          pose proof (length_dup (y :: t')) as Hdl. simpl in Hdl, Hl. lia. }
        destruct wire as [|w wire']; simpl in Hw; [lia|].
        assert (Hr : read_bytes (mkPort (w :: wire') tx) 1
                     = Ok ([w], mkPort wire' tx)) by reflexivity.
        rewrite Hr. cbn [bind].
        assert (Hs' : (input ++ [w]) ++ wire'
                      = dup (b1 ++ [ESCAPE_CHAR]) ++ dup (y :: t') ++ rest).
        { rewrite <- app_assoc. simpl. rewrite Hs, dup_app, Hd, <- app_assoc.
          reflexivity. }
        destruct (IH (b1 ++ [ESCAPE_CHAR]) (input ++ [w]) wire' (i + 2)%nat Hs')
          as [p' Hp'].
        { rewrite dup_app, length_app. simpl. lia. }
        { rewrite length_app. simpl in Hl |- *. lia. }
        exists p'. rewrite Hp', <- app_assoc. reflexivity.
    + rewrite andb_false_r. cbn [andb].
      assert (Hs' : input ++ wire = dup (b1 ++ [x]) ++ dup t ++ rest).
      { rewrite Hs, dup_app. unfold dup at 2 3. simpl. rewrite E. simpl.
        rewrite <- app_assoc. reflexivity. }
      destruct (IH (b1 ++ [x]) input wire (i + 1)%nat Hs') as [p' Hp'].
      { rewrite dup_app. unfold dup at 2. simpl. rewrite E. rewrite length_app.
        simpl. lia. }
      { simpl in Hl. lia. }
      exists p'. rewrite Hp', <- app_assoc. reflexivity.
Qed.


Lemma deescape_loop_length (fuel : nat) (p : Port) (input : list Z) (i : nat)
  (result out : list Z) (p' : Port) :
  fuel = (length input - i)%nat -> (i <= length input)%nat ->
  deescape_loop fuel p input i result = Ok (out, p') ->
  length out = (length result + fuel)%nat.
Proof.
  revert p input i result. induction fuel as [|f IH]; intros p input i result Hf Hi H.
  - simpl in H. inversion H. lia.
  - simpl in H. destruct (i <? length input)%nat eqn:Hlt; [|apply Nat.ltb_ge in Hlt; lia].
    apply Nat.ltb_lt in Hlt.
    destruct ((i + 1 <? length input)%nat && (nth i input 0 =? ESCAPE_CHAR)
              && (nth (i + 1) input 0 =? ESCAPE_CHAR))%bool eqn:Hc.
    + apply andb_true_iff in Hc as [Hc _]. apply andb_true_iff in Hc as [Hc _].
      apply Nat.ltb_lt in Hc.
      unfold read_bytes in H. destruct (1 <=? length (rx p))%nat eqn:Hr;
        simpl in H; [|discriminate].
      destruct (rx p) as [|w ws] eqn:Hrx; simpl in Hr; [discriminate|].
      simpl in H. apply IH in H.
      * rewrite length_app in H. simpl in H. lia.
      * rewrite length_app. simpl. lia.
      * rewrite length_app. simpl. lia.
    + apply IH in H; [rewrite length_app in H; simpl in H; lia | lia | lia].
Qed.

Lemma read_bytes_length (p : Port) (n : nat) (bs : list Z) (p' : Port) :
  read_bytes p n = Ok (bs, p') -> length bs = n.
Proof.
  unfold read_bytes. destruct (n <=? length (rx p))%nat eqn:E; [|discriminate].
  intros H. inversion H. apply Nat.leb_le in E. rewrite length_firstn. lia.
Qed.

(** C4: the escape encoding of [issue_command] duplicates every
    [ESCAPE_CHAR] byte and leaves the others unchanged, so it adds exactly one
    byte per [ESCAPE_CHAR] in [b]; and the receive side of [issue_command],
    asked for [length b] payload bytes from a line carrying [escape b],
    returns [b]. *)
Theorem serial_escape_roundtrip (b rest sent : list Z) :
  escape b = dup b
  /\ length (escape b) = (length b + count_occ Z.eq_dec b ESCAPE_CHAR)%nat
  /\ exists p', receive_payload (mkPort (escape b ++ rest) sent) (length b)
                = Ok (b, p').
Proof.
  rewrite escape_is_dup. split; [reflexivity|]. split; [apply length_dup|].
  unfold receive_payload. destruct (length b =? 0)%nat eqn:E.
  - apply Nat.eqb_eq, length_zero_iff_nil in E. subst b.
    exists (mkPort ([] ++ rest) sent). reflexivity.
  - unfold read_bytes. cbn [rx].
    assert (Hle : (length b <= length (dup b ++ rest))%nat).
    { rewrite length_app, length_dup. lia. }
    apply Nat.leb_le in Hle. rewrite Hle. cbn [bind].
    assert (Hlen : length (firstn (length b) (dup b ++ rest)) = length b).
    { rewrite length_firstn. apply Nat.leb_le in Hle. lia. }
    rewrite Hlen.
    destruct (deescape_loop_dup b [] (firstn (length b) (dup b ++ rest))
                (skipn (length b) (dup b ++ rest)) rest sent 0)
      as [p' Hp'].
    + rewrite firstn_skipn. reflexivity.
    + reflexivity.
    + rewrite Hlen. reflexivity.
    + exists p'. exact Hp'.
Qed.

(** C5: whenever [issue_command] succeeds with [response_len = n > 0], the
    de-escaped payload it returns has exactly [n] bytes (each collapsed
    [ESCAPE_CHAR] pair is compensated by one more byte read from the line). *)
Theorem issue_command_response_len (p : Port) (command : Command)
  (message : list Z) (sync : bool) (n : nat) (code : Response)
  (r : Response) (payload : list Z) (p' : Port) :
  (0 < n)%nat ->
  issue_command p command message sync n code = Ok ((r, payload), p') ->
  length payload = n.
Proof.
  intros Hn H. unfold issue_command, write_bytes in H. cbn [bind] in H.
  destruct (read_bytes _ 2) as [[header p2]| |] eqn:Hh; cbn [bind] in H;
    try discriminate.
  destruct ((nth 0 header 0 =? ESCAPE_CHAR)
            && (nth 1 header 0 =? response_byte code))%bool; [|discriminate].
  unfold receive_payload in H.
  destruct (n =? 0)%nat eqn:E; [apply Nat.eqb_eq in E; lia|].
  destruct (read_bytes p2 n) as [[input p3]| |] eqn:Hr; cbn [bind] in H;
    try discriminate.
  destruct (deescape_loop (length input) p3 input 0 []) as [[out p4]| |] eqn:Hd;
    cbn [bind] in H; try discriminate.
  inversion H; subst.
  apply read_bytes_length in Hr.
  apply deescape_loop_length in Hd; [simpl in Hd; lia | lia | lia].
Qed.

(** Witness for C5: a ReadRange response whose four data bytes are all
    [ESCAPE_CHAR] (sent stuffed as eight) yields exactly four bytes. *)
Lemma issue_command_response_len_witness :
  (0 < 4)%nat
  /\ issue_command (mkPort ([252; 32] ++ repeat 252 8) []) ReadRange
       [0; 0; 4; 0; 4; 0] true 4 RReadRange
     = Ok ((RReadRange, [252; 252; 252; 252]),
           mkPort [252] [0; 252; 5; 0; 0; 4; 0; 4; 0; 252; 17])
  /\ length [252; 252; 252; 252] = 4%nat.
Proof.
  split; [lia|]. split; [reflexivity|].
  apply (issue_command_response_len (mkPort ([252; 32] ++ repeat 252 8) [])
           ReadRange [0; 0; 4; 0; 4; 0] true 4 RReadRange RReadRange
           [252; 252; 252; 252] (mkPort [252] [0; 252; 5; 0; 0; 4; 0; 4; 0; 252; 17]));
    [lia | reflexivity].
Defined.

(** C9 (code as written): the serial [read] sends the full 8-byte [u64]
    address, so its ReadRange payload has 10 bytes, not 6; for
    [read(0x40000, 8)] the frame written is SYNC, the 10 payload bytes, then
    [ESCAPE_CHAR; ReadRange]. *)
Theorem serial_read_payload_10_bytes :
  (forall address len, length (SerialReadWrite.read_packet address len) = 10%nat)
  /\ SerialReadWrite.read true (mkPort ([252; 32] ++ repeat 0 8) []) 262144 8
     = Ok (repeat 0 8,
           mkPort [] ([0; 252; 5] ++ [0; 0; 4; 0; 0; 0; 0; 0; 8; 0] ++ [252; 17]))
  /\ SerialReadWrite.read_packet 262144 8 <> u32_le (as_u32 262144) ++ u16_le 8.
Proof.
  split; [reflexivity|]. split; [reflexivity|]. discriminate.
Qed.

End SerialProofs.

Module WordProofs.

Lemma from_le_le_bytes (n : nat) (v : Z) :
  from_le (le_bytes n v) = v mod 2 ^ (8 * Z.of_nat n).
Proof.
  revert v. induction n as [|n IH]; intros v.
  - simpl. now rewrite Z.mod_1_r.
  - cbn [le_bytes from_le]. rewrite IH.
    replace (8 * Z.of_nat (S n)) with (8 + 8 * Z.of_nat n) by lia.
    rewrite Z.pow_add_r by lia.
    rewrite Z.rem_mul_r by (try apply Z.pow_pos_nonneg; lia). reflexivity.
Qed.

Lemma length_le_bytes (n : nat) (v : Z) : length (le_bytes n v) = n.
Proof. revert v. induction n; intros v; simpl; auto. Qed.

End WordProofs.

Module PaddingProofs.
Import Padding WordProofs.

(** What [create_padding] builds: the 8-byte prologue, then at offset 8 the
    XOR of the two prologue words, then zeros; there is no flag word. *)
Lemma create_padding_layout (size : Z) :
  12 <= size < 2 ^ 32 ->
  create_padding size
  = u16_le 2 ++ u16_le 16 ++ u32_le size
    ++ u32_le (Z.lxor 1048578 size) ++ repeat 0 (Z.to_nat size - 12).
Proof.
  intros Hs. unfold create_padding.
  assert (Hc : fold_left Z.lxor (map from_le (chunks_exact 4
                 (u16_le 2 ++ u16_le 16 ++ u32_le size))) 0
               = Z.lxor 1048578 size).
  { unfold u32_le. destruct (le_bytes 4 size) as [|a [|b [|c [|d [|e l]]]]] eqn:E;
      try (apply (f_equal (@length Z)) in E; rewrite length_le_bytes in E;
           simpl in E; discriminate).
    assert (Hch : chunks_exact 4 (u16_le 2 ++ u16_le 16 ++ [a; b; c; d])
                  = [[2; 0; 16; 0]; [a; b; c; d]]) by reflexivity.
    rewrite Hch. cbn [map fold_left]. rewrite <- E, from_le_le_bytes.
    rewrite Z.mod_small by (simpl; lia). reflexivity. }
  rewrite Hc. rewrite !length_app. unfold u16_le, u32_le.
  rewrite !length_le_bytes. rewrite <- !app_assoc. reflexivity.
Qed.

(** C3 (code as written): for a gap of 16 bytes the padding binary has the
    checksum [0x00100012] at offset 8 and zero at offset 12, where the spec
    layout has a zero flag word at offset 8 and the checksum at offset 12. *)
Theorem create_padding_16 :
  create_padding 16 = [2; 0; 16; 0; 16; 0; 0; 0; 18; 0; 16; 0; 0; 0; 0; 0]
  /\ spec_padding 16 = [2; 0; 16; 0; 16; 0; 0; 0; 0; 0; 0; 0; 18; 0; 16; 0]
  /\ create_padding 16 <> spec_padding 16.
Proof.
  split; [reflexivity|]. split; [reflexivity|]. vm_compute. discriminate.
Qed.

End PaddingProofs.

Module DisableProofs.
Import DisableApp.

(** C8 (code as written): an enabled app whose 32-byte v2 header (Main TLV,
    [init_fn_offset = 32]) satisfies the XOR invariant; [disable_app] writes
    0 to the flag byte and [c - 1] as checksum, and the XOR of the header
    words becomes 2 instead of 0. *)
Theorem disable_header_breaks_checksum :
  let h := [2; 0; 32; 0; 0; 32; 0; 0; 1; 0; 0; 0; 34; 48; 44; 0;
            1; 0; 12; 0; 32; 0; 0; 0; 0; 0; 0; 0; 0; 16; 0; 0] in
  let h' := [2; 0; 32; 0; 0; 32; 0; 0; 0; 0; 0; 0; 33; 48; 44; 0;
             1; 0; 12; 0; 32; 0; 0; 0; 0; 0; 0; 0; 0; 16; 0; 0] in
  xor_words h = 0 /\ app_enabled h = true /\ app_checksum h = 2895906
  /\ disable_header h = Ok h'
  /\ app_checksum h' = 2895906 - 1
  /\ xor_words h' = 2.
Proof. vm_compute. repeat split; reflexivity. Qed.

End DisableProofs.

(** ** The placement planner *)
Module ReshuffleProofs.
Import Reshuffle ReshuffleSpec.

(** *** Positions assigned by the first pass *)

Lemma flexible_apps_assign_origin apps (pre : list TockApp) :
  Forall (fun c => exists j c', fl_idx c = Some (length pre + j)%nat
                   /\ nth_error apps j = Some (Flexible c') /\ fl_size c' = fl_size c)
    (flexible_apps (assign_from (length pre) apps)).
Proof.
  revert pre; induction apps as [|a t IH]; intros pre; cbn; [constructor|].
  assert (IH' := IH (pre ++ [a])). rewrite length_app in IH'. cbn in IH'.
  replace (length pre + 1)%nat with (S (length pre)) in IH' by lia.
  assert (Hs : Forall (fun c => exists j c', fl_idx c = Some (length pre + j)%nat
              /\ nth_error (a :: t) j = Some (Flexible c') /\ fl_size c' = fl_size c)
              (flexible_apps (assign_from (S (length pre)) t))).
  { eapply Forall_impl; [|exact IH'].
    intros c (j & c' & H1 & H2 & H3). exists (S j), c'.
    rewrite H1. split; [f_equal; lia | auto]. }
  destruct a as [f|f]; cbn; [constructor|exact Hs].
  - exists 0%nat, f. cbn. rewrite Nat.add_0_r. auto.
  - exact Hs.
Qed.

Lemma fixed_apps_assign_origin apps (pre : list TockApp) :
  Forall (fun r => exists j r', fx_idx r = Some (length pre + j)%nat
                   /\ nth_error apps j = Some (Fixed r')
                   /\ compatible_addresses r' = compatible_addresses r
                   /\ fx_size r' = fx_size r)
    (fixed_apps (assign_from (length pre) apps)).
Proof.
  revert pre; induction apps as [|a t IH]; intros pre; cbn; [constructor|].
  assert (IH' := IH (pre ++ [a])). rewrite length_app in IH'. cbn in IH'.
  replace (length pre + 1)%nat with (S (length pre)) in IH' by lia.
  assert (Hs : Forall (fun r => exists j r', fx_idx r = Some (length pre + j)%nat
              /\ nth_error (a :: t) j = Some (Fixed r')
              /\ compatible_addresses r' = compatible_addresses r
              /\ fx_size r' = fx_size r)
              (fixed_apps (assign_from (S (length pre)) t))).
  { eapply Forall_impl; [|exact IH'].
    intros r (j & r' & H1 & H2 & H3). exists (S j), r'.
    rewrite H1. split; [f_equal; lia | auto]. }
  destruct a as [f|f]; cbn; [exact Hs|constructor].
  - exists 0%nat, f. cbn. rewrite Nat.add_0_r. auto.
  - exact Hs.
Qed.

Lemma flexible_apps_origin apps :
  Forall (flex_origin apps) (flexible_apps (assign_from 0 apps)).
Proof.
  generalize (flexible_apps_assign_origin apps []). cbn.
  apply Forall_impl. intros c (j & c' & H). exists j, c'. exact H.
Qed.

Lemma fixed_apps_origin apps :
  Forall (fixed_origin apps) (fixed_apps (assign_from 0 apps)).
Proof.
  generalize (fixed_apps_assign_origin apps []). cbn.
  apply Forall_impl. intros r (j & r' & H). exists j, r'. exact H.
Qed.

Lemma assign_from_ids apps i :
  Permutation (flex_ids (flexible_apps (assign_from i apps))
               ++ fixed_ids (fixed_apps (assign_from i apps)))
              (seq i (length apps)).
Proof.
  revert i; induction apps as [|a t IH]; intros i; cbn; [constructor|].
  destruct a as [f|f]; cbn.
  - constructor. apply IH.
  - unfold flex_ids, fixed_ids in *. cbn.
    rewrite <- Permutation_middle. constructor. apply IH.
Qed.

(** *** The stable sort and the permutations *)

Lemma insert_by_key_perm x l : Permutation (insert_by_key x l) (x :: l).
Proof.
  induction l as [|y t IH]; cbn; [auto|].
  destruct (sort_key x <=? sort_key y); [auto|].
  rewrite IH. apply perm_swap.
Qed.

Lemma sort_by_key_perm l : Permutation (sort_by_key l) l.
Proof.
  induction l as [|x t IH]; cbn; [auto|].
  rewrite insert_by_key_perm. constructor. exact IH.
Qed.

Lemma sort_rust_apps_perm l l' : sort_rust_apps l = Ok l' -> Permutation l' l.
Proof.
  unfold sort_rust_apps. intros H.
  destruct (length l <? 2)%nat; [injection H as <-; auto|].
  destruct (forallb sort_key_ok l); [|discriminate].
  injection H as <-. apply sort_by_key_perm.
Qed.

Lemma select_perm l x r : In (x, r) (select l) -> Permutation l (x :: r).
Proof.
  revert x r; induction l as [|y t IH]; intros x r H; cbn in H; [contradiction|].
  destruct H as [H|H]; [injection H as <- <-; auto|].
  apply in_map_iff in H as ([x' r'] & Hp & Hin). cbn in Hp. injection Hp as <- <-.
  rewrite (IH _ _ Hin). apply perm_swap.
Qed.

Lemma perms_aux_perm fuel l p : In p (perms_aux fuel l) -> Permutation p l.
Proof.
  revert l p; induction fuel as [|f IH]; intros l p H;
    (destruct l as [|y t]; [cbn in H; destruct H as [<-|[]]; auto|]).
  - contradiction.
  - cbn [perms_aux] in H. apply in_flat_map in H as ([x r] & Hs & Hp).
    apply in_map_iff in Hp as (q & <- & Hq). cbn in Hq |- *.
    rewrite (select_perm _ _ _ Hs). constructor. exact (IH _ _ Hq).
Qed.

Lemma perms_aux_nonempty fuel l : (length l <= fuel)%nat -> perms_aux fuel l <> [].
Proof.
  revert l; induction fuel as [|f IH]; intros l Hl;
    (destruct l as [|y t]; [discriminate|]).
  - cbn in Hl. lia.
  - cbn [perms_aux select flat_map fst snd]. cbn in Hl.
    destruct (perms_aux f t) eqn:E; [exfalso; apply (IH t); [lia|exact E]|].
    discriminate.
Qed.

Lemma permutations_perm n p : In p (permutations n) -> Permutation p (seq 0 n).
Proof. apply perms_aux_perm. Qed.

Lemma permutations_nonempty n : firstn 100000 (permutations n) <> [].
Proof.
  unfold permutations. destruct (perms_aux n (seq 0 n)) eqn:E.
  - exfalso. apply (perms_aux_nonempty n (seq 0 n)); [rewrite length_seq; lia|exact E].
  - destruct (100000%nat) eqn:E'; [discriminate|]. discriminate.
Qed.

(** *** Helpers of the placement loop *)

Lemma nth_res_ok {A} (l : list A) n x : nth_res l n = Ok x -> nth_error l n = Some x.
Proof. unfold nth_res. destruct (nth_error l n); congruence. Qed.

Lemma candidate_ok r ci f ram :
  candidate r ci = Ok (f, ram) -> In (Some (f, ram)) (compatible_addresses r).
Proof.
  unfold candidate. destruct (nth_error _ ci) as [[p|]|] eqn:E; try discriminate.
  intros H. injection H as ->. eapply nth_error_In. exact E.
Qed.

Lemma firstn_S_nth_error {A} (l : list A) n x :
  nth_error l n = Some x -> firstn (S n) l = firstn n l ++ [x].
Proof.
  revert n; induction l as [|y t IH]; intros [|n] H; cbn in H |- *; try discriminate.
  - injection H as ->. reflexivity.
  - rewrite <- (IH n H). reflexivity.
Qed.

Lemma zsum_nil : zsum [] = 0.
Proof. reflexivity. Qed.

Lemma zsum_cons x l : zsum (x :: l) = x + zsum l.
Proof. reflexivity. Qed.

Lemma zsum_app l1 l2 : zsum (l1 ++ l2) = zsum l1 + zsum l2.
Proof.
  induction l1 as [|x t IH]; cbn [app]; rewrite ?zsum_cons, ?zsum_nil; [reflexivity|].
  rewrite IH. ring.
Qed.

Lemma chain_app a l1 l2 :
  chain a (l1 ++ l2) <-> chain a l1 /\ chain (a + zsum (map size l1)) l2.
Proof.
  revert a; induction l1 as [|e t IH]; intros a; cbn [app chain map];
    rewrite ?zsum_cons, ?zsum_nil.
  - rewrite Z.add_0_r. tauto.
  - rewrite IH, Z.add_assoc. tauto.
Qed.

Lemma last_opt_app l e : last_opt (l ++ [e]) = Some e.
Proof.
  induction l as [|x t IH]; [reflexivity|]. cbn.
  destruct (t ++ [e]) eqn:E; [destruct t; discriminate|]. exact IH.
Qed.

Lemma last_end_chain settings l x :
  chain (start_address settings) l -> last_end settings l = Ok x ->
  x = start_address settings + zsum (map size l) /\ (l <> [] -> x <= U64_MAX).
Proof.
  intros Hc H. destruct l as [|e0 t] eqn:El.
  - cbn in H. injection H as <-. cbn [map]. rewrite zsum_nil. split; [ring|congruence].
  - rewrite <- El in *. assert (Hne : l <> []) by congruence.
    destruct (exists_last Hne) as (l' & e & ->).
    unfold last_end in H. rewrite last_opt_app in H. unfold add_u64 in H.
    destruct (address e + size e <=? U64_MAX) eqn:Eb; [|discriminate].
    injection H as <-. apply Z.leb_le in Eb.
    apply chain_app in Hc as (_ & He & _).
    rewrite map_app, zsum_app. cbn [map]. rewrite zsum_cons, zsum_nil.
    split; [lia|intros; lia].
Qed.

Lemma zsum_nonneg_chain a l : chain a l -> 0 <= zsum (map size l).
Proof.
  revert a; induction l as [|e t IH]; intros a H; cbn [map];
    rewrite ?zsum_cons, ?zsum_nil; [lia|].
  destruct H as (_ & Hs & Ht). specialize (IH _ Ht). lia.
Qed.

Ltac step_case :=
  match goal with
  | |- bind ?m _ = _ -> _ =>
      let E := fresh "E" in
      destruct m eqn:E; cbn [bind]; try (let Hc := fresh in intros Hc; discriminate Hc)
  end.

(** The effect of placing an app: optional padding at the current end, then
    the app right after it. *)
Lemma place_spec settings c_apps rust_apps order s b ci s' :
  0 <= page_size settings ->
  place settings c_apps rust_apps order s b ci = Ok s' ->
  exists start needed e,
    last_end settings (reordered_apps s) = Ok start /\ 0 <= needed /\
    address e = start + needed /\
    reordered_apps s' = reordered_apps s ++ pad_entry start needed ++ [e] /\
    total_padding s' = total_padding s + needed /\
    ((permutation_index s' = S (permutation_index s) /\ rust_index s' = rust_index s /\
      exists k c, nth_error order (permutation_index s) = Some k
        /\ nth_error c_apps k = Some c /\ e = flexible_as_index c None (address e)
        /\ Z.divide (page_size settings) (address e))
     \/ (permutation_index s' = permutation_index s /\ rust_index s' = S (rust_index s) /\
      exists r ram, nth_error rust_apps (rust_index s) = Some r
        /\ In (Some (address e, ram)) (compatible_addresses r)
        /\ e = fixed_as_index r (Some ram) (address e))).
Proof.
  intros Hpage. unfold place.
  destruct (last_end settings (reordered_apps s)) as [a| |] eqn:Ea; cbn [bind];
    try (intros Hc; discriminate Hc).
  destruct b.
  - (* a Flexible app *)
    match goal with |- bind ?m _ = _ -> _ =>
      destruct m as [needed| |] eqn:En; cbn [bind]; try (intros Hc; discriminate Hc) end.
    assert (Hn : 0 <= needed /\ Z.divide (page_size settings) (a + needed)).
    { destruct (is_multiple_of a (page_size settings)) eqn:Em.
      - injection En as <-. unfold is_multiple_of in Em.
        destruct (page_size settings =? 0) eqn:Ep.
        + apply Z.eqb_eq in Ep, Em. rewrite Ep, Em. split; [lia|]. exists 0. lia.
        + apply Z.eqb_eq in Em. apply Z.eqb_neq in Ep. split; [lia|].
          rewrite Z.add_0_r. apply Z.mod_divide; assumption.
      - unfold rem_u64 in En. destruct (page_size settings =? 0) eqn:Ep;
          cbn [bind] in En; [discriminate|].
        injection En as <-. apply Z.eqb_neq in Ep. split.
        + pose proof (Z.mod_pos_bound a (page_size settings)). lia.
        + exists (a / page_size settings + 1).
          rewrite (Z.div_mod a (page_size settings) Ep) at 1. ring. }
    match goal with |- bind ?m _ = _ -> _ =>
      destruct m as [[[tp apps] st']| |] eqn:Ep; cbn [bind];
      try (intros Hc; discriminate Hc) end.
    assert (Hp : tp = total_padding s + needed
                 /\ apps = reordered_apps s ++ pad_entry a needed /\ st' = a + needed).
    { unfold pad_entry. destruct (0 <? needed) eqn:Ez.
      - unfold add_u64 in Ep.
        destruct (total_padding s + needed <=? U64_MAX); cbn [bind] in Ep; [|discriminate].
        destruct (a + needed <=? U64_MAX); cbn [bind] in Ep; [|discriminate].
        injection Ep as <- <- <-. auto.
      - apply Z.ltb_ge in Ez. injection Ep as <- <- <-.
        assert (needed = 0) by lia. subst needed.
        rewrite !Z.add_0_r, app_nil_r. auto. }
    match goal with |- bind ?m _ = _ -> _ =>
      destruct m as [k| |] eqn:Ek; cbn [bind]; try (intros Hc; discriminate Hc) end.
    match goal with |- bind ?m _ = _ -> _ =>
      destruct m as [c| |] eqn:Ec; cbn [bind]; try (intros Hc; discriminate Hc) end.
    cbn [idx flexible_as_index]. destruct (fl_idx c) eqn:Ei; [|intros Hc; discriminate Hc].
    intros H. injection H as <-. destruct Hp as (-> & -> & ->).
    exists a, needed, (flexible_as_index c None (a + needed)).
    cbn [reordered_apps total_padding permutation_index rust_index address
         flexible_as_index].
    rewrite <- app_assoc.
    repeat split; try reflexivity; try apply Hn.
    left. repeat split. exists k, c.
    repeat split; try apply nth_res_ok; auto. apply Hn.
  - (* a Fixed app *)
    match goal with |- bind ?m _ = _ -> _ =>
      destruct m as [needed| |] eqn:En; cbn [bind]; try (intros Hc; discriminate Hc) end.
    destruct (nth_res rust_apps (rust_index s)) as [r| |] eqn:Er; cbn [bind] in En |- *;
      try discriminate.
    destruct (candidate r ci) as [[f ram]| |] eqn:Ecand; cbn [bind] in En |- *;
      try discriminate.
    unfold sub_u64 in En. destruct (a <=? f) eqn:Eaf; [|discriminate].
    injection En as <-. apply Z.leb_le in Eaf.
    match goal with |- bind ?m _ = _ -> _ =>
      destruct m as [[[tp apps] st']| |] eqn:Ep; cbn [bind];
      try (intros Hc; discriminate Hc) end.
    assert (Hp : tp = total_padding s + (f - a)
                 /\ apps = reordered_apps s ++ pad_entry a (f - a)).
    { unfold pad_entry. destruct (0 <? f - a) eqn:Ez.
      - unfold add_u64 in Ep.
        destruct (total_padding s + (f - a) <=? U64_MAX); cbn [bind] in Ep; [|discriminate].
        destruct (a + (f - a) <=? U64_MAX); cbn [bind] in Ep; [|discriminate].
        injection Ep as <- <- <-. auto.
      - apply Z.ltb_ge in Ez. injection Ep as <- <- <-.
        rewrite app_nil_r. split; [lia|auto]. }
    cbn [idx fixed_as_index]. destruct (fx_idx r) eqn:Ei; [|intros Hc; discriminate Hc].
    intros H. injection H as <-. destruct Hp as (-> & ->).
    exists a, (f - a), (fixed_as_index r (Some ram) f).
    cbn [reordered_apps total_padding permutation_index rust_index address
         fixed_as_index].
    rewrite <- app_assoc.
    repeat split; try reflexivity; try lia.
    right. repeat split. exists r, ram.
    repeat split; try apply nth_res_ok; auto. exact (candidate_ok _ _ _ _ Ecand).
Qed.

Lemma step_some settings c_apps rust_apps order s s' :
  step settings c_apps rust_apps order s = Ok (Some s') ->
  exists b ci, place settings c_apps rust_apps order s b ci = Ok s'.
Proof.
  unfold step.
  destruct (last_end settings (reordered_apps s)) as [a| |]; cbn [bind];
    try discriminate.
  destruct (insert_decision c_apps rust_apps order s a) as [[[b ci]|]| |];
    cbn [bind]; try discriminate.
  destruct (place settings c_apps rust_apps order s b ci) as [p| |] eqn:Ep;
    cbn [bind]; try discriminate.
  intros H. injection H as <-. eauto.
Qed.

(** The iteration that ends the loop: both queues are exhausted. *)
Lemma step_none settings c_apps rust_apps order s :
  step settings c_apps rust_apps order s = Ok None ->
  nth_error order (permutation_index s) = None
  /\ nth_error rust_apps (rust_index s) = None
  /\ exists x, last_end settings (reordered_apps s) = Ok x.
Proof.
  unfold step.
  destruct (last_end settings (reordered_apps s)) as [a| |] eqn:Ea; cbn [bind];
    try discriminate.
  destruct (insert_decision c_apps rust_apps order s a) as [[[b ci]|]| |] eqn:Ed;
    cbn [bind]; try discriminate.
  - destruct (place settings c_apps rust_apps order s b ci); cbn [bind]; discriminate.
  - intros _. unfold insert_decision in Ed.
    destruct (nth_error order (permutation_index s)) eqn:E1;
    destruct (nth_error rust_apps (rust_index s)) eqn:E2; eauto;
    try discriminate.
    + destruct (find_compatible _ _ _); cbn [bind] in Ed; try discriminate.
      destruct (nth_res c_apps n); cbn [bind] in Ed; try discriminate.
      destruct (candidate _ _) as [[f0 ram]| |]; cbn [bind] in Ed; try discriminate.
      destruct (sub_u64 _ _); cbn [bind] in Ed; discriminate.
    + destruct (find_compatible _ _ _); cbn [bind] in Ed; discriminate.
Qed.

(** *** The loop invariant *)

Lemma pad_entry_facts settings apps a n :
  0 <= n ->
  chain a (pad_entry a n) /\ zsum (map size (pad_entry a n)) = n
  /\ pad_sum (pad_entry a n) = n /\ placed_indices (pad_entry a n) = []
  /\ Forall (entry_spec settings apps) (pad_entry a n).
Proof.
  intros Hn. unfold pad_entry, pad_sum. destruct (0 <? n) eqn:E.
  - apply Z.ltb_lt in E. cbn. rewrite !zsum_cons, !zsum_nil.
    repeat split; try lia. repeat constructor; cbn; lia.
  - apply Z.ltb_ge in E. assert (n = 0) by lia. subst. cbn.
    repeat split; constructor.
Qed.

Lemma pad_sum_app l1 l2 : pad_sum (l1 ++ l2) = pad_sum l1 + pad_sum l2.
Proof. unfold pad_sum. rewrite filter_app, map_app, zsum_app. reflexivity. Qed.

Lemma placed_indices_app l1 l2 :
  placed_indices (l1 ++ l2) = placed_indices l1 ++ placed_indices l2.
Proof. apply flat_map_app. Qed.

(** Appending padding and an app entry after the current end *)
Lemma extend_facts settings apps l a start needed e :
  chain a l -> start = a + zsum (map size l) -> 0 <= needed ->
  address e = start + needed -> 0 < size e -> entry_spec settings apps e ->
  is_padding e = false ->
  chain a (l ++ pad_entry start needed ++ [e])
  /\ Forall (entry_spec settings apps) (pad_entry start needed ++ [e])
  /\ pad_sum (l ++ pad_entry start needed ++ [e]) = pad_sum l + needed
  /\ zsum (map size (l ++ pad_entry start needed ++ [e]))
     = zsum (map size l) + needed + size e
  /\ placed_indices (l ++ pad_entry start needed ++ [e])
     = placed_indices l ++ opt_list (idx e).
Proof.
  intros Hc Hs Hn Hae Hse Hspec Hpad.
  destruct (pad_entry_facts settings apps start needed Hn)
    as (Hpc & Hpz & Hps & Hpi & Hpf).
  rewrite !app_assoc. repeat split.
  - apply chain_app. split; [apply chain_app; split; [exact Hc|subst; exact Hpc]|].
    rewrite map_app, zsum_app, Hpz. cbn. rewrite Hae, Hs. split; [ring|].
    split; [exact Hse|exact I].
  - apply Forall_app. split; [exact Hpf|constructor; [exact Hspec|constructor]].
  - assert (He0 : pad_sum [e] = 0)
      by (unfold pad_sum; cbn [filter]; rewrite Hpad; reflexivity).
    rewrite !pad_sum_app, Hps, He0. ring.
  - rewrite !map_app, !zsum_app, Hpz. cbn [map]. rewrite zsum_cons, zsum_nil. ring.
  - rewrite !placed_indices_app, Hpi, app_nil_r. cbn. rewrite app_nil_r. reflexivity.
Qed.

Section LoopInvariant.
Variable settings : BoardSettings.
Variable apps : list TockApp.
Variable c_apps : list FlexibleApp.
Variable rust_apps : list FixedApp.
Variable order : list nat.
Hypothesis Hc : Forall (flex_origin apps) c_apps.
Hypothesis Hr : Forall (fixed_origin apps) rust_apps.
Hypothesis Hpos : Forall (fun a => 0 < app_size a) apps.
Hypothesis Hpage : 0 <= page_size settings.

Lemma app_size_pos i a : nth_error apps i = Some a -> 0 < app_size a.
Proof.
  intros H. rewrite Forall_forall in Hpos. apply Hpos. eapply nth_error_In. exact H.
Qed.

Lemma place_inv s b ci s' :
  loop_inv settings apps c_apps rust_apps order s ->
  place settings c_apps rust_apps order s b ci = Ok s' ->
  loop_inv settings apps c_apps rust_apps order s'.
Proof.
  intros (Hch & Hent & Hperm & Htp & Htp2) Hp.
  destruct (place_spec _ _ _ _ _ _ _ _ Hpage Hp)
    as (start & needed & e & Ea & Hn & Hae & Hl & Ht & Hcase).
  destruct (last_end_chain _ _ _ Hch Ea) as (Hstart & _).
  pose proof (zsum_nonneg_chain _ _ Hch) as Hz.
  assert (Hmain : forall i, idx e = Some i -> 0 < size e -> entry_spec settings apps e ->
            Permutation (placed_indices (reordered_apps s) ++ [i])
              (flex_ids (flat_map (fun k => opt_list (nth_error c_apps k))
                           (firstn (permutation_index s') order))
               ++ fixed_ids (firstn (rust_index s') rust_apps)) ->
            loop_inv settings apps c_apps rust_apps order s').
  { intros i Hi Hse Hspec Hperm'.
    destruct (extend_facts settings apps (reordered_apps s) (start_address settings)
                start needed e Hch Hstart Hn Hae Hse Hspec)
      as (Hc' & Hf' & Hps' & Hz' & Hpi'); [unfold is_padding; rewrite Hi; reflexivity|].
    unfold loop_inv. rewrite Hl, Ht. repeat split.
    - exact Hc'.
    - apply Forall_app. split; [exact Hent|exact Hf'].
    - rewrite Hpi', Hi. exact Hperm'.
    - rewrite Hps', Htp. reflexivity.
    - right. rewrite Hz'. destruct Htp2; lia. }
  destruct Hcase as [(Hpi & Hri & k & c & Ek & Ec & He & Hdiv)
                    |(Hpi & Hri & r & ram & Er & Hin & He)].
  - rewrite Forall_forall in Hc.
    destruct (Hc c (nth_error_In _ _ Ec)) as (i & c' & Hi & Hai & Hsz).
    assert (Hidx : idx e = Some i) by (rewrite He; exact Hi).
    assert (Hsize : size e = fl_size c) by (rewrite He; reflexivity).
    apply (Hmain i Hidx).
    + rewrite Hsize, <- Hsz. exact (app_size_pos _ _ Hai).
    + unfold entry_spec. rewrite Hidx. exists (Flexible c'). split; [exact Hai|].
      rewrite He at 1. cbn. repeat split; [lia|]. exact Hdiv.
    + rewrite Hpi, Hri, (firstn_S_nth_error _ _ _ Ek), flat_map_app. cbn.
      rewrite Ec. cbn. unfold flex_ids. rewrite flat_map_app. cbn. rewrite Hi.
      cbn. fold (flex_ids (flat_map (fun k0 => opt_list (nth_error c_apps k0))
                   (firstn (permutation_index s) order))).
      rewrite Hperm, <- !app_assoc. apply Permutation_app_head.
      apply Permutation_app_comm.
  - rewrite Forall_forall in Hr.
    destruct (Hr r (nth_error_In _ _ Er)) as (i & r' & Hi & Hai & Hca & Hsz).
    assert (Hidx : idx e = Some i) by (rewrite He; exact Hi).
    assert (Hsize : size e = fx_size r) by (rewrite He; reflexivity).
    apply (Hmain i Hidx).
    + rewrite Hsize, <- Hsz. exact (app_size_pos _ _ Hai).
    + unfold entry_spec. rewrite Hidx. exists (Fixed r'). split; [exact Hai|].
      repeat split; [rewrite He; reflexivity|lia|]. exists ram. rewrite Hca. exact Hin.
    + rewrite Hpi, Hri, (firstn_S_nth_error _ _ _ Er). unfold fixed_ids.
      rewrite flat_map_app. cbn. rewrite Hi. cbn.
      fold (fixed_ids (firstn (rust_index s) rust_apps)).
      rewrite Hperm, <- !app_assoc. apply Permutation_refl.
Qed.

Lemma run_loop_inv fuel s s' :
  loop_inv settings apps c_apps rust_apps order s ->
  run_loop settings c_apps rust_apps order fuel s = Ok s' ->
  loop_inv settings apps c_apps rust_apps order s'
  /\ nth_error order (permutation_index s') = None
  /\ nth_error rust_apps (rust_index s') = None
  /\ exists x, last_end settings (reordered_apps s') = Ok x.
Proof.
  revert s; induction fuel as [|f IH]; intros s Hs H; cbn [run_loop] in H;
    [discriminate|].
  destruct (step settings c_apps rust_apps order s) as [[s1|]| |] eqn:E;
    cbn [bind] in H; try discriminate.
  - destruct (step_some _ _ _ _ _ _ E) as (b & ci & Hp).
    exact (IH s1 (place_inv _ _ _ _ Hs Hp) H).
  - injection H as <-. split; [exact Hs|]. exact (step_none _ _ _ _ _ E).
Qed.

End LoopInvariant.

(** *** From the loop to the planner *)

Lemma map_nth_error_seq {A B} (f : option A -> B) (l pre : list A) :
  map (fun i => f (nth_error (pre ++ l) i)) (seq (length pre) (length l))
  = map (fun x => f (Some x)) l.
Proof.
  revert pre; induction l as [|x t IH]; intros pre; [reflexivity|].
  cbn [length seq map]. rewrite nth_error_app2, Nat.sub_diag by lia. cbn.
  f_equal. specialize (IH (pre ++ [x])). rewrite <- app_assoc, length_app in IH.
  cbn in IH. rewrite Nat.add_1_r in IH. exact IH.
Qed.

Lemma flat_map_nth_error_seq {A} (l : list A) :
  flat_map (fun k => opt_list (nth_error l k)) (seq 0 (length l)) = l.
Proof.
  rewrite flat_map_concat_map.
  pose proof (map_nth_error_seq (@opt_list A) l []) as Hm. cbn in Hm.
  rewrite Hm. clear Hm.
  induction l as [|x t IH]; [reflexivity|]. cbn. f_equal. exact IH.
Qed.

Lemma zsum_perm l1 l2 : Permutation l1 l2 -> zsum l1 = zsum l2.
Proof.
  induction 1; rewrite ?zsum_cons; try lia.
Qed.

Lemma size_split settings apps l :
  Forall (entry_spec settings apps) l ->
  zsum (map size l) = pad_sum l
    + zsum (map (fun i => match nth_error apps i with
                          | Some a => app_size a | None => 0 end)
              (placed_indices l)).
Proof.
  induction 1 as [|e t He Ht IH]; [reflexivity|].
  unfold pad_sum in *. cbn [map filter]. unfold placed_indices in *.
  cbn [flat_map]. rewrite map_app, zsum_app, zsum_cons, IH.
  unfold entry_spec, is_padding in *. destruct (idx e) as [i|].
  - destruct He as (a & Ha & Hs). cbn. rewrite Ha, zsum_cons, zsum_nil.
    destruct a; destruct Hs as (_ & -> & _); cbn [app_size]; ring.
  - cbn [map opt_list]. rewrite zsum_cons, zsum_nil. ring.
Qed.

Lemma chain_lower a l : chain a l -> Forall (fun x => a <= x) (map address l).
Proof.
  revert a; induction l as [|e t IH]; intros a H; cbn [map]; [constructor|].
  destruct H as (He & Hs & Ht). constructor; [lia|].
  eapply Forall_impl; [|exact (IH _ Ht)]. cbn. intros; lia.
Qed.

Lemma chain_sorted a l : chain a l -> StronglySorted Z.lt (map address l).
Proof.
  revert a; induction l as [|e t IH]; intros a H; cbn [map]; [constructor|].
  destruct H as (He & Hs & Ht). constructor; [exact (IH _ Ht)|].
  eapply Forall_impl; [|exact (chain_lower _ _ Ht)]. cbn. intros; lia.
Qed.

Lemma run_permutation_ok settings apps rust order tp P :
  0 <= start_address settings -> 0 <= page_size settings ->
  Forall (fun a => 0 < app_size a) apps ->
  Permutation rust (fixed_apps (assign_from 0 apps)) ->
  Permutation order (seq 0 (length (flexible_apps (assign_from 0 apps)))) ->
  run_permutation settings (flexible_apps (assign_from 0 apps)) rust order = Ok (tp, P) ->
  layout_ok settings apps P /\ tp < USIZE_MAX.
Proof.
  intros Hst Hpage Hpos Hrp Hop H. unfold run_permutation in H.
  set (c := flexible_apps (assign_from 0 apps)) in *.
  destruct (run_loop _ _ _ _ _ _) as [s| |] eqn:E; cbn [bind] in H; try discriminate.
  injection H as <- <-.
  assert (Hr : Forall (fixed_origin apps) rust).
  { rewrite Forall_forall. intros r Hin.
    generalize (fixed_apps_origin apps). rewrite Forall_forall. intros Ho.
    apply Ho. eapply Permutation_in; [exact Hrp|exact Hin]. }
  assert (H0 : loop_inv settings apps c rust order (mkPState 0 0 0 0 [])).
  { unfold loop_inv. cbn. split; [exact I|]. split; [constructor|].
    split; [constructor|]. split; [reflexivity|left; reflexivity]. }
  destruct (run_loop_inv settings apps c rust order (flexible_apps_origin apps) Hr Hpos
              Hpage _ _ _ H0 E) as ((Hch & Hent & Hperm & Htp & Htp2) & Ho & Hru & x & Hx).
  apply nth_error_None in Ho, Hru.
  rewrite (firstn_all2 _ Ho), (firstn_all2 _ Hru) in Hperm.
  assert (Hidx : Permutation (placed_indices (reordered_apps s))
                   (seq 0 (length apps))).
  { rewrite Hperm. unfold flex_ids. rewrite Hop.
    fold c. rewrite flat_map_nth_error_seq. unfold fixed_ids. rewrite Hrp.
    apply assign_from_ids. }
  split; [repeat split|].
  - exact (chain_sorted _ _ Hch).
  - exact Hent.
  - exact Hidx.
  - exact Hch.
  - pose proof (map_nth_error_seq
                  (fun o => match o with Some a => app_size a | None => 0 end)
                  apps []) as Hm.
    cbn in Hm. rewrite (size_split _ _ _ Hent).
    rewrite (zsum_perm _ _ (Permutation_map _ Hidx)), Hm, Z.add_comm. reflexivity.
  - destruct (last_end_chain _ _ _ Hch Hx) as (Hxe & Hxb).
    unfold USIZE_MAX. destruct (reordered_apps s) as [|e0 t] eqn:Es.
    + rewrite Htp. reflexivity.
    + assert (x <= U64_MAX) by (apply Hxb; discriminate). unfold U64_MAX in *.
      destruct Htp2; lia.
Qed.

Lemma search_ok settings apps c rust ps minp saved P :
  (forall o tp Q, In o ps -> run_permutation settings c rust o = Ok (tp, Q) ->
                  layout_ok settings apps Q /\ tp < USIZE_MAX) ->
  layout_ok settings apps saved \/ (minp = USIZE_MAX /\ ps <> []) ->
  search settings c rust ps minp saved = Ok P -> layout_ok settings apps P.
Proof.
  revert minp saved; induction ps as [|o rest IH]; intros minp saved Hall Hs H;
    cbn [search] in H.
  - injection H as <-. destruct Hs as [Hs|(_ & Hs)]; [exact Hs|congruence].
  - destruct (run_permutation settings c rust o) as [[tp Q]| |] eqn:E;
      cbn [bind] in H; try discriminate.
    destruct (Hall o tp Q (or_introl eq_refl) E) as (HQ & Htp).
    assert (Hall' : forall o tp Q, In o rest ->
              run_permutation settings c rust o = Ok (tp, Q) ->
              layout_ok settings apps Q /\ tp < USIZE_MAX)
      by (intros; eapply Hall; [right|]; eauto).
    destruct (tp <? minp) eqn:Elt.
    + destruct (tp =? 0); [injection H as <-; exact HQ|].
      exact (IH _ _ Hall' (or_introl HQ) H).
    + apply Z.ltb_ge in Elt. destruct Hs as [Hs|(-> & _)]; [|lia].
      exact (IH _ _ Hall' (or_introl Hs) H).
Qed.

Lemma in_firstn {A} n (l : list A) x : In x (firstn n l) -> In x l.
Proof. intros H. rewrite <- (firstn_skipn n l). apply in_or_app. left. exact H. Qed.

Lemma fixed_apps_assign_compat i apps :
  map compatible_addresses (fixed_apps (assign_from i apps))
  = map compatible_addresses (fixed_apps apps).
Proof.
  revert i; induction apps as [|a t IH]; intros i; [reflexivity|].
  destruct a; cbn; [apply IH|f_equal; apply IH].
Qed.

(** C2: a configuration returned by the planner lists the input apps and
    padding back to back from [start_address], at strictly increasing
    addresses; each Flexible app sits at a multiple of [page_size], each Fixed
    app at one of its candidate flash addresses, and the bytes covered are the
    input sizes plus the padding.  Settings are [u64] values and every app is
    non-empty (a TBF's [total_size] is at least its header length). *)
Theorem reshuffle_apps_layout settings apps P :
  0 <= start_address settings -> 0 <= page_size settings ->
  Forall (fun a => 0 < app_size a) apps ->
  reshuffle_apps settings apps = Ok (Some P) ->
  StronglySorted Z.lt (map address P)
  /\ Forall (entry_spec settings apps) P
  /\ Permutation (placed_indices P) (seq 0 (length apps))
  /\ chain (start_address settings) P
  /\ zsum (map size P) = zsum (map app_size apps) + pad_sum P.
Proof.
  intros Hst Hpg Hpos H. unfold reshuffle_apps in H.
  destruct (sort_rust_apps _) as [rust| |] eqn:Es; cbn [bind] in H; try discriminate.
  destruct (existsb _ rust); [discriminate|].
  destruct (search _ _ _ _ _ _) as [P'| |] eqn:Ese; cbn [bind] in H; try discriminate.
  injection H as <-.
  refine (search_ok settings apps _ _ _ _ _ _ _ _ Ese).
  - intros o tp Q Hin HQ.
    apply (run_permutation_ok settings apps rust o tp Q Hst Hpg Hpos); [| |exact HQ].
    + apply sort_rust_apps_perm. exact Es.
    + apply permutations_perm. exact (in_firstn _ _ _ Hin).
  - right. split; [reflexivity|apply permutations_nonempty].
Qed.

(** X16: the planner reports [None] exactly when the input holds a single
    Fixed app and it has no candidate addresses. *)
Theorem reshuffle_apps_none_iff settings apps :
  reshuffle_apps settings apps = Ok None
  <-> exists r, fixed_apps apps = [r] /\ compatible_addresses r = [].
Proof.
  pose proof (fixed_apps_assign_compat 0 apps) as Hc.
  unfold reshuffle_apps. split.
  - destruct (sort_rust_apps _) as [rust| |] eqn:Es; cbn [bind]; try discriminate.
    destruct (existsb _ rust) eqn:Ex;
      [|destruct (search _ _ _ _ _ _); cbn [bind]; discriminate].
    intros _. apply existsb_exists in Ex as (r & Hr & Hcr).
    destruct (compatible_addresses r) eqn:Ecr; [|discriminate].
    unfold sort_rust_apps in Es.
    destruct (length (fixed_apps (assign_from 0 apps)) <? 2)%nat eqn:El.
    + injection Es as <-. apply Nat.ltb_lt in El.
      destruct (fixed_apps (assign_from 0 apps)) as [|r0 [|r1 t]] eqn:Ef;
        cbn in El; [contradiction|..|lia].
      destruct Hr as [<-|[]].
      destruct (fixed_apps apps) as [|r2 [|r3 t]] eqn:Ea; cbn in Hc;
        try discriminate.
      injection Hc as Hc. exists r2. split; [reflexivity|congruence].
    + destruct (forallb sort_key_ok _) eqn:Ef; [|discriminate].
      injection Es as <-. rewrite forallb_forall in Ef.
      assert (Hk := Ef r (Permutation_in _ (sort_by_key_perm _) Hr)).
      unfold sort_key_ok in Hk. rewrite Ecr in Hk. discriminate.
  - intros (r & Ha & Hr). rewrite Ha in Hc.
    destruct (fixed_apps (assign_from 0 apps)) as [|r0 [|r1 t]] eqn:Ef;
      cbn in Hc; try discriminate.
    injection Hc as Hc. unfold sort_rust_apps.
    cbn [bind length Nat.ltb Nat.leb existsb]. rewrite Hc, Hr. reflexivity.
Qed.

Lemma reshuffle_apps_layout_witness :
  let settings := mkSettings None 262144 512 in
  let apps := [Flexible (mkFlexible true None 1000);
               Fixed (mkFixed true None [Some (264192, 536870912);
                                         Some (266240, 536870912)] 2048);
               Flexible (mkFlexible true None 500)] in
  let P := [mkIndex true (Some 0%nat) false None 262144 1000;
            mkIndex false None false None 263144 24;
            mkIndex true (Some 2%nat) false None 263168 500;
            mkIndex false None false None 263668 524;
            mkIndex true (Some 1%nat) true (Some 536870912) 264192 2048] in
  reshuffle_apps settings apps = Ok (Some P)
  /\ StronglySorted Z.lt (map address P)
  /\ Forall (entry_spec settings apps) P
  /\ Permutation (placed_indices P) (seq 0 (length apps))
  /\ chain (start_address settings) P
  /\ zsum (map size P) = zsum (map app_size apps) + pad_sum P.
Proof.
  intros settings apps P.
  assert (H : reshuffle_apps settings apps = Ok (Some P)) by (vm_compute; reflexivity).
  split; [exact H|].
  apply (reshuffle_apps_layout settings apps P).
  - cbn. lia.
  - cbn. lia.
  - repeat constructor; cbn; lia.
  - exact H.
Defined.

(** C7: with two or more Fixed apps, one of which has no candidate
    addresses, the planner panics in the sort key
    [compatible_addresses[0].unwrap()] before its emptiness check can return
    [None]. *)
Theorem reshuffle_apps_no_candidates_panics settings apps r :
  In r (fixed_apps apps) -> compatible_addresses r = [] ->
  (2 <= length (fixed_apps apps))%nat ->
  reshuffle_apps settings apps = Panic.
Proof.
  intros Hr Hc Hl.
  pose proof (fixed_apps_assign_compat 0 apps) as Hm.
  assert (Hlen : length (fixed_apps (assign_from 0 apps)) = length (fixed_apps apps)).
  { rewrite <- (length_map compatible_addresses (fixed_apps (assign_from 0 apps))), Hm.
    apply length_map. }
  assert (Hin : In [] (map compatible_addresses (fixed_apps (assign_from 0 apps)))).
  { rewrite Hm. apply in_map_iff. exists r. split; assumption. }
  apply in_map_iff in Hin as (r' & Hr' & Hin).
  unfold reshuffle_apps, sort_rust_apps. cbv zeta.
  rewrite (proj2 (Nat.ltb_ge _ _)) by lia.
  destruct (forallb sort_key_ok _) eqn:Ef; [|reflexivity].
  rewrite forallb_forall in Ef. specialize (Ef r' Hin).
  unfold sort_key_ok in Ef. rewrite Hr' in Ef. discriminate.
Qed.

Lemma reshuffle_apps_no_candidates_panics_witness :
  let settings := mkSettings None 262144 512 in
  let r := mkFixed true None [] 2048 in
  let apps := [Fixed r; Fixed (mkFixed true None [Some (300000, 0)] 2048)] in
  (In r (fixed_apps apps) /\ compatible_addresses r = []
   /\ (2 <= length (fixed_apps apps))%nat)
  /\ reshuffle_apps settings apps = Panic.
Proof.
  intros settings r apps.
  assert (H1 : In r (fixed_apps apps)) by (left; reflexivity).
  assert (H2 : compatible_addresses r = []) by reflexivity.
  assert (H3 : (2 <= length (fixed_apps apps))%nat) by (cbn; lia).
  split; [split; [exact H1 | split; [exact H2 | exact H3]] |].
  exact (reshuffle_apps_no_candidates_panics settings apps r H1 H2 H3).
Defined.

(** Two inputs on which the planner panics: a Fixed app whose only candidate
    lies below [start_address] (no feasible layout), and two Fixed apps of
    which one has no candidates (the sort key panics before the check). *)
Lemma reshuffle_apps_panic_inputs :
  reshuffle_apps (mkSettings None 262144 512)
    [Fixed (mkFixed true None [Some (0, 0)] 2048)] = Panic
  /\ reshuffle_apps (mkSettings None 262144 512)
       [Fixed (mkFixed true None [] 2048);
        Fixed (mkFixed true None [Some (300000, 0)] 2048)] = Panic.
Proof. split; vm_compute; reflexivity. Qed.
End ReshuffleProofs.

(** ** System attributes *)
Module AttributeProofs.
Import Attributes.

Lemma slot_loop_skip k l r :
  Forall (fun p => fst p = k -> decode_attribute (snd p) = Ok None) l ->
  slot_loop l r = slot_loop (filter (fun p => negb (Nat.eqb (fst p) k)) l) r.
Proof.
  revert r; induction l as [|[i d] t IH]; intros r Hl; [reflexivity|].
  inversion Hl as [|? ? Hp Ht]; subst. cbn [fst snd] in Hp. cbn [filter fst].
  destruct (Nat.eqb i k) eqn:E; cbn [negb slot_loop].
  - apply Nat.eqb_eq in E. rewrite (Hp E). cbn [bind]. apply IH. exact Ht.
  - destruct (decode_attribute d) as [[a|]| |]; cbn [bind]; try reflexivity.
    + destruct (assign_slot i a r); cbn [bind]; try reflexivity. apply IH. exact Ht.
    + apply IH. exact Ht.
Qed.

Lemma chunks_aux_64 n l fuel :
  length l = (64 * n)%nat -> (n <= fuel)%nat ->
  Forall (fun c => length c = 64%nat) (chunks_aux fuel 64 l)
  /\ length (chunks_aux fuel 64 l) = n.
Proof.
  revert l fuel; induction n as [|n IH]; intros l fuel Hl Hf.
  - destruct l; [|discriminate]. destruct fuel; split; constructor.
  - destruct fuel as [|f]; [lia|]. destruct l as [|x t]; [discriminate|].
    cbn [chunks_aux].
    destruct (IH (skipn 64 (x :: t)) f) as (H1 & H2);
      [rewrite length_skipn; lia|lia|].
    split; [constructor; [rewrite length_firstn; lia|exact H1]|cbn [length]; lia].
Qed.

Lemma in_combine_seq {A} (l : list A) s i d :
  In (i, d) (combine (seq s (length l)) l) -> (s <= i)%nat /\ nth_error l (i - s) = Some d.
Proof.
  revert s; induction l as [|x t IH]; intros s H; cbn in H; [contradiction|].
  destruct H as [H|H].
  - injection H as <- <-. rewrite Nat.sub_diag. auto.
  - destruct (IH _ H) as (Hs & Hn). split; [lia|].
    replace (i - s)%nat with (S (i - S s)) by lia. exact Hn.
Qed.

Lemma decode_attribute_invalid_vlen slot :
  length slot = 64%nat -> utf8_decode (firstn 8 slot) <> None ->
  (nth 8 slot 0 = 0 \/ 55 < nth 8 slot 0) ->
  decode_attribute slot = Ok None.
Proof.
  intros Hl Hk Hv. unfold decode_attribute, slice_res.
  rewrite Hl. cbn [Nat.add Nat.leb]. cbn [bind].
  unfold slice, decode_expect. cbn [skipn].
  destruct (utf8_decode (firstn 8 slot)) as [k|]; [|contradiction]. cbn [bind].
  rewrite (nth_error_nth' slot 0) by lia. cbn [bind].
  destruct Hv as [-> | Hv]; [reflexivity|].
  apply Z.ltb_lt in Hv. rewrite Hv. reflexivity.
Qed.

(** X18: a 64-byte slot whose key bytes are valid UTF-8 and whose length
    byte at offset 8 is 0 or above 55 decodes to [None], and the attribute
    reader gives the same result as on the other fifteen slots alone, each
    still at its own position. *)
Theorem read_attribute_slots_skip buf k :
  length buf = 1024%nat -> (k < 16)%nat ->
  utf8_decode (firstn 8 (nth k (chunks 64 buf) [])) <> None ->
  (nth 8 (nth k (chunks 64 buf) []) 0 = 0 \/ 55 < nth 8 (nth k (chunks 64 buf) []) 0) ->
  decode_attribute (nth k (chunks 64 buf) []) = Ok None
  /\ read_attribute_slots buf
     = slot_loop (filter (fun p => negb (Nat.eqb (fst p) k))
                    (combine (seq 0 16) (chunks 64 buf))) new_attributes.
Proof.
  intros Hl Hk Hkey Hv.
  destruct (chunks_aux_64 16 buf (length buf)) as (Hc & Hn); [lia|lia|].
  fold (chunks 64 buf) in Hc, Hn.
  assert (Hslot : decode_attribute (nth k (chunks 64 buf) []) = Ok None).
  { apply decode_attribute_invalid_vlen; [|exact Hkey|exact Hv].
    rewrite Forall_forall in Hc. apply Hc. apply nth_In. lia. }
  split; [exact Hslot|].
  unfold read_attribute_slots. set (cs := chunks 64 buf) in *.
  rewrite Hn. apply slot_loop_skip.
  rewrite Forall_forall. intros [i d] Hin Hi. cbn in Hi |- *. subst i.
  rewrite <- Hn in Hin. destruct (in_combine_seq _ _ _ _ Hin) as (_ & Hd).
  rewrite Nat.sub_0_r in Hd. apply nth_error_nth with (d := []) in Hd.
  rewrite <- Hd. exact Hslot.
Qed.

Lemma read_attribute_slots_skip_witness :
  let slot (k v : list Z) :=
    k ++ repeat 0 (8 - length k) ++ [Z.of_nat (length v)] ++ v
      ++ repeat 0 (55 - length v) in
  let buf := slot [98; 111; 97; 114; 100] [110; 114; 102]
             ++ slot [97; 114; 99; 104] []
             ++ slot [97; 112; 112; 97; 100; 100; 114] [48; 120; 52; 48; 48; 48; 48]
             ++ concat (repeat (slot [] []) 13) in
  length buf = 1024%nat /\ (1 < 16)%nat
  /\ decode_attribute (nth 1 (chunks 64 buf) []) = Ok None
  /\ read_attribute_slots buf
     = slot_loop (filter (fun p => negb (Nat.eqb (fst p) 1))
                    (combine (seq 0 16) (chunks 64 buf))) new_attributes.
Proof.
  intros slot buf.
  assert (Hl : length buf = 1024%nat) by (vm_compute; reflexivity).
  split; [exact Hl|]. split; [lia|].
  apply (read_attribute_slots_skip buf 1 Hl).
  - lia.
  - vm_compute. discriminate.
  - left. vm_compute. reflexivity.
Defined.

(** An erased slot (all 0xFF) panics in the key decoding, before its length
    byte 255 is looked at; so does the reader on an erased region. *)
Lemma decode_attribute_erased_slot :
  nth 8 (repeat 255 64) 0 = 255
  /\ decode_attribute (repeat 255 64) = Panic
  /\ read_attribute_slots (repeat 255 1024) = Panic.
Proof. repeat split; vm_compute; reflexivity. Qed.

End AttributeProofs.

(** * The flash phase of the serial [install_app] *)
Module SerialInstallProofs.
Import BootloaderSerial SerialInstall.

Lemma pad_binary_facts (b : list Z) :
  exists k, pad_binary b = b ++ repeat 255 k /\ (k < 512)%nat
            /\ (length (pad_binary b) mod 512 = 0)%nat
            /\ (length b <= 255 * 512 -> length (pad_binary b) <= 255 * 512)%nat.
Proof.
  unfold pad_binary, page_size.
  pose proof (Nat.div_mod_eq (length b) 512) as Hd.
  pose proof (Nat.mod_upper_bound (length b) 512 ltac:(lia)) as Hr.
  set (q := (length b / 512)%nat) in *. set (r := (length b mod 512)%nat) in *.
  destruct (Nat.eq_dec r 0) as [H0 | H0].
  - rewrite H0, Nat.sub_0_r, Nat.Div0.mod_same.
    exists 0%nat. rewrite app_nil_r. repeat split; lia.
  - rewrite (Nat.mod_small (512 - r) 512) by lia.
    exists (512 - r)%nat. rewrite length_app, repeat_length.
    replace (length b + (512 - r))%nat with ((q + 1) * 512)%nat by lia.
    rewrite Nat.Div0.mod_mul. repeat split; lia.
Qed.

Lemma page_length (p : list Z) (i : nat) :
  (S i * 512 <= length p)%nat -> length (page p i) = 512%nat.
Proof.
  intros H. unfold page, slice, page_size.
  rewrite length_firstn, length_skipn. lia.
Qed.

Lemma write_pages_log (st : list (Command * list Z)) (na : Z) (p : list Z)
    (pages : list Z) :
  0 <= na ->
  (forall i, In i pages ->
     0 <= i /\ i + 1 < 256 /\ (Z.to_nat (i + 1) * 512 <= length p)%nat
     /\ na + 512 * (i + 1) <= 2 ^ 32) ->
  write_pages _ log_issue st na p pages
  = Ok (st ++ map (fun i => (WritePage, u32_le (na + 512 * i) ++ page p (Z.to_nat i)))
                  pages).
Proof.
  intros Hna. revert st. induction pages as [| i t IH]; intros st Hp.
  - cbn. rewrite app_nil_r. reflexivity.
  - destruct (Hp i (or_introl eq_refl)) as (Hi0 & Hi1 & Hi2 & Hi3).
    cbn [write_pages]. unfold add_u32, add_u8, as_u32.
    rewrite (Z.mod_small na) by lia.
    rewrite (Z.mod_small (i * 512)) by lia.
    rewrite (proj2 (Z.ltb_lt _ _)) by lia. cbn [bind].
    rewrite (proj2 (Z.ltb_lt _ _)) by lia. cbn [bind].
    unfold page_size. rewrite (proj2 (Nat.leb_le _ _)) by lia. cbn [bind log_issue].
    rewrite IH by (intros j Hj; apply Hp; right; exact Hj).
    rewrite <- app_assoc. cbn [map app].
    replace (na + i * 512) with (na + 512 * i) by ring. reflexivity.
Qed.

Lemma NoDup_map_inj {A B} (f : A -> B) (l : list A) :
  (forall x y, f x = f y -> x = y) -> NoDup l -> NoDup (map f l).
Proof.
  intros Hf Hl. induction Hl as [| x l Hx Hl IH]; cbn; constructor; auto.
  rewrite in_map_iff. intros (y & Hy & Hin). apply Hf in Hy. subst. contradiction.
Qed.

Lemma map_mod_small (l : list nat) (n : nat) :
  (n <= 256)%nat -> (forall i, In i l -> (i < n)%nat) ->
  map (fun i => Z.of_nat i mod 256) l = map Z.of_nat l.
Proof.
  intros Hn Hl. apply map_ext_in. intros i Hi. apply Z.mod_small.
  specialize (Hl i Hi). lia.
Qed.

Lemma valid_pages_spec (p : list Z) :
  let n := (length p / 512)%nat in
  (n <= 255)%nat ->
  NoDup (valid_pages p)
  /\ forall x, In x (valid_pages p) <->
       0 <= x < Z.of_nat n
       /\ (page_nonzero p (Z.to_nat x) = true
           \/ forall j, (j < n)%nat -> page_nonzero p j = false).
Proof.
  intros n Hn. unfold valid_pages, page_size. fold n.
  rewrite (map_mod_small (filter _ _) n) by
    (lia || (intros i Hi; apply filter_In in Hi as [Hi _]; apply in_seq in Hi; lia)).
  rewrite (map_mod_small (seq 0 n) n) by
    (lia || (intros i Hi; apply in_seq in Hi; lia)).
  assert (Hinj : forall x y : nat, Z.of_nat x = Z.of_nat y -> x = y) by lia.
  destruct (filter (page_nonzero p) (seq 0 n)) as [| j l] eqn:Ef; cbn [map].
  - split.
    + apply NoDup_map_inj; [exact Hinj | apply seq_NoDup].
    + intros x. rewrite in_map_iff. split.
      * intros (i & <- & Hi). apply in_seq in Hi. split; [lia |]. right.
        intros j Hj. destruct (page_nonzero p j) eqn:Ej; [| reflexivity].
        assert (Hin : In j (filter (page_nonzero p) (seq 0 n)))
          by (apply filter_In; split; [apply in_seq; lia | exact Ej]).
        rewrite Ef in Hin. destruct Hin.
      * intros (Hx & _). exists (Z.to_nat x). split; [lia |]. apply in_seq. lia.
  - change (Z.of_nat j :: map Z.of_nat l) with (map Z.of_nat (j :: l)).
    rewrite <- Ef. split.
    + apply NoDup_map_inj; [exact Hinj |]. apply NoDup_filter, seq_NoDup.
    + intros x. rewrite in_map_iff. split.
      * intros (i & <- & Hi). apply filter_In in Hi as [Hi Hz]. apply in_seq in Hi.
        split; [lia |]. left. rewrite Nat2Z.id. exact Hz.
      * intros (Hx & [Hz | Hall]).
        -- exists (Z.to_nat x). split; [lia |]. apply filter_In.
           split; [apply in_seq; lia | exact Hz].
        -- assert (Hj : In j (filter (page_nonzero p) (seq 0 n)))
             by (rewrite Ef; left; reflexivity).
           apply filter_In in Hj as [Hj Hz]. apply in_seq in Hj.
           rewrite Hall in Hz by lia. discriminate Hz.
Qed.

Lemma existsb_eqb_In (x : Z) (l : list Z) : existsb (Z.eqb x) l = true <-> In x l.
Proof.
  rewrite existsb_exists. split.
  - intros (y & Hy & Hxy). apply Z.eqb_eq in Hxy. subst. exact Hy.
  - intros Hx. exists x. split; [exact Hx | apply Z.eqb_refl].
Qed.

Lemma with_ending_pages_spec (ex : list Z) (n : nat) :
  (n <= 255)%nat -> NoDup ex -> (forall x, In x ex -> 0 <= x < Z.of_nat n) ->
  exists l, with_ending_pages ex n = Ok l /\ NoDup l
            /\ forall x, In x l <-> In x ex \/ (x < Z.of_nat n /\ In (x - 1) ex).
Proof.
  intros Hn Hnd Hex. unfold with_ending_pages.
  destruct (existsb (fun i => i =? 255) ex) eqn:E255.
  { apply existsb_exists in E255 as (y & Hy & Hy255). apply Z.eqb_eq in Hy255.
    specialize (Hex y Hy). lia. }
  rewrite (Z.mod_small (Z.of_nat n)) by lia.
  eexists. split; [reflexivity |]. split.
  - apply NoDup_app; [exact Hnd | |].
    + apply NoDup_filter, NoDup_map_inj; [intros x y; lia | exact Hnd].
    + intros a Ha Hb. apply filter_In in Hb as [_ Hb].
      apply andb_true_iff in Hb as [_ Hb]. apply negb_true_iff in Hb.
      apply (proj2 (existsb_eqb_In a ex)) in Ha. congruence.
  - intros x. rewrite in_app_iff, filter_In, in_map_iff. split.
    + intros [Hx | ((y & <- & Hy) & Hc)]; [left; exact Hx | right].
      apply andb_true_iff in Hc as [Hc _]. apply Z.ltb_lt in Hc.
      split; [exact Hc |]. replace (y + 1 - 1) with y by ring. exact Hy.
    + intros [Hx | (Hx & Hy)]; [left; exact Hx |].
      destruct (existsb (Z.eqb x) ex) eqn:Ein.
      * left. apply existsb_eqb_In. exact Ein.
      * right. split.
        -- exists (x - 1). split; [ring | exact Hy].
        -- apply andb_true_iff. split; [apply Z.ltb_lt; exact Hx | reflexivity].
Qed.

(** X17: for a binary of 1 to 255 pages whose padded image stays in
    the 32-bit address space, the flash phase of the serial [install_app],
    with a bootloader that acknowledges every command, pads the binary with
    0xFF bytes (fewer than 512) to a multiple of the 512-byte page, moves the
    start up to the next multiple of the binary's length, issues one
    [WritePage] per selected page, each with no page twice, carrying the
    4-byte little-endian address of the page followed by its 512 bytes, and
    ends with one [ErasePage] on the 4-byte address just past the padded
    image. The selected pages are those holding a nonzero byte and the page
    after each of them, or all pages when no page holds a nonzero byte. *)
Theorem install_write_trace (st : list (Command * list Z)) (address : Z)
    (binary : list Z) :
  (0 < length binary)%nat ->
  (length binary <= 255 * 512)%nat ->
  0 <= address ->
  address + 2 * Z.of_nat (length binary) + 512 <= 2 ^ 32 ->
  let p := pad_binary binary in
  let n := (length p / 512)%nat in
  (exists k, p = binary ++ repeat 255 k /\ (k < 512)%nat)
  /\ (length p mod 512 = 0)%nat
  /\ exists na pages,
       install_write _ log_issue st address binary
       = Ok (st ++ map (fun i => (WritePage, u32_le (na + 512 * i) ++ page p (Z.to_nat i)))
                       pages
                ++ [(ErasePage, u32_le (na + Z.of_nat (length p)))])
       /\ address <= na < address + Z.of_nat (length binary)
       /\ na mod Z.of_nat (length binary) = 0
       /\ NoDup pages
       /\ (forall i, In i pages -> length (page p (Z.to_nat i)) = 512%nat)
       /\ (forall i, In i pages <->
             0 <= i < Z.of_nat n
             /\ (page_nonzero p (Z.to_nat i) = true
                 \/ (0 < i /\ page_nonzero p (Z.to_nat (i - 1)) = true)
                 \/ forall j, (j < n)%nat -> page_nonzero p j = false)).
Proof.
  intros Hlen Hmax Ha Hov p n.
  destruct (pad_binary_facts binary) as (k & Hp & Hk & Hmod & Hb).
  fold p in Hp, Hmod, Hb. specialize (Hb Hmax).
  assert (Hlp : length p = (length binary + k)%nat)
    by (rewrite Hp, length_app, repeat_length; reflexivity).
  assert (Hn : length p = (512 * n)%nat)
    by (unfold n; pose proof (Nat.div_mod_eq (length p) 512); lia).
  assert (Hn255 : (n <= 255)%nat) by lia.
  split; [exists k; split; assumption |]. split; [exact Hmod |].
  unfold install_write. cbv zeta.
  set (len := Z.of_nat (length binary)) in *.
  rewrite (proj2 (Z.eqb_neq _ _)) by lia.
  assert (Hna : exists na,
    (if negb (address / len * len =? address)
     then (s <- Reshuffle.add_u64 address len ;; Ok (s / len * len))
     else Ok address) = Ok na
    /\ address <= na < address + len /\ na mod len = 0).
  { pose proof (Z.div_mod address len ltac:(lia)) as Hd.
    pose proof (Z.mod_pos_bound address len ltac:(lia)) as Hr.
    destruct (address / len * len =? address) eqn:E; cbn [negb].
    - apply Z.eqb_eq in E. exists address. split; [reflexivity |].
      split; [lia |]. rewrite <- E. apply Z.mod_mul. lia.
    - apply Z.eqb_neq in E.
      unfold Reshuffle.add_u64, Reshuffle.U64_MAX.
      rewrite (proj2 (Z.leb_le _ _)) by lia. cbn [bind].
      exists ((address + len) / len * len). split; [reflexivity |].
      replace (address + len) with (address + 1 * len) by ring.
      rewrite Z.div_add by lia. split; [nia | apply Z.mod_mul; lia]. }
  destruct Hna as (na & Ena & Hna1 & Hna2). rewrite Ena. cbn [bind].
  fold p. change (length p / page_size)%nat with n.
  destruct (valid_pages_spec p Hn255) as [Hvnd Hvin].
  destruct (with_ending_pages_spec (valid_pages p) n Hn255 Hvnd
              (fun x Hx => proj1 (proj1 (Hvin x) Hx))) as (pages & Epg & Hpnd & Hpin).
  assert (Hrange : forall i, In i pages -> 0 <= i < Z.of_nat n).
  { intros i Hi. apply Hpin in Hi as [Hi | (Hi1 & Hi2)].
    - apply Hvin in Hi. lia.
    - apply Hvin in Hi2. lia. }
  rewrite Epg. cbn [bind].
  rewrite write_pages_log; cycle 1.
  { lia. }
  { intros i Hi. specialize (Hrange i Hi). lia. }
  cbn [bind]. unfold Reshuffle.add_u64, Reshuffle.U64_MAX.
  rewrite (proj2 (Z.leb_le _ _)) by lia. cbn [bind log_issue].
  unfold as_u32. rewrite Z.mod_small by lia.
  exists na, pages. split; [unfold log_issue; rewrite <- app_assoc; reflexivity |].
  split; [lia |]. split; [exact Hna2 |]. split; [exact Hpnd |]. split.
  - intros i Hi. specialize (Hrange i Hi). apply page_length. lia.
  - intros i. rewrite Hpin, !Hvin. split.
    + intros [(H1 & H2) | (H3 & (H4 & H5))].
      * split; [lia |]. destruct H2 as [H2 | H2]; [left | right; right]; exact H2.
      * split; [lia |]. destruct H5 as [H5 | H5].
        -- right; left. split; [lia | exact H5].
        -- right; right. exact H5.
    + intros (H1 & [H2 | [(H3 & H4) | H5]]).
      * left. split; [exact H1 | left; exact H2].
      * right. split; [lia |]. split; [lia | left; exact H4].
      * left. split; [exact H1 | right; exact H5].
Qed.

Lemma install_write_trace_witness :
  let binary := [1] ++ repeat 0 1535 in
  ((0 < length binary)%nat /\ (length binary <= 255 * 512)%nat /\ 0 <= 262144
   /\ 262144 + 2 * Z.of_nat (length binary) + 512 <= 2 ^ 32)
  /\ let p := pad_binary binary in
     let n := (length p / 512)%nat in
     (exists k, p = binary ++ repeat 255 k /\ (k < 512)%nat)
     /\ (length p mod 512 = 0)%nat
     /\ exists na pages,
          install_write _ log_issue [] 262144 binary
          = Ok ([] ++ map (fun i => (WritePage, u32_le (na + 512 * i) ++ page p (Z.to_nat i)))
                          pages
                   ++ [(ErasePage, u32_le (na + Z.of_nat (length p)))])
          /\ 262144 <= na < 262144 + Z.of_nat (length binary)
          /\ na mod Z.of_nat (length binary) = 0
          /\ NoDup pages
          /\ (forall i, In i pages -> length (page p (Z.to_nat i)) = 512%nat)
          /\ (forall i, In i pages <->
                0 <= i < Z.of_nat n
                /\ (page_nonzero p (Z.to_nat i) = true
                    \/ (0 < i /\ page_nonzero p (Z.to_nat (i - 1)) = true)
                    \/ forall j, (j < n)%nat -> page_nonzero p j = false)).
Proof.
  intros binary.
  assert (Hl : length binary = 1536%nat)
    by (unfold binary; rewrite length_app, repeat_length; reflexivity).
  split.
  - rewrite Hl. repeat split; lia.
  - apply (install_write_trace [] 262144 binary); try rewrite Hl; lia.
Defined.

(** The serial flash path pads with 0xFF, not 0x00; a [WritePage] payload is
    a 4-byte address and 512 bytes (516 bytes); a page of zeros after the
    last page with data is not written, yet [ErasePage] goes past the whole
    padded image; and the generic serial [write] is [todo!]. *)
Lemma install_write_examples :
  pad_binary [1] = [1] ++ repeat 255 511
  /\ install_write _ log_issue [] 262144 [1]
     = Ok [(WritePage, [0; 0; 4; 0] ++ [1] ++ repeat 255 511);
           (ErasePage, [0; 2; 4; 0])]
  /\ install_write _ log_issue [] 262144 ([1] ++ repeat 0 1535)
     = Ok [(WritePage, u32_le 262656 ++ [1] ++ repeat 0 511);
           (WritePage, u32_le 263168 ++ repeat 0 512);
           (ErasePage, u32_le 264192)]
  /\ SerialReadWrite.write true (mkPort [] []) 262144 [1] = Panic.
Proof. repeat split; vm_compute; reflexivity. Qed.

End SerialInstallProofs.

(** * The inventory walk *)
Module AppInventoryProofs.
Import BootloaderSerial AppInventory.

(** C1: when the prologue at the current address parses but
    [parse_tbf_header] on the [header_len] bytes read there fails with [e],
    the walk does not return the applications collected so far: it returns
    [Err (InvalidAppTbfHeader e)], whatever the parser, the device and the
    applications collected before. *)
Theorem walk_header_error (H C : Type) (parse : list Z -> Z -> H + nat)
    (binary_end : H -> Z) (v2 : H -> bool) (parse_footer : list Z -> (C * Z) + nat)
    (St : Type) (read_at : St -> Z -> nat -> res (list Z * St))
    (read_footer : St -> Z -> Z -> nat -> res (list Z * St))
    (fuel : nat) (st : St) (appaddr : Z) (apps : list (AppAttributes H C))
    (appdata header_data : list Z) (st1 st2 : St) (v h t : Z) (e : nat) :
  read_at st appaddr 8%nat = Ok (appdata, st1) ->
  (8 <= length appdata)%nat ->
  parse_tbf_header_lengths (firstn 8 appdata) = Some (v, h, t) ->
  read_at st1 appaddr (Z.to_nat h) = Ok (header_data, st2) ->
  parse header_data v = inr e ->
  walk H C parse binary_end v2 parse_footer St read_at read_footer (S fuel) st appaddr apps
  = Err (InvalidAppTbfHeader e).
Proof.
  intros Hr8 Hl Hlen Hrh He.
  cbn [walk]. rewrite Hr8. cbn [bind].
  rewrite (proj2 (Nat.leb_le _ _) Hl). cbn [bind].
  rewrite Hlen, Hrh. cbn [bind]. rewrite He. reflexivity.
Qed.

Lemma walk_header_error_witness :
  let app := [2; 0; 32; 0; 32; 0; 0; 0; 1; 0; 0; 0; 34; 0; 44; 0;
              1; 0; 12; 0; 0; 0; 0; 0; 0; 0; 0; 0; 0; 0; 0; 0] in
  let hdr := [2; 0; 16; 0; 16; 0; 0; 0; 0; 0; 0; 0; 0; 0; 0; 0] in
  let mem := app ++ hdr in
  probe_read mem 32 8%nat = Ok (firstn 8 hdr, mem)
  /\ (8 <= length (firstn 8 hdr))%nat
  /\ parse_tbf_header_lengths (firstn 8 (firstn 8 hdr)) = Some (2, 16, 16)
  /\ probe_read mem 32 (Z.to_nat 16) = Ok (hdr, mem)
  /\ TbfSpec.parse_tbf_header hdr 2 = inr TbfSpec.ChecksumMismatch
  /\ walk TbfSpec.TbfHeader Z TbfSpec.parse_tbf_header TbfSpec.get_binary_end
       TbfSpec.is_v2 TbfSpec.parse_tbf_footer (list Z) probe_read probe_read_footer
       1%nat mem 32 [mkAppAttributes TbfSpec.TbfHeader Z 0 (TbfSpec.TbfHeaderV2 2 32 32 1) []]
     = Err (InvalidAppTbfHeader TbfSpec.ChecksumMismatch).
Proof.
  intros app hdr mem.
  assert (H1 : probe_read mem 32 8%nat = Ok (firstn 8 hdr, mem)) by (vm_compute; reflexivity).
  assert (H2 : (8 <= length (firstn 8 hdr))%nat) by (cbn; lia).
  assert (H3 : parse_tbf_header_lengths (firstn 8 (firstn 8 hdr)) = Some (2, 16, 16))
    by (vm_compute; reflexivity).
  assert (H4 : probe_read mem 32 (Z.to_nat 16) = Ok (hdr, mem)) by (vm_compute; reflexivity).
  assert (H5 : TbfSpec.parse_tbf_header hdr 2 = inr TbfSpec.ChecksumMismatch)
    by (vm_compute; reflexivity).
  refine (conj H1 (conj H2 (conj H3 (conj H4 (conj H5 _))))).
  exact (walk_header_error _ _ _ _ _ _ _ _ _ O mem 32 _ _ _ _ _ _ _ _ _ H1 H2 H3 H4 H5).
Defined.

(** On a flash holding one application followed by a header whose checksum
    is wrong, both readers fail with [InvalidAppTbfHeader ChecksumMismatch]
    instead of returning the first application, which they do return when
    the same application is followed by an empty prologue. *)
Lemma read_apps_data_bad_checksum :
  let app := [2; 0; 32; 0; 32; 0; 0; 0; 1; 0; 0; 0; 34; 0; 44; 0;
              1; 0; 12; 0; 0; 0; 0; 0; 0; 0; 0; 0; 0; 0; 0; 0] in
  let hdr := [2; 0; 16; 0; 16; 0; 0; 0; 0; 0; 0; 0; 0; 0; 0; 0] in
  let rsp (d : list Z) := [ESCAPE_CHAR; response_byte RReadRange] ++ escape d in
  let first := mkAppAttributes TbfSpec.TbfHeader Z 0 (TbfSpec.TbfHeaderV2 2 32 32 1) [] in
  read_apps_data_probe TbfSpec.parse_tbf_header TbfSpec.get_binary_end TbfSpec.is_v2
    TbfSpec.parse_tbf_footer (app ++ hdr) 0
  = Err (InvalidAppTbfHeader TbfSpec.ChecksumMismatch)
  /\ read_apps_data_serial TbfSpec.parse_tbf_header TbfSpec.get_binary_end TbfSpec.is_v2
       TbfSpec.parse_tbf_footer
       (mkPort (rsp (firstn 8 app) ++ rsp app ++ rsp (firstn 8 hdr) ++ rsp hdr) []) 0
     = Err (InvalidAppTbfHeader TbfSpec.ChecksumMismatch)
  /\ read_apps_data_probe TbfSpec.parse_tbf_header TbfSpec.get_binary_end TbfSpec.is_v2
       TbfSpec.parse_tbf_footer (app ++ repeat 0 16) 0
     = Ok [first].
Proof. repeat split; vm_compute; reflexivity. Qed.

End AppInventoryProofs.

(** * The serial command layer: responses, [issue_command], ping, [IO] *)
Module SerialIOProofs.
Import BootloaderSerial SerialSpec Ping SerialIO.

(** X1: [Response::from] inverts [response as u8]: decoding the byte of
    any response gives that response back (including [BadResp], whose
    discriminant 0x27 is no known code). *)
Theorem response_from_byte (r : Response) : response_from (response_byte r) = r.
Proof. destruct r; reflexivity. Qed.

Lemma response_from_byte_eq (r : Response) : response_from (response_byte r) = r.
Proof. destruct r; reflexivity. Qed.

Lemma read_bytes_prefix (h rest sent : list Z) :
  read_bytes (mkPort (h ++ rest) sent) (length h) = Ok (h, mkPort rest sent).
Proof.
  unfold read_bytes. cbn [rx BootloaderSerial.tx].
  rewrite (proj2 (Nat.leb_le _ _)) by (rewrite length_app; lia).
  rewrite firstn_app, Nat.sub_diag, firstn_all, app_nil_r.
  rewrite skipn_app, Nat.sub_diag, skipn_all. reflexivity.
Qed.

(** X2: [issue_command] with no payload expected writes the frame (the
    SYNC bytes when asked, the message with every [ESCAPE_CHAR] doubled,
    then [ESCAPE_CHAR] and the command byte) and reads exactly the two
    header bytes: it returns the expected response and an empty payload when
    they are [ESCAPE_CHAR] and the response code, and [BootloaderBadHeader]
    with the two bytes otherwise. *)
Theorem issue_command_no_payload (c : Command) (m : list Z) (sync : bool)
    (code : Response) (h0 h1 : Z) (rest sent : list Z) :
  let frame := (if sync then SYNC_MESSAGE else []) ++ dup m ++ [ESCAPE_CHAR; command_byte c] in
  issue_command (mkPort ([h0; h1] ++ rest) sent) c m sync 0 code
  = if (h0 =? ESCAPE_CHAR) && (h1 =? response_byte code)
    then Ok ((code, []), mkPort rest (sent ++ frame))
    else Err (BootloaderBadHeader h0 h1).
Proof.
  intros frame. unfold issue_command, write_bytes, build_frame. cbn [bind rx BootloaderSerial.tx].
  rewrite SerialProofs.escape_is_dup.
  change 2%nat with (length [h0; h1]). rewrite read_bytes_prefix. cbn [bind nth].
  destruct ((h0 =? ESCAPE_CHAR) && (h1 =? response_byte code))%bool eqn:E; [| reflexivity].
  apply andb_true_iff in E as [_ E]. apply Z.eqb_eq in E. subst h1.
  cbn. rewrite response_from_byte_eq. unfold frame.
  destruct sync; reflexivity.
Qed.

Lemma ping_loop_skip (replies : list (list Z)) (n : nat) (rest sent : list Z) :
  Forall (fun r => length r = 2%nat /\ nth 1 r 0 <> response_byte Pong) replies ->
  (length replies <= n)%nat ->
  ping_loop n (mkPort (concat replies ++ rest) sent)
  = ping_loop (n - length replies)
      (mkPort rest (sent ++ concat (repeat ping_pkt (length replies)))).
Proof.
  revert n sent. induction replies as [| r t IH]; intros n sent Hf Hn.
  - cbn. rewrite Nat.sub_0_r, app_nil_r. reflexivity.
  - inversion Hf as [| ? ? [Hl Hnp] Ht]; subst.
    destruct n as [| n]; [cbn in Hn; lia |].
    cbn [ping_loop concat]. unfold write_bytes. cbn [bind rx BootloaderSerial.tx].
    rewrite <- app_assoc, <- Hl, read_bytes_prefix. cbn [bind].
    rewrite (proj2 (Z.eqb_neq _ _) Hnp).
    rewrite IH by (assumption || (cbn in Hn; lia)).
    cbn [length repeat concat]. rewrite app_assoc. reflexivity.
Qed.

(** X3: the ping succeeds at the first reply whose second byte is [Pong]
    if fewer than 30 replies precede it: after [k < 30] other two-byte
    replies, it has written [k + 1] ping packets and consumed exactly the
    [k + 1] replies. *)
Theorem ping_succeeds (replies : list (list Z)) (h0 : Z) (rest sent : list Z) :
  Forall (fun r => length r = 2%nat /\ nth 1 r 0 <> response_byte Pong) replies ->
  (length replies < 30)%nat ->
  ping_bootloader_and_wait_for_response
    (mkPort (concat replies ++ [h0; response_byte Pong] ++ rest) sent)
  = Ok (mkPort rest (sent ++ concat (repeat ping_pkt (S (length replies))))).
Proof.
  intros Hf Hl. unfold ping_bootloader_and_wait_for_response.
  rewrite ping_loop_skip by (assumption || lia).
  destruct (30 - length replies)%nat as [| n] eqn:En; [lia |].
  cbn [ping_loop]. unfold write_bytes. cbn [bind rx BootloaderSerial.tx].
  change 2%nat with (length [h0; response_byte Pong]). rewrite read_bytes_prefix.
  cbn [bind nth]. rewrite Z.eqb_refl.
  cbn [repeat]. rewrite repeat_cons, concat_app, <- app_assoc. cbn [concat].
  rewrite app_nil_r. reflexivity.
Qed.

Lemma ping_succeeds_witness :
  Forall (fun r => length r = 2%nat /\ nth 1 r 0 <> response_byte Pong) [[252; 21]]
  /\ (length [[252; 21]] < 30)%nat
  /\ ping_bootloader_and_wait_for_response
       (mkPort (concat [[252; 21]] ++ [252; response_byte Pong] ++ [7]) [])
     = Ok (mkPort [7] ([] ++ concat (repeat ping_pkt (S (length [[252; 21]]))))).
Proof.
  assert (Hf : Forall (fun r => length r = 2%nat /\ nth 1 r 0 <> response_byte Pong)
                 [[252; 21]])
    by (repeat constructor; cbn; lia).
  assert (Hl : (length [[252; 21]] < 30)%nat) by (cbn; lia).
  split; [exact Hf |]. split; [exact Hl |].
  exact (ping_succeeds [[252; 21]] 252 [7] [] Hf Hl).
Defined.

(** X4: when none of the first 30 two-byte replies carries [Pong], the ping
    gives up with [BootloaderNotPresent] after writing 30 ping packets. *)
Theorem ping_gives_up (replies : list (list Z)) (rest sent : list Z) :
  Forall (fun r => length r = 2%nat /\ nth 1 r 0 <> response_byte Pong) replies ->
  length replies = 30%nat ->
  ping_bootloader_and_wait_for_response (mkPort (concat replies ++ rest) sent)
  = Err BootloaderNotPresent.
Proof.
  intros Hf Hl. unfold ping_bootloader_and_wait_for_response.
  rewrite ping_loop_skip by (assumption || lia). rewrite Hl. reflexivity.
Qed.

Lemma ping_gives_up_witness :
  Forall (fun r => length r = 2%nat /\ nth 1 r 0 <> response_byte Pong) (repeat [252; 21] 30)
  /\ length (repeat [252; 21] 30) = 30%nat
  /\ ping_bootloader_and_wait_for_response (mkPort (concat (repeat [252; 21] 30) ++ []) [])
     = Err BootloaderNotPresent.
Proof.
  assert (Hf : Forall (fun r => length r = 2%nat /\ nth 1 r 0 <> response_byte Pong)
                 (repeat [252; 21] 30))
    by (apply Forall_forall; intros r Hr; apply repeat_spec in Hr; subst; cbn; lia).
  assert (Hl : length (repeat [252; 21] 30) = 30%nat) by apply repeat_length.
  split; [exact Hf |]. split; [exact Hl |].
  exact (ping_gives_up (repeat [252; 21] 30) [] [] Hf Hl).
Defined.

Lemma read_bytes_not_panic (p : Port) (n : nat) : read_bytes p n <> Panic.
Proof. unfold read_bytes. destruct (n <=? length (rx p))%nat; discriminate. Qed.

Lemma deescape_loop_not_panic (fuel : nat) (p : Port) (input : list Z) (i : nat)
    (result : list Z) :
  deescape_loop fuel p input i result <> Panic.
Proof.
  revert p input i result. induction fuel as [| f IH]; intros p input i result;
    cbn [deescape_loop].
  - discriminate.
  - destruct (i <? length input)%nat; [| discriminate].
    destruct (_ && _ && _)%bool; [| apply IH].
    destruct (read_bytes p 1) as [[extra p'] | e |] eqn:E; cbn [bind].
    + apply IH.
    + discriminate.
    + exfalso. exact (read_bytes_not_panic p 1 E).
Qed.

Lemma issue_command_not_panic (p : Port) (c : Command) (m : list Z) (sync : bool)
    (n : nat) (code : Response) :
  issue_command p c m sync n code <> Panic.
Proof.
  unfold issue_command, write_bytes. cbn [bind].
  destruct (read_bytes _ 2) as [[header p2] | e |] eqn:Eh; cbn [bind];
    [| discriminate | exfalso; exact (read_bytes_not_panic _ _ Eh)].
  destruct (_ && _)%bool; [| discriminate].
  unfold receive_payload. destruct (n =? 0)%nat; [discriminate |].
  destruct (read_bytes p2 n) as [[input p3] | e |] eqn:Er; cbn [bind];
    [| discriminate | exfalso; exact (read_bytes_not_panic _ _ Er)].
  destruct (deescape_loop _ _ _ _ _) as [[out p4] | e |] eqn:Ed; cbn [bind];
    [discriminate | discriminate | exfalso; exact (deescape_loop_not_panic _ _ _ _ _ Ed)].
Qed.

Lemma issue_command_payload_len (p : Port) (c : Command) (m : list Z) (sync : bool)
    (n : nat) (code r : Response) (payload : list Z) (p' : Port) :
  issue_command p c m sync n code = Ok ((r, payload), p') -> length payload = n.
Proof.
  intros H. unfold issue_command, write_bytes in H. cbn [bind] in H.
  destruct (read_bytes _ 2) as [[header p2] | |]; cbn [bind] in H; try discriminate.
  destruct (_ && _)%bool; [| discriminate].
  unfold receive_payload in H.
  destruct (n =? 0)%nat eqn:E.
  - apply Nat.eqb_eq in E. subst n. cbn in H. inversion H. reflexivity.
  - destruct (read_bytes p2 n) as [[input p3] | |] eqn:Hr; cbn [bind] in H;
      try discriminate.
    destruct (deescape_loop (length input) p3 input 0 []) as [[out p4] | |] eqn:Hd;
      cbn [bind] in H; try discriminate.
    inversion H; subst.
    apply SerialProofs.read_bytes_length in Hr.
    apply SerialProofs.deescape_loop_length in Hd; [cbn in Hd; lia | lia | lia].
Qed.

(** X5: on an open connection [IO::read] never reaches its "read less
    bytes than requested" panic: it fails only with the error of the
    exchange, and when it succeeds it returns exactly [size] bytes. *)
Theorem io_read_exact (p : Port) (address : Z) (size : nat) :
  io_read true p address size <> Panic
  /\ forall data p', io_read true p address size = Ok (data, p') -> length data = size.
Proof.
  unfold io_read. cbn [negb].
  destruct (issue_command p ReadRange _ true size RReadRange)
    as [[[r appdata] p'] | e |] eqn:E; cbn [bind].
  - apply issue_command_payload_len in E.
    rewrite E, Nat.ltb_irrefl. split; [discriminate |].
    intros data p'' H. inversion H; subst. reflexivity.
  - split; [discriminate | intros data p'' H; discriminate H].
  - exfalso. exact (issue_command_not_panic _ _ _ _ _ _ E).
Qed.

Lemma pad_zero_spec (ps : nat) (pkt : list Z) :
  (0 < ps)%nat ->
  exists pad, pad_zero (Z.of_nat ps) pkt = Ok (pkt ++ repeat 0 pad)
              /\ (pad < ps)%nat /\ ((length pkt + pad) mod ps = 0)%nat.
Proof.
  intros Hps. unfold pad_zero, Reshuffle.is_multiple_of, Reshuffle.rem_u64.
  rewrite (proj2 (Z.eqb_neq _ _)) by lia.
  rewrite <- Nat2Z.inj_mod.
  pose proof (Nat.div_mod_eq (length pkt) ps) as Hd.
  pose proof (Nat.mod_upper_bound (length pkt) ps ltac:(lia)) as Hr.
  set (q := (length pkt / ps)%nat) in *. set (r := (length pkt mod ps)%nat) in *.
  destruct (Z.of_nat r =? 0) eqn:E; cbn [negb bind].
  - apply Z.eqb_eq in E. exists 0%nat. rewrite app_nil_r.
    split; [reflexivity |]. split; [lia |]. rewrite Nat.add_0_r. fold r. lia.
  - apply Z.eqb_neq in E. exists (ps - r)%nat.
    replace (Z.to_nat (Z.of_nat ps - Z.of_nat r)) with (ps - r)%nat by lia.
    split; [reflexivity |]. split; [lia |].
    replace (length pkt + (ps - r))%nat with ((q + 1) * ps)%nat by lia.
    apply Nat.Div0.mod_mul.
Qed.

Lemma write_page_loop_log (ps : nat) (st : list (Command * list Z)) (address : Z)
    (binary : list Z) (pages : list nat) :
  (0 < ps)%nat -> 0 <= address ->
  address + Z.of_nat (length binary) < 2 ^ 32 ->
  (forall k, In k pages -> (S k * ps <= length binary)%nat) ->
  write_page_loop _ SerialInstall.log_issue (Z.of_nat ps) st address binary pages
  = Ok (st ++ map (fun k => (WritePage, u32_le (address + Z.of_nat k * Z.of_nat ps)
                                         ++ slice (k * ps) ps binary)) pages).
Proof.
  intros Hps Ha Hlen. revert st. induction pages as [| k t IH]; intros st Hp.
  - cbn. rewrite app_nil_r. reflexivity.
  - assert (Hk : (S k * ps <= length binary)%nat) by (apply Hp; left; reflexivity).
    assert (HkZ : (Z.of_nat k + 1) * Z.of_nat ps <= Z.of_nat (length binary)) by nia.
    cbn [write_page_loop]. unfold mul_u32, SerialInstall.add_u32, as_u32.
    rewrite (Z.mod_small (Z.of_nat k)) by nia.
    rewrite (Z.mod_small address) by lia.
    rewrite (proj2 (Z.ltb_lt _ _)) by nia. cbn [bind].
    rewrite (proj2 (Z.ltb_lt _ _)) by nia. cbn [bind].
    unfold Attributes.slice_res. rewrite Nat2Z.id.
    rewrite (proj2 (Nat.leb_le _ _)) by lia. cbn [bind SerialInstall.log_issue].
    rewrite IH by (intros j Hj; apply Hp; right; exact Hj).
    rewrite <- app_assoc. reflexivity.
Qed.

(** The trace of [IO::write] against an acknowledging bootloader *)
Lemma io_write_log (PAGE_SIZE : Z) (st : list (Command * list Z)) (address : Z)
    (pkt : list Z) :
  0 < PAGE_SIZE -> 0 <= address ->
  address + Z.of_nat (length pkt) + PAGE_SIZE <= 2 ^ 32 ->
  exists pad,
    (pad < Z.to_nat PAGE_SIZE)%nat
    /\ ((length pkt + pad) mod Z.to_nat PAGE_SIZE = 0)%nat
    /\ ((length pkt mod Z.to_nat PAGE_SIZE = 0)%nat -> pad = 0%nat)
    /\ let binary := pkt ++ repeat 0 pad in
       io_write _ SerialInstall.log_issue PAGE_SIZE st address pkt
       = Ok (st ++ map (fun k => (WritePage, u32_le (address + Z.of_nat k * PAGE_SIZE)
                                   ++ slice (k * Z.to_nat PAGE_SIZE) (Z.to_nat PAGE_SIZE)
                                        binary))
                       (seq 0 (length binary / Z.to_nat PAGE_SIZE))
                ++ [(ErasePage, u32_le (address + Z.of_nat (length binary)))]).
Proof.
  intros HPS Ha Hov.
  destruct (Z_of_nat_complete PAGE_SIZE ltac:(lia)) as [ps ->].
  rewrite Nat2Z.id.
  assert (Hps : (0 < ps)%nat) by lia.
  destruct (pad_zero_spec ps pkt Hps) as (pad & Epad & Hpad & Hmod).
  exists pad. split; [exact Hpad |]. split; [exact Hmod |]. split.
  { intros H0. pose proof (Nat.Div0.add_mod (length pkt) pad ps) as Ham.
    rewrite H0, Hmod, Nat.add_0_l, (Nat.mod_small pad ps Hpad) in Ham.
    rewrite (Nat.mod_small pad ps Hpad) in Ham. lia. }
  cbv zeta. set (binary := pkt ++ repeat 0 pad).
  assert (Hlb : length binary = (length pkt + pad)%nat)
    by (unfold binary; rewrite length_app, repeat_length; reflexivity).
  set (n := (length binary / ps)%nat).
  assert (Hn : length binary = (n * ps)%nat).
  { unfold n. pose proof (Nat.div_mod_eq (length binary) ps). rewrite Hlb in *. lia. }
  unfold io_write. rewrite Epad. cbn [bind]. fold binary.
  rewrite (proj2 (Z.eqb_neq _ _)) by lia. cbn [bind].
  rewrite <- Nat2Z.inj_div, Nat2Z.id. fold n.
  rewrite write_page_loop_log; cycle 1.
  { exact Hps. } { exact Ha. } { lia. }
  { intros k Hk. apply in_seq in Hk. nia. }
  cbn [bind]. unfold SerialInstall.add_u32, as_u32.
  rewrite (Z.mod_small address), (Z.mod_small (Z.of_nat (length binary))) by lia.
  rewrite (proj2 (Z.ltb_lt _ _)) by lia. cbn [bind].
  unfold SerialInstall.log_issue. rewrite <- app_assoc. reflexivity.
Qed.

(** X6: [IO::write] on the serial connection, with a bootloader that
    acknowledges every command, a positive [PAGE_SIZE] and a packet that
    fits in the 32-bit address space from [address]: it pads the packet with
    fewer than [PAGE_SIZE] zero bytes up to a multiple of [PAGE_SIZE]
    (none when it is one already), writes page [k] of the padded packet at
    [address + k * PAGE_SIZE] for each [k] in order, and ends with one
    [ErasePage] on the address just past the padded packet. *)
Theorem io_write_trace (PAGE_SIZE : Z) (st : list (Command * list Z)) (address : Z)
    (pkt : list Z) :
  0 < PAGE_SIZE -> 0 <= address ->
  address + Z.of_nat (length pkt) + PAGE_SIZE <= 2 ^ 32 ->
  exists pad,
    (pad < Z.to_nat PAGE_SIZE)%nat
    /\ ((length pkt + pad) mod Z.to_nat PAGE_SIZE = 0)%nat
    /\ ((length pkt mod Z.to_nat PAGE_SIZE = 0)%nat -> pad = 0%nat)
    /\ let binary := pkt ++ repeat 0 pad in
       io_write _ SerialInstall.log_issue PAGE_SIZE st address pkt
       = Ok (st ++ map (fun k => (WritePage, u32_le (address + Z.of_nat k * PAGE_SIZE)
                                   ++ slice (k * Z.to_nat PAGE_SIZE) (Z.to_nat PAGE_SIZE)
                                        binary))
                       (seq 0 (length binary / Z.to_nat PAGE_SIZE))
                ++ [(ErasePage, u32_le (address + Z.of_nat (length binary)))]).
Proof. intros HPS Ha Hov. exact (io_write_log PAGE_SIZE st address pkt HPS Ha Hov). Qed.

Lemma io_write_trace_witness :
  (0 < 4 /\ 0 <= 4096 /\ 4096 + Z.of_nat (length [1; 2; 3; 4; 5]) + 4 <= 2 ^ 32)
  /\ exists pad,
    (pad < Z.to_nat 4)%nat
    /\ ((length [1; 2; 3; 4; 5] + pad) mod Z.to_nat 4 = 0)%nat
    /\ ((length [1; 2; 3; 4; 5] mod Z.to_nat 4 = 0)%nat -> pad = 0%nat)
    /\ let binary := [1; 2; 3; 4; 5] ++ repeat 0 pad in
       io_write _ SerialInstall.log_issue 4 [] 4096 [1; 2; 3; 4; 5]
       = Ok ([] ++ map (fun k => (WritePage, u32_le (4096 + Z.of_nat k * 4)
                                   ++ slice (k * Z.to_nat 4) (Z.to_nat 4) binary))
                       (seq 0 (length binary / Z.to_nat 4))
                ++ [(ErasePage, u32_le (4096 + Z.of_nat (length binary)))]).
Proof.
  split; [cbn; lia |].
  apply (io_write_trace 4 [] 4096 [1; 2; 3; 4; 5]); cbn; lia.
Defined.

(** C6 (amended): a write through the serial backend's [IO::write], with a
    bootloader that acknowledges every command, a positive [PAGE_SIZE] and a
    packet that fits in the 32-bit address space from [address], pads the
    packet with fewer than [PAGE_SIZE] zero bytes up to a whole number of
    pages, issues one [WritePage] per page whose payload is the 4-byte
    little-endian address of the page followed by its [PAGE_SIZE] bytes, and
    then one [ErasePage] on the address just past the last written byte. *)
Theorem serial_write_pages (PAGE_SIZE : Z) (st : list (Command * list Z)) (address : Z)
    (pkt : list Z) :
  0 < PAGE_SIZE -> 0 <= address ->
  address + Z.of_nat (length pkt) + PAGE_SIZE <= 2 ^ 32 ->
  exists pad,
    (pad < Z.to_nat PAGE_SIZE)%nat
    /\ ((length pkt + pad) mod Z.to_nat PAGE_SIZE = 0)%nat
    /\ let binary := pkt ++ repeat 0 pad in
       let pages := map (fun k => (WritePage, u32_le (address + Z.of_nat k * PAGE_SIZE)
                                   ++ slice (k * Z.to_nat PAGE_SIZE) (Z.to_nat PAGE_SIZE)
                                        binary))
                        (seq 0 (length binary / Z.to_nat PAGE_SIZE)) in
       io_write _ SerialInstall.log_issue PAGE_SIZE st address pkt
       = Ok (st ++ pages ++ [(ErasePage, u32_le (address + Z.of_nat (length binary)))])
       /\ Forall (fun c => length (snd c) = (4 + Z.to_nat PAGE_SIZE)%nat) pages.
Proof.
  intros HPS Ha Hov.
  destruct (io_write_log PAGE_SIZE st address pkt HPS Ha Hov) as (pad & H1 & H2 & _ & H4).
  exists pad. split; [exact H1 |]. split; [exact H2 |]. cbv zeta in H4 |- *.
  split; [exact H4 |].
  set (ps := Z.to_nat PAGE_SIZE) in *. set (binary := pkt ++ repeat 0 pad).
  assert (Hps : (0 < ps)%nat) by lia.
  apply Forall_map, Forall_forall. intros k Hk. apply in_seq in Hk.
  cbn [snd]. unfold u32_le, slice.
  rewrite length_app, WordProofs.length_le_bytes, length_firstn, length_skipn.
  pose proof (Nat.Div0.mul_div_le (length binary) ps) as Hd.
  assert (Hk' : (k * ps + ps <= length binary)%nat) by nia.
  lia.
Qed.

Lemma serial_write_pages_witness :
  (0 < 4 /\ 0 <= 4096 /\ 4096 + Z.of_nat (length [1; 2; 3; 4; 5]) + 4 <= 2 ^ 32)
  /\ exists pad,
    (pad < Z.to_nat 4)%nat
    /\ ((length [1; 2; 3; 4; 5] + pad) mod Z.to_nat 4 = 0)%nat
    /\ let binary := [1; 2; 3; 4; 5] ++ repeat 0 pad in
       let pages := map (fun k => (WritePage, u32_le (4096 + Z.of_nat k * 4)
                                   ++ slice (k * Z.to_nat 4) (Z.to_nat 4) binary))
                        (seq 0 (length binary / Z.to_nat 4)) in
       io_write _ SerialInstall.log_issue 4 [] 4096 [1; 2; 3; 4; 5]
       = Ok ([] ++ pages ++ [(ErasePage, u32_le (4096 + Z.of_nat (length binary)))])
       /\ Forall (fun c => length (snd c) = (4 + Z.to_nat 4)%nat) pages.
Proof.
  split; [cbn; lia |].
  apply (serial_write_pages 4 [] 4096 [1; 2; 3; 4; 5]); cbn; lia.
Defined.

(** [IO::write] of 5 bytes in 4-byte pages at 0x1000: the two [WritePage]
    payloads are 8 bytes, a 4-byte address and a page, not a 6-byte address
    and a page; the packet is padded with zeros and [ErasePage] goes to
    0x1008. *)
Lemma serial_write_counterexample :
  io_write _ SerialInstall.log_issue 4 [] 4096 [1; 2; 3; 4; 5]
  = Ok [(WritePage, [0; 16; 0; 0] ++ [1; 2; 3; 4]);
        (WritePage, [4; 16; 0; 0] ++ [5; 0; 0; 0]);
        (ErasePage, [8; 16; 0; 0])]
  /\ length ([0; 16; 0; 0] ++ [1; 2; 3; 4]) = 8%nat.
Proof. split; vm_compute; reflexivity. Qed.

Lemma ping_reaches_pong (replies : list (list Z)) (h0 : Z) (rest sent : list Z) :
  Forall (fun r => length r = 2%nat /\ nth 1 r 0 <> response_byte Pong) replies ->
  (length replies < 30)%nat ->
  ping_bootloader_and_wait_for_response
    (mkPort (concat replies ++ [h0; response_byte Pong] ++ rest) sent)
  = Ok (mkPort rest (sent ++ concat (repeat ping_pkt (S (length replies))))).
Proof.
  intros Hf Hl. unfold ping_bootloader_and_wait_for_response.
  rewrite ping_loop_skip by (assumption || lia).
  destruct (30 - length replies)%nat as [| n] eqn:En; [lia |].
  cbn [ping_loop]. unfold write_bytes. cbn [bind rx BootloaderSerial.tx].
  change 2%nat with (length [h0; response_byte Pong]). rewrite read_bytes_prefix.
  cbn [bind nth]. rewrite Z.eqb_refl.
  cbn [repeat]. rewrite repeat_cons, concat_app, <- app_assoc. cbn [concat].
  rewrite app_nil_r. reflexivity.
Qed.

(** X7: [erase_apps] on an open connection whose bootloader answers a ping
    with [Pong] after [k < 30] other two-byte replies, and then acknowledges
    with [ESCAPE_CHAR, OK]: it succeeds, having written [k + 1] ping packets
    and then one [ErasePage] frame (SYNC bytes, the escaped 4-byte
    little-endian [start_address as u32], [ESCAPE_CHAR] and the command
    byte), and consumes exactly those replies. On a closed connection it
    fails with [ConnectionNotOpen]. *)
Theorem erase_apps_trace (replies : list (list Z)) (h0 start : Z) (rest sent : list Z) :
  Forall (fun r => length r = 2%nat /\ nth 1 r 0 <> response_byte Pong) replies ->
  (length replies < 30)%nat ->
  erase_apps false (mkPort (concat replies ++ [h0; response_byte Pong]
                            ++ [ESCAPE_CHAR; response_byte OK] ++ rest) sent) start
  = Err ConnectionNotOpen
  /\ erase_apps true (mkPort (concat replies ++ [h0; response_byte Pong]
                              ++ [ESCAPE_CHAR; response_byte OK] ++ rest) sent) start
     = Ok (mkPort rest (sent ++ concat (repeat ping_pkt (S (length replies)))
                         ++ SYNC_MESSAGE ++ dup (u32_le (as_u32 start))
                         ++ [ESCAPE_CHAR; command_byte ErasePage])).
Proof.
  intros Hf Hl. split; [reflexivity |].
  unfold erase_apps. cbn [negb]. rewrite ping_reaches_pong by assumption. cbn [bind].
  unfold issue_command, write_bytes, build_frame. cbn [bind rx BootloaderSerial.tx].
  rewrite SerialProofs.escape_is_dup.
  change 2%nat with (length [ESCAPE_CHAR; response_byte OK]). rewrite read_bytes_prefix.
  cbn [bind nth]. rewrite Z.eqb_refl, Z.eqb_refl. cbn. rewrite <- app_assoc.
  reflexivity.
Qed.

Lemma erase_apps_trace_witness :
  Forall (fun r => length r = 2%nat /\ nth 1 r 0 <> response_byte Pong) [[252; 21]; [0; 0]]
  /\ (length [[252; 21]; [0; 0]] < 30)%nat
  /\ erase_apps false (mkPort (concat [[252; 21]; [0; 0]] ++ [252; response_byte Pong]
                              ++ [ESCAPE_CHAR; response_byte OK] ++ []) []) 262144
     = Err ConnectionNotOpen
  /\ erase_apps true (mkPort (concat [[252; 21]; [0; 0]] ++ [252; response_byte Pong]
                              ++ [ESCAPE_CHAR; response_byte OK] ++ []) []) 262144
     = Ok (mkPort [] ([] ++ concat (repeat ping_pkt (S (length [[252; 21]; [0; 0]])))
                         ++ SYNC_MESSAGE ++ dup (u32_le (as_u32 262144))
                         ++ [ESCAPE_CHAR; command_byte ErasePage])).
Proof.
  assert (Hf : Forall (fun r => length r = 2%nat /\ nth 1 r 0 <> response_byte Pong)
                 [[252; 21]; [0; 0]])
    by (repeat constructor; cbn; lia).
  assert (Hl : (length [[252; 21]; [0; 0]] < 30)%nat) by (cbn; lia).
  split; [exact Hf |]. split; [exact Hl |].
  exact (erase_apps_trace [[252; 21]; [0; 0]] 252 262144 [] [] Hf Hl).
Defined.

End SerialIOProofs.

(** * Attribute decoding and the system attribute readers *)
Module SystemReadProofs.
Import Attributes SystemRead.

Lemma utf8_decode_ascii (l : list Z) :
  Forall (fun c => 0 <= c < 128) l -> utf8_decode l = Some l.
Proof.
  induction 1 as [| c t Hc Ht IH]; [reflexivity |].
  cbn [utf8_decode]. rewrite (proj2 (Z.ltb_lt _ _)) by lia. rewrite IH. reflexivity.
Qed.

Lemma trim_end_nul_zeros (n : nat) : trim_end_nul (repeat 0 n) = [].
Proof. induction n as [| n IH]; [reflexivity |]. cbn. rewrite IH. reflexivity. Qed.

Lemma trim_end_nul_app (l z : list Z) :
  Forall (fun c => c <> 0) l -> trim_end_nul (l ++ z) = l ++ trim_end_nul z.
Proof.
  induction 1 as [| c t Hc Ht IH]; [reflexivity |].
  cbn [app trim_end_nul]. rewrite IH.
  destruct (t ++ trim_end_nul z) eqn:E; [| reflexivity].
  rewrite (proj2 (Z.eqb_neq _ _) Hc). reflexivity.
Qed.

Lemma trim_start_nul_zeros (n : nat) (l : list Z) :
  trim_start_nul (repeat 0 n ++ l) = trim_start_nul l.
Proof. induction n as [| n IH]; [reflexivity |]. exact IH. Qed.

Lemma trim_nul_padded (i j : nat) (v : list Z) :
  Forall (fun c => 0 < c < 128) v ->
  trim_nul (repeat 0 i ++ v ++ repeat 0 j) = v.
Proof.
  intros Hv. unfold trim_nul. rewrite trim_start_nul_zeros.
  destruct v as [| c t].
  { cbn [app]. rewrite <- (app_nil_r (repeat 0 j)), trim_start_nul_zeros. reflexivity. }
  assert (Hs : trim_start_nul ((c :: t) ++ repeat 0 j) = (c :: t) ++ repeat 0 j).
  { inversion Hv as [| ? ? Hc _]; subst.
    destruct c as [| pc | pc]; [lia | reflexivity | lia]. }
  rewrite Hs, trim_end_nul_app, trim_end_nul_zeros, app_nil_r; [reflexivity |].
  eapply Forall_impl; [| exact Hv]. intros x Hx. cbv beta in Hx. lia.
Qed.

Lemma ascii_of_padded (i j : nat) (v : list Z) :
  Forall (fun c => 0 < c < 128) v ->
  Forall (fun c => 0 <= c < 128) (repeat 0 i ++ v ++ repeat 0 j).
Proof.
  intros Hv. apply Forall_app. split; [| apply Forall_app; split].
  - apply Forall_forall. intros c Hc. apply repeat_spec in Hc. lia.
  - eapply Forall_impl; [| exact Hv]. intros c Hc. cbv beta in Hc. lia.
  - apply Forall_forall. intros c Hc. apply repeat_spec in Hc. lia.
Qed.

Lemma slice_app_exact (a b : list Z) : slice 0 (length a) (a ++ b) = a.
Proof.
  unfold slice. cbn [skipn]. rewrite firstn_app, Nat.sub_diag, firstn_all, app_nil_r.
  reflexivity.
Qed.

Lemma slice_app_r (a b : list Z) (k n : nat) :
  slice (length a + k) n (a ++ b) = slice k n b.
Proof.
  unfold slice. rewrite skipn_app, (skipn_all2 a) by lia.
  replace (length a + k - length a)%nat with k by lia. reflexivity.
Qed.

Lemma length_slice (k n : nat) (l : list Z) :
  (k + n <= length l)%nat -> length (slice k n l) = n.
Proof. intros H. unfold slice. rewrite length_firstn, length_skipn. lia. Qed.

Lemma slice_slice (m k n len : nat) (l : list Z) :
  (k + n <= len)%nat -> slice k n (slice m len l) = slice (m + k) n l.
Proof.
  intros H. unfold slice. rewrite skipn_firstn_comm, firstn_firstn, skipn_skipn.
  replace (Nat.min n (len - k)) with n by lia. rewrite Nat.add_comm. reflexivity.
Qed.

Lemma firstn_slice (k n m : nat) (l : list Z) :
  (m <= n)%nat -> firstn m (slice k n l) = slice k m l.
Proof.
  intros H. unfold slice. rewrite firstn_firstn. replace (Nat.min m n) with m by lia.
  reflexivity.
Qed.

(** X8: an attribute slot laid out as the bootloader writes it (an ASCII key
    of at most 8 bytes padded with NULs, the value length byte, then an
    ASCII value of 1 to 55 bytes, then anything) decodes to that key and
    that value. *)
Theorem decode_attribute_roundtrip (k v rest : list Z) :
  Forall (fun c => 0 < c < 128) k -> Forall (fun c => 0 < c < 128) v ->
  (length k <= 8)%nat -> (0 < length v <= 55)%nat ->
  decode_attribute (k ++ repeat 0 (8 - length k) ++ [Z.of_nat (length v)] ++ v ++ rest)
  = Ok (Some (mkDecodedAttribute k v)).
Proof.
  intros Hk Hv Hkl Hvl.
  set (kp := k ++ repeat 0 (8 - length k)).
  assert (Hkp : length kp = 8%nat)
    by (unfold kp; rewrite length_app, repeat_length; lia).
  replace (k ++ repeat 0 (8 - length k) ++ [Z.of_nat (length v)] ++ v ++ rest)
    with (kp ++ [Z.of_nat (length v)] ++ v ++ rest) by (unfold kp; rewrite <- app_assoc; reflexivity).
  unfold decode_attribute, slice_res.
  rewrite (proj2 (Nat.leb_le _ _)) by (rewrite !length_app; cbn [length]; lia).
  cbn [bind]. rewrite <- Hkp, slice_app_exact.
  unfold decode_expect.
  rewrite utf8_decode_ascii
    by (unfold kp; apply Forall_app; split;
        [eapply Forall_impl; [| exact Hk]; intros c Hc; cbv beta in Hc; lia
        | apply Forall_forall; intros c Hc; apply repeat_spec in Hc; lia]).
  cbn [bind].
  rewrite nth_error_app2 by lia. rewrite Nat.sub_diag. cbn [nth_error app bind].
  rewrite (proj2 (Z.ltb_ge _ _)) by lia. rewrite (proj2 (Z.eqb_neq _ _)) by lia.
  cbn [orb]. rewrite Nat2Z.id.
  rewrite (proj2 (Nat.leb_le _ _))
    by (rewrite !length_app; cbn [length]; rewrite ?length_app; lia).
  cbn [bind].
  replace (kp ++ Z.of_nat (length v) :: v ++ rest)
    with ((kp ++ [Z.of_nat (length v)]) ++ v ++ rest)
    by (rewrite <- app_assoc; reflexivity).
  replace (S (length kp)) with (length (kp ++ [Z.of_nat (length v)]) + 0)%nat
    by (rewrite length_app; cbn [length]; lia).
  rewrite slice_app_r, slice_app_exact.
  rewrite utf8_decode_ascii by (eapply Forall_impl; [| exact Hv]; intros c Hc; cbv beta in Hc; lia).
  cbn [bind]. unfold kp.
  rewrite trim_end_nul_app, trim_end_nul_zeros, app_nil_r
    by (eapply Forall_impl; [| exact Hk]; intros c Hc; cbv beta in Hc; lia).
  rewrite <- (app_nil_r v) at 1. rewrite trim_end_nul_app by
    (eapply Forall_impl; [| exact Hv]; intros c Hc; cbv beta in Hc; lia).
  cbn [trim_end_nul]. rewrite app_nil_r. reflexivity.
Qed.

Lemma decode_attribute_roundtrip_witness :
  Forall (fun c => 0 < c < 128) [97; 112; 112; 97; 100; 100; 114]
  /\ Forall (fun c => 0 < c < 128) [48; 120; 52; 48; 48; 48; 48]
  /\ (length [97; 112; 112; 97; 100; 100; 114] <= 8)%nat
  /\ (0 < length [48; 120; 52; 48; 48; 48; 48] <= 55)%nat
  /\ decode_attribute ([97; 112; 112; 97; 100; 100; 114]
                       ++ repeat 0 (8 - length [97; 112; 112; 97; 100; 100; 114])
                       ++ [Z.of_nat (length [48; 120; 52; 48; 48; 48; 48])]
                       ++ [48; 120; 52; 48; 48; 48; 48] ++ repeat 0 48)
     = Ok (Some (mkDecodedAttribute [97; 112; 112; 97; 100; 100; 114]
                                    [48; 120; 52; 48; 48; 48; 48])).
Proof.
  assert (Hk : Forall (fun c => 0 < c < 128) [97; 112; 112; 97; 100; 100; 114])
    by (repeat constructor; lia).
  assert (Hv : Forall (fun c => 0 < c < 128) [48; 120; 52; 48; 48; 48; 48])
    by (repeat constructor; lia).
  assert (Hkl : (length [97; 112; 112; 97; 100; 100; 114] <= 8)%nat) by (cbn; lia).
  assert (Hvl : (0 < length [48; 120; 52; 48; 48; 48; 48] <= 55)%nat) by (cbn; lia).
  split; [exact Hk |]. split; [exact Hv |]. split; [exact Hkl |]. split; [exact Hvl |].
  exact (decode_attribute_roundtrip _ _ (repeat 0 48) Hk Hv Hkl Hvl).
Defined.

Lemma slice_one (k : nat) (l : list Z) :
  (k < length l)%nat -> from_le (slice k 1 l) = nth k l 0.
Proof.
  intros H. unfold slice.
  destruct (skipn k l) as [| x t] eqn:E.
  - apply (f_equal (@length Z)) in E. rewrite length_skipn in E. cbn in E. lia.
  - rewrite <- (Nat.add_0_r k), <- nth_skipn, E. cbn. ring.
Qed.

Lemma probe_read_in (mem : list Z) (address : Z) (len : nat) :
  0 <= address -> address + Z.of_nat len <= Z.of_nat (length mem) ->
  AppInventory.probe_read mem address len = Ok (slice (Z.to_nat address) len mem, mem).
Proof.
  intros H1 H2. unfold AppInventory.probe_read.
  rewrite (proj2 (Z.leb_le _ _) H1), (proj2 (Z.leb_le _ _) H2). reflexivity.
Qed.



(** X9: [read_system_attributes_probe] on a flash image holding the
    attribute slots at 0x600, an ASCII bootloader version padded with NULs
    at 0x40E and an application start address [appaddr] of at least 100:
    it returns the slot attributes, the version without its NULs, the
    sentinel decoded from the 4 bytes below [appaddr], the kernel version
    from the byte at [appaddr - 5], and the little-endian words at
    [appaddr - 20] (app memory start), [appaddr - 16] (app memory length,
    the first half of its 8-byte field), [appaddr - 32] (kernel binary
    start) and [appaddr - 28] (kernel binary length). *)
Theorem read_system_attributes_probe_layout (mem : list Z) (r : SystemAttributes) (a : Z)
    (i j : nat) (v s : list Z) :
  (2560 <= length mem)%nat -> 100 <= a <= Z.of_nat (length mem) ->
  read_attribute_slots (slice 1536 1024 mem) = Ok r -> appaddr r = Some a ->
  slice 1038 8 mem = repeat 0 i ++ v ++ repeat 0 j -> Forall (fun c => 0 < c < 128) v ->
  utf8_decode (slice (Z.to_nat a - 4) 4 mem) = Some s ->
  let n := Z.to_nat a in
  read_system_attributes_probe mem
  = Ok ((r, mkKernelAttributes v s (nth (n - 5) mem 0)
              (from_le (slice (n - 20) 4 mem)) (from_le (slice (n - 16) 4 mem))
              (from_le (slice (n - 32) 4 mem)) (from_le (slice (n - 28) 4 mem))), mem).
Proof.
  intros Hlen Ha Hslots Happ Hver Hv Hs n. fold n in Hs.
  unfold read_system_attributes_probe, read_system_attributes.
  rewrite probe_read_in by lia. cbn [bind].
  change (Z.to_nat 1536) with 1536%nat. rewrite Hslots. cbn [bind].
  rewrite probe_read_in by lia. cbn [bind].
  change (Z.to_nat 1038) with 1038%nat. rewrite Hver.
  unfold from_utf8. rewrite utf8_decode_ascii by (apply ascii_of_padded; exact Hv).
  cbn [bind]. rewrite trim_nul_padded by exact Hv.
  rewrite Happ. cbn [bind]. unfold Reshuffle.sub_u64.
  rewrite (proj2 (Z.leb_le _ _)) by lia. cbn [bind].
  rewrite probe_read_in by lia. cbn [bind].
  set (m := Z.to_nat (a - 100)).
  assert (Hm : (m + 100 = n)%nat) by (unfold m, n; lia).
  assert (Hkab : length (slice m 100 mem) = 100%nat) by (apply length_slice; lia).
  unfold slice_res, read_u32. rewrite Hkab. cbn [Nat.add Nat.leb]. cbn [bind].
  rewrite !slice_slice by lia.
  rewrite !length_slice by lia. cbn [Nat.leb]. cbn [bind].
  replace (m + 96)%nat with (n - 4)%nat by lia.
  unfold decode_expect. rewrite Hs. cbn [bind].
  rewrite (firstn_slice _ 8 4) by lia. rewrite !firstn_all2 by (rewrite length_slice; lia).
  rewrite slice_one by lia.
  replace (m + 95)%nat with (n - 5)%nat by lia.
  replace (m + 84)%nat with (n - 16)%nat by lia.
  replace (m + 80)%nat with (n - 20)%nat by lia.
  replace (m + 68)%nat with (n - 32)%nat by lia.
  replace (m + 72)%nat with (n - 28)%nat by lia.
  reflexivity.
Qed.

Lemma read_system_attributes_probe_layout_witness :
  let slot (k v : list Z) :=
    k ++ repeat 0 (8 - length k) ++ [Z.of_nat (length v)] ++ v ++ repeat 0 (55 - length v) in
  let slots := slot [98; 111; 97; 114; 100] [110; 114; 102]
               ++ slot [97; 114; 99; 104] [99; 111; 114; 116; 101; 120]
               ++ slot [97; 112; 112; 97; 100; 100; 114] [48; 120; 49; 48; 48; 48]
               ++ concat (repeat (slot [] []) 13) in
  let mem := repeat 0 1038 ++ [50; 46; 48] ++ repeat 0 495 ++ slots ++ repeat 0 1436
             ++ repeat 0 68 ++ [0; 0; 0; 0] ++ [0; 64; 0; 0] ++ repeat 0 4
             ++ [0; 0; 0; 32] ++ [0; 0; 1; 0] ++ repeat 0 7 ++ [2] ++ [84; 79; 67; 75] in
  let r := mkSystemAttributes (Some [110; 114; 102]) (Some [99; 111; 114; 116; 101; 120])
             (Some 4096) None in
  ((2560 <= length mem)%nat /\ 100 <= 4096 <= Z.of_nat (length mem)
   /\ read_attribute_slots (slice 1536 1024 mem) = Ok r /\ appaddr r = Some 4096
   /\ slice 1038 8 mem = repeat 0 0 ++ [50; 46; 48] ++ repeat 0 5
   /\ Forall (fun c => 0 < c < 128) [50; 46; 48]
   /\ utf8_decode (slice (Z.to_nat 4096 - 4) 4 mem) = Some [84; 79; 67; 75])
  /\ let n := Z.to_nat 4096 in
     read_system_attributes_probe mem
     = Ok ((r, mkKernelAttributes [50; 46; 48] [84; 79; 67; 75] (nth (n - 5) mem 0)
                 (from_le (slice (n - 20) 4 mem)) (from_le (slice (n - 16) 4 mem))
                 (from_le (slice (n - 32) 4 mem)) (from_le (slice (n - 28) 4 mem))), mem).
Proof.
  intros slot slots mem r.
  assert (H1 : (2560 <= length mem)%nat) by (apply Nat.leb_le; vm_compute; reflexivity).
  assert (H2 : 100 <= 4096 <= Z.of_nat (length mem))
    by (split; [lia | apply Z.leb_le; vm_compute; reflexivity]).
  assert (H3 : read_attribute_slots (slice 1536 1024 mem) = Ok r)
    by (vm_compute; reflexivity).
  assert (H4 : appaddr r = Some 4096) by reflexivity.
  assert (H5 : slice 1038 8 mem = repeat 0 0 ++ [50; 46; 48] ++ repeat 0 5)
    by (vm_compute; reflexivity).
  assert (H6 : Forall (fun c => 0 < c < 128) [50; 46; 48]) by (repeat constructor; lia).
  assert (H7 : utf8_decode (slice (Z.to_nat 4096 - 4) 4 mem) = Some [84; 79; 67; 75])
    by (vm_compute; reflexivity).
  split; [exact (conj H1 (conj H2 (conj H3 (conj H4 (conj H5 (conj H6 H7)))))) |].
  exact (read_system_attributes_probe_layout mem r 4096 0 5 [50; 46; 48] [84; 79; 67; 75]
           H1 H2 H3 H4 H5 H6 H7).
Defined.

(** X10: the reader's failures after the two first reads: a bootloader
    version that is not UTF-8 gives [AttributeInvalidString]; with a valid
    version, no [appaddr] attribute gives [MissingAttribute], and an
    [appaddr] below 100 panics in the [u64] subtraction [appaddr - 100];
    the kernel attributes are not read in any of these cases. *)
Theorem read_system_attributes_errors (St : Type)
    (read_at : St -> Z -> nat -> res (list Z * St)) (st st1 st2 : St)
    (buf vbuf : list Z) (r : SystemAttributes) :
  read_at st 1536 1024%nat = Ok (buf, st1) -> read_attribute_slots buf = Ok r ->
  read_at st1 1038 8%nat = Ok (vbuf, st2) ->
  (utf8_decode vbuf = None -> read_system_attributes St read_at st = Err AttributeInvalidString)
  /\ (utf8_decode vbuf <> None -> appaddr r = None ->
      read_system_attributes St read_at st = Err MissingAttribute)
  /\ (utf8_decode vbuf <> None -> forall a, appaddr r = Some a -> a < 100 ->
      read_system_attributes St read_at st = Panic).
Proof.
  intros H1 H2 H3. unfold read_system_attributes.
  rewrite H1. cbn [bind]. rewrite H2. cbn [bind]. rewrite H3. cbn [bind].
  unfold from_utf8.
  split; [intros E; rewrite E; reflexivity |].
  split.
  - intros E Ha. destruct (utf8_decode vbuf); [| contradiction]. cbn [bind].
    rewrite Ha. reflexivity.
  - intros E a Ha Hlt. destruct (utf8_decode vbuf); [| contradiction]. cbn [bind].
    rewrite Ha. cbn [bind]. unfold Reshuffle.sub_u64.
    rewrite (proj2 (Z.leb_gt _ _)) by lia. reflexivity.
Qed.

Lemma read_system_attributes_errors_witness :
  AppInventory.probe_read (repeat 0 2560) 1536 1024%nat = Ok (repeat 0 1024, repeat 0 2560)
  /\ read_attribute_slots (repeat 0 1024) = Ok new_attributes
  /\ AppInventory.probe_read (repeat 0 2560) 1038 8%nat = Ok (repeat 0 8, repeat 0 2560)
  /\ (utf8_decode (repeat 0 8) = None ->
      read_system_attributes (list Z) AppInventory.probe_read (repeat 0 2560)
      = Err AttributeInvalidString)
  /\ (utf8_decode (repeat 0 8) <> None -> appaddr new_attributes = None ->
      read_system_attributes (list Z) AppInventory.probe_read (repeat 0 2560)
      = Err MissingAttribute)
  /\ (utf8_decode (repeat 0 8) <> None -> forall a, appaddr new_attributes = Some a -> a < 100 ->
      read_system_attributes (list Z) AppInventory.probe_read (repeat 0 2560) = Panic).
Proof.
  assert (H1 : AppInventory.probe_read (repeat 0 2560) 1536 1024%nat
               = Ok (repeat 0 1024, repeat 0 2560)) by (vm_compute; reflexivity).
  assert (H2 : read_attribute_slots (repeat 0 1024) = Ok new_attributes)
    by (vm_compute; reflexivity).
  assert (H3 : AppInventory.probe_read (repeat 0 2560) 1038 8%nat
               = Ok (repeat 0 8, repeat 0 2560)) by (vm_compute; reflexivity).
  split; [exact H1 |]. split; [exact H2 |]. split; [exact H3 |].
  exact (read_system_attributes_errors (list Z) AppInventory.probe_read _ _ _ _ _ _
           H1 H2 H3).
Defined.

End SystemReadProofs.

(** * The app sort, the permutation search space, [from_app_attributes]
    and [create_pkt] *)
Module ReshuffleAppsProofs.
Import Reshuffle ReshuffleApps.

Lemma insert_by_key_hd (x y : FixedApp) (l : list FixedApp) :
  HdRel (fun a b : FixedApp => sort_key a <= sort_key b) y l -> sort_key y <= sort_key x ->
  HdRel (fun a b : FixedApp => sort_key a <= sort_key b) y (insert_by_key x l).
Proof.
  intros Hl Hx. destruct l as [| z t]; cbn.
  - constructor. exact Hx.
  - destruct (sort_key x <=? sort_key z); constructor; [exact Hx |].
    inversion Hl; assumption.
Qed.

Lemma insert_by_key_sorted (x : FixedApp) (l : list FixedApp) :
  Sorted (fun a b : FixedApp => sort_key a <= sort_key b) l ->
  Sorted (fun a b : FixedApp => sort_key a <= sort_key b) (insert_by_key x l).
Proof.
  induction l as [| y t IH]; intros Hs; cbn.
  - repeat constructor.
  - destruct (sort_key x <=? sort_key y) eqn:E.
    + apply Z.leb_le in E. constructor; [exact Hs | constructor; exact E].
    + apply Z.leb_gt in E. inversion Hs as [| ? ? Ht Hh]; subst.
      constructor; [apply IH; exact Ht |].
      apply insert_by_key_hd; [exact Hh | cbv beta; lia].
Qed.

Lemma sort_by_key_sorted (l : list FixedApp) :
  Sorted (fun a b : FixedApp => sort_key a <= sort_key b) (sort_by_key l).
Proof.
  induction l as [| x t IH]; cbn; [constructor |]. apply insert_by_key_sorted. exact IH.
Qed.

Lemma forallb_false_exists {A} (f : A -> bool) (l : list A) :
  forallb f l = false <-> exists a, In a l /\ f a = false.
Proof.
  induction l as [| x t IH]; cbn.
  - split; [discriminate | intros (a & [] & _)].
  - rewrite andb_false_iff, IH. split.
    + intros [H | (a & Ha & Hf)]; [exists x; auto | exists a; auto].
    + intros (a & [-> | Ha] & Hf); [left; exact Hf | right; exists a; auto].
Qed.

(** X11: [rust_apps.sort_by_key(..)] with its [unwrap]: it panics exactly
    when there are at least two apps and one of them has no first
    candidate address; otherwise it returns the apps reordered, sorted by
    the flash address of their first candidate (a list of fewer than two
    apps is returned as it is). It never returns an error. *)
Theorem sort_rust_apps_spec (l : list FixedApp) :
  (sort_rust_apps l = Panic
   <-> (2 <= length l)%nat /\ exists a, In a l /\ sort_key_ok a = false)
  /\ (forall e, sort_rust_apps l <> Err e)
  /\ forall l', sort_rust_apps l = Ok l' ->
       Permutation l' l
       /\ Sorted (fun a b => sort_key a <= sort_key b) l'
       /\ ((length l < 2)%nat -> l' = l).
Proof.
  unfold sort_rust_apps.
  destruct (length l <? 2)%nat eqn:El.
  - apply Nat.ltb_lt in El. split; [| split].
    + split; [discriminate | lia].
    + discriminate.
    + intros l' H. injection H as <-. split; [reflexivity |]. split; [| reflexivity].
      destruct l as [| x [| y t]]; [constructor | repeat constructor | cbn in El; lia].
  - apply Nat.ltb_ge in El.
    destruct (forallb sort_key_ok l) eqn:Ef; split; [| split | | split].
    + split; [discriminate |]. intros (_ & Hx). apply forallb_false_exists in Hx.
      congruence.
    + discriminate.
    + intros l' H. injection H as <-. split; [apply ReshuffleProofs.sort_by_key_perm |].
      split; [apply sort_by_key_sorted | lia].
    + split; [intros _; split; [exact El | apply forallb_false_exists; exact Ef] |
              reflexivity].
    + discriminate.
    + discriminate.
Qed.

Lemma select_fst (l : list nat) : map fst (select l) = l.
Proof.
  induction l as [| x t IH]; [reflexivity |]. cbn [select map fst].
  f_equal. rewrite map_map. exact IH.
Qed.

Lemma select_complete (l : list nat) (x : nat) : In x l -> exists r, In (x, r) (select l).
Proof.
  induction l as [| y t IH]; intros H; [destruct H |].
  destruct H as [<- | H].
  - exists t. left. reflexivity.
  - destruct (IH H) as (r & Hr). exists (y :: r). right.
    apply in_map_iff. exists (x, r). split; [reflexivity | exact Hr].
Qed.

Lemma length_flat_map_const {A B} (f : A -> list B) (l : list A) (c : nat) :
  (forall a, In a l -> length (f a) = c) -> length (flat_map f l) = (length l * c)%nat.
Proof.
  induction l as [| a t IH]; intros H; [reflexivity |].
  cbn [flat_map length]. rewrite length_app, H by (left; reflexivity).
  rewrite IH by (intros b Hb; apply H; right; exact Hb). lia.
Qed.

Lemma NoDup_blocks (S : list (nat * list nat)) (g : nat * list nat -> list (list nat)) :
  NoDup (map fst S) -> (forall p, In p S -> NoDup (g p)) ->
  NoDup (flat_map (fun p => map (cons (fst p)) (g p)) S).
Proof.
  induction S as [| p t IH]; intros Hf Hg; cbn [flat_map]; [constructor |].
  cbn [map] in Hf. inversion Hf as [| ? ? Hnin Ht]; subst.
  apply NoDup_app.
  - apply SerialInstallProofs.NoDup_map_inj; [intros a b Hab; injection Hab; auto |].
    apply Hg. left. reflexivity.
  - apply IH; [exact Ht | intros q Hq; apply Hg; right; exact Hq].
  - intros a Ha Hb. apply in_map_iff in Ha as (x & <- & _).
    apply in_flat_map in Hb as (q & Hq & Hb). apply in_map_iff in Hb as (y & Hy & _).
    injection Hy as Hy _. apply Hnin. rewrite <- Hy. apply in_map. exact Hq.
Qed.

Lemma perms_aux_nil (fuel : nat) :
  NoDup (perms_aux fuel [])
  /\ length (perms_aux fuel []) = fact 0
  /\ forall p, In p (perms_aux fuel []) <-> Permutation p [].
Proof.
  assert (E : perms_aux fuel [] = [[]]) by (destruct fuel; reflexivity).
  rewrite E. split; [constructor; [intros [] | constructor] |].
  split; [reflexivity |]. intros p. split.
  - intros [<- | []]. reflexivity.
  - intros Hp. left. symmetry. apply Permutation_nil. symmetry. exact Hp.
Qed.

Lemma perms_aux_spec (fuel : nat) (l : list nat) :
  NoDup l -> (length l <= fuel)%nat ->
  NoDup (perms_aux fuel l)
  /\ length (perms_aux fuel l) = fact (length l)
  /\ forall p, In p (perms_aux fuel l) <-> Permutation p l.
Proof.
  revert l. induction fuel as [| f IH]; intros l Hnd Hl;
    (destruct l as [| x t]; [apply perms_aux_nil |]).
  - cbn in Hl. lia.
  - cbn [length] in Hl.
    assert (Hsel : forall q, In q (select (x :: t)) ->
              Permutation (x :: t) (fst q :: snd q)
              /\ NoDup (snd q) /\ length (snd q) = length t).
    { intros [y r] Hq. pose proof (ReshuffleProofs.select_perm _ _ _ Hq) as Hp.
      cbn [fst snd]. split; [exact Hp |]. split.
      - apply Permutation_NoDup in Hp; [| exact Hnd]. inversion Hp; assumption.
      - apply Permutation_length in Hp. cbn in Hp. lia. }
    assert (HIH : forall q, In q (select (x :: t)) ->
              NoDup (perms_aux f (snd q))
              /\ length (perms_aux f (snd q)) = fact (length t)
              /\ forall p, In p (perms_aux f (snd q)) <-> Permutation p (snd q)).
    { intros q Hq. destruct (Hsel q Hq) as (_ & H1 & H2).
      rewrite <- H2. apply IH; [exact H1 | lia]. }
    cbn [perms_aux]. split; [| split].
    + apply NoDup_blocks; [rewrite select_fst; exact Hnd |].
      intros q Hq. apply (HIH q Hq).
    + rewrite (length_flat_map_const _ _ (fact (length t))).
      * change (length (select (x :: t)) * fact (length t) = fact (S (length t)))%nat.
        rewrite <- (length_map fst), select_fst. cbn [length fact]. lia.
      * intros q Hq. rewrite length_map. apply (HIH q Hq).
    + intros p. rewrite in_flat_map. split.
      * intros (q & Hq & Hp). apply in_map_iff in Hp as (p' & <- & Hp').
        destruct (Hsel q Hq) as (Hperm & _ & _). rewrite Hperm.
        apply perm_skip. apply (HIH q Hq). exact Hp'.
      * intros Hp. destruct p as [| y p'].
        { apply Permutation_length in Hp. discriminate Hp. }
        assert (Hy : In y (x :: t)) by (apply (Permutation_in _ Hp); left; reflexivity).
        destruct (select_complete _ _ Hy) as (r & Hr).
        exists (y, r). split; [exact Hr |]. apply in_map. apply (HIH _ Hr). cbn [snd].
        destruct (Hsel _ Hr) as (Hperm & _ & _). cbn [fst snd] in Hperm.
        apply (Permutation_cons_inv (a := y)). rewrite Hp. exact Hperm.
Qed.

(** X12: the placement search space [(0..n).permutations(n)] lists every
    ordering of [0 .. n-1] exactly once: it has [n!] entries, no two alike,
    and a list is one of them exactly when it is a permutation of
    [0 .. n-1]. *)
Theorem permutations_spec (n : nat) :
  NoDup (permutations n)
  /\ length (permutations n) = fact n
  /\ forall p, In p (permutations n) <-> Permutation p (seq 0 n).
Proof.
  unfold permutations.
  destruct (perms_aux_spec n (seq 0 n)) as (H1 & H2 & H3);
    [apply seq_NoDup | rewrite length_seq; lia |].
  rewrite length_seq in H2. auto.
Qed.

(** X13: [TockApp::from_app_attributes]: an installed app whose header
    gives both a fixed flash and a fixed ram address becomes a Fixed app
    with that single candidate, its flash address aligned down to 1024
    bytes and raised to 0x40000 when below it; any other app becomes a
    Flexible one. Both are marked installed, without index, with the
    header's total size. *)
Theorem from_app_attributes_spec {H C} (get_fixed_address_flash : H -> option Z)
    (get_fixed_address_ram : H -> option Z) (total_size : H -> Z)
    (a : AppInventory.AppAttributes H C) :
  let h := AppInventory.tbf_header H C a in
  (forall f r, get_fixed_address_flash h = Some f -> get_fixed_address_ram h = Some r ->
     0 <= f ->
     exists aligned,
       from_app_attributes get_fixed_address_flash get_fixed_address_ram total_size a
       = Fixed (mkFixed true None [Some (aligned, r)] (total_size h))
       /\ aligned mod 1024 = 0 /\ 262144 <= aligned
       /\ (262144 <= f -> f - 1024 < aligned <= f)
       /\ (f < 262144 -> aligned = 262144))
  /\ (get_fixed_address_flash h = None \/ get_fixed_address_ram h = None ->
      from_app_attributes get_fixed_address_flash get_fixed_address_ram total_size a
      = Flexible (mkFlexible true None (total_size h))).
Proof.
  intros h. unfold from_app_attributes. fold h. split.
  - intros f r Hf Hr H0. rewrite Hf, Hr. unfold align_down, ALIGNMENT.
    pose proof (Z.mod_pos_bound f 1024 ltac:(lia)) as Hb.
    pose proof (Z.div_mod f 1024 ltac:(lia)) as Hd.
    destruct (f - f mod 1024 <? 262144) eqn:E.
    + apply Z.ltb_lt in E. exists 262144. split; [reflexivity |].
      split; [reflexivity |]. split; [lia |]. split; [lia | reflexivity].
    + apply Z.ltb_ge in E. exists (f - f mod 1024). split; [reflexivity |].
      split.
      * replace (f - f mod 1024) with (1024 * (f / 1024)) by lia.
        rewrite Z.mul_comm. apply Z.mod_mul. lia.
      * split; [lia |]. split; [lia |]. intros Hlt. lia.
  - intros [E | E]; rewrite E; [reflexivity |].
    destruct (get_fixed_address_flash h); reflexivity.
Qed.

Lemma nth_error_take_binary (bins : list (list Z)) (i j : nat) :
  (i < length bins)%nat -> j <> i -> nth_error (take_binary bins i) j = nth_error bins j.
Proof.
  intros Hi Hj. unfold take_binary.
  assert (Hf : length (firstn i bins) = i) by (rewrite length_firstn; lia).
  destruct (Nat.lt_ge_cases j i) as [Hlt | Hge].
  - rewrite nth_error_app1 by lia. rewrite nth_error_firstn.
    rewrite (proj2 (Nat.ltb_lt _ _) Hlt). reflexivity.
  - rewrite nth_error_app2 by lia. rewrite Hf.
    replace (j - i)%nat with (S (j - S i)) by lia. cbn [nth_error].
    rewrite nth_error_skipn. f_equal. lia.
Qed.

Lemma length_take_binary (bins : list (list Z)) (i : nat) :
  (i < length bins)%nat -> length (take_binary bins i) = length bins.
Proof.
  intros Hi. unfold take_binary. rewrite length_app, length_firstn. cbn [length].
  rewrite length_skipn. lia.
Qed.

Lemma length_create_padding (s : Z) :
  12 <= s < 2 ^ 32 -> length (Padding.create_padding (as_u32 s)) = Z.to_nat s.
Proof.
  intros Hs. unfold as_u32. rewrite Z.mod_small by lia.
  rewrite PaddingProofs.create_padding_layout by lia.
  rewrite !length_app, repeat_length. unfold u16_le, u32_le.
  rewrite !WordProofs.length_le_bytes. lia.
Qed.

Lemma create_pkt_loop_ok (tab_binary : Index -> res (list Z)) (items : list Index)
    (bins : list (list Z)) (pkt : list Z) :
  NoDup (flat_map (fun it => match idx it with
                             | Some i => if installed it then [i] else []
                             | None => []
                             end) items) ->
  (forall it, In it items -> idx it = None -> 12 <= size it < 2 ^ 32) ->
  (forall it i, In it items -> idx it = Some i -> installed it = true ->
     exists b, nth_error bins i = Some b /\ length b = Z.to_nat (size it)) ->
  (forall it i, In it items -> idx it = Some i -> installed it = false ->
     exists b, tab_binary it = Ok b /\ length b = Z.to_nat (size it)) ->
  exists out, create_pkt_loop tab_binary items bins pkt = Ok (pkt ++ out)
              /\ length out = list_sum (map (fun it => Z.to_nat (size it)) items).
Proof.
  revert bins pkt. induction items as [| it t IH]; intros bins pkt Hnd Hpad Hins Htab.
  - exists []. rewrite app_nil_r. split; reflexivity.
  - cbn [create_pkt_loop map list_sum].
    destruct (idx it) as [i |] eqn:Ei.
    + destruct (installed it) eqn:Eins.
      * destruct (Hins it i (or_introl eq_refl) Ei Eins) as (b & Hb & Hlb).
        unfold nth_res. rewrite Hb. cbn [bind].
        cbn [flat_map] in Hnd. rewrite Ei, Eins in Hnd. cbn [app] in Hnd.
        inversion Hnd as [| ? ? Hnin Hnd']; subst.
        assert (Hi : (i < length bins)%nat)
          by (apply nth_error_Some; rewrite Hb; discriminate).
        destruct (IH (take_binary bins i) (pkt ++ b) Hnd') as (out & Ho & Hlo).
        { intros it' Hin. apply Hpad. right. exact Hin. }
        { intros it' j Hin Ej Ej'. rewrite nth_error_take_binary by
            (exact Hi || (intros ->; apply Hnin; apply in_flat_map;
                          exists it'; split; [exact Hin | rewrite Ej, Ej'; left; reflexivity])).
          apply (Hins it' j); [right; exact Hin | exact Ej | exact Ej']. }
        { intros it' j Hin Ej Ej'. apply (Htab it' j); [right; exact Hin | exact Ej | exact Ej']. }
        exists (b ++ out). rewrite Ho, app_assoc. split; [reflexivity |].
        rewrite length_app, Hlb, Hlo. reflexivity.
      * destruct (Htab it i (or_introl eq_refl) Ei Eins) as (b & Hb & Hlb).
        rewrite Hb. cbn [bind].
        cbn [flat_map] in Hnd. rewrite Ei, Eins in Hnd. cbn [app] in Hnd.
        destruct (IH bins (pkt ++ b) Hnd) as (out & Ho & Hlo).
        { intros it' Hin. apply Hpad. right. exact Hin. }
        { intros it' j Hin Ej Ej'. apply (Hins it' j); [right; exact Hin | exact Ej | exact Ej']. }
        { intros it' j Hin Ej Ej'. apply (Htab it' j); [right; exact Hin | exact Ej | exact Ej']. }
        exists (b ++ out). rewrite Ho, app_assoc. split; [reflexivity |].
        rewrite length_app, Hlb, Hlo. reflexivity.
    + cbn [flat_map] in Hnd. rewrite Ei in Hnd. cbn [app] in Hnd.
      destruct (IH bins (pkt ++ Padding.create_padding (as_u32 (size it))) Hnd)
        as (out & Ho & Hlo).
      { intros it' Hin. apply Hpad. right. exact Hin. }
      { intros it' j Hin Ej Ej'. apply (Hins it' j); [right; exact Hin | exact Ej | exact Ej']. }
      { intros it' j Hin Ej Ej'. apply (Htab it' j); [right; exact Hin | exact Ej | exact Ej']. }
      exists (Padding.create_padding (as_u32 (size it)) ++ out).
      rewrite Ho, app_assoc. split; [reflexivity |].
      rewrite length_app, length_create_padding by (apply Hpad; [left; reflexivity | exact Ei]).
      rewrite Hlo. reflexivity.
Qed.

(** X14: [create_pkt] on a configuration whose padding entries have sizes
    from 12 to [u32::MAX], whose installed apps have distinct indices with a
    binary of their size in [app_binaries], and whose other apps get a
    binary of their size from the tab, succeeds with a packet whose length
    is the sum of the entry sizes. *)
Theorem create_pkt_length (tab_binary : Index -> res (list Z)) (configuration : list Index)
    (app_binaries : list (list Z)) :
  NoDup (flat_map (fun it => match idx it with
                             | Some i => if installed it then [i] else []
                             | None => []
                             end) configuration) ->
  (forall it, In it configuration -> idx it = None -> 12 <= size it < 2 ^ 32) ->
  (forall it i, In it configuration -> idx it = Some i -> installed it = true ->
     exists b, nth_error app_binaries i = Some b /\ length b = Z.to_nat (size it)) ->
  (forall it i, In it configuration -> idx it = Some i -> installed it = false ->
     exists b, tab_binary it = Ok b /\ length b = Z.to_nat (size it)) ->
  exists pkt, create_pkt tab_binary configuration app_binaries = Ok pkt
              /\ length pkt = list_sum (map (fun it => Z.to_nat (size it)) configuration).
Proof.
  intros Hnd Hpad Hins Htab.
  destruct (create_pkt_loop_ok tab_binary configuration app_binaries [] Hnd Hpad Hins Htab)
    as (out & Ho & Hl).
  exists out. split; [exact Ho | exact Hl].
Qed.

Lemma create_pkt_length_witness :
  let cfg := [mkIndex false None false None 262144 16;
              mkIndex true (Some 0%nat) false None 262160 4;
              mkIndex false (Some 1%nat) false None 262164 2] in
  let tab_binary := fun _ : Index => Ok [9; 9] in
  (NoDup (flat_map (fun it => match idx it with
                              | Some i => if installed it then [i] else []
                              | None => []
                              end) cfg)
   /\ (forall it, In it cfg -> idx it = None -> 12 <= size it < 2 ^ 32)
   /\ (forall it i, In it cfg -> idx it = Some i -> installed it = true ->
         exists b, nth_error [[1; 2; 3; 4]] i = Some b /\ length b = Z.to_nat (size it))
   /\ (forall it i, In it cfg -> idx it = Some i -> installed it = false ->
         exists b, tab_binary it = Ok b /\ length b = Z.to_nat (size it)))
  /\ exists pkt, create_pkt tab_binary cfg [[1; 2; 3; 4]] = Ok pkt
                 /\ length pkt = list_sum (map (fun it => Z.to_nat (size it)) cfg).
Proof.
  intros cfg tab_binary.
  assert (H1 : NoDup (flat_map (fun it => match idx it with
                                          | Some i => if installed it then [i] else []
                                          | None => []
                                          end) cfg))
    by (cbn; repeat constructor; intros []).
  assert (H2 : forall it, In it cfg -> idx it = None -> 12 <= size it < 2 ^ 32).
  { intros it Hin Hi. destruct Hin as [<- | [<- | [<- | []]]];
      cbn in Hi |- *; (discriminate || lia). }
  assert (H3 : forall it i, In it cfg -> idx it = Some i -> installed it = true ->
             exists b, nth_error [[1; 2; 3; 4]] i = Some b
                       /\ length b = Z.to_nat (size it)).
  { intros it i Hin Hi Hs. destruct Hin as [<- | [<- | [<- | []]]];
      cbn in Hi, Hs; try discriminate.
    injection Hi as <-. exists [1; 2; 3; 4]. split; reflexivity. }
  assert (H4 : forall it i, In it cfg -> idx it = Some i -> installed it = false ->
             exists b, tab_binary it = Ok b /\ length b = Z.to_nat (size it)).
  { intros it i Hin Hi Hs. destruct Hin as [<- | [<- | [<- | []]]];
      cbn in Hi, Hs; try discriminate.
    exists [9; 9]. split; reflexivity. }
  split; [exact (conj H1 (conj H2 (conj H3 H4))) |].
  exact (create_pkt_length tab_binary cfg [[1; 2; 3; 4]] H1 H2 H3 H4).
Defined.

(** X15: [create_pkt] moves an installed app's binary out of
    [app_binaries] ([pkt.append(&mut app_binaries[i])]): when two
    consecutive entries are the same installed index, the first appends
    the binary and the second appends nothing. *)
Theorem create_pkt_moves_binary (tab_binary : Index -> res (list Z)) (it it' : Index)
    (rest : list Index) (app_binaries : list (list Z)) (i : nat) (b : list Z) :
  idx it = Some i -> installed it = true -> idx it' = Some i -> installed it' = true ->
  nth_error app_binaries i = Some b ->
  create_pkt tab_binary (it :: it' :: rest) app_binaries
  = create_pkt_loop tab_binary rest (take_binary app_binaries i) b.
Proof.
  intros Hi Hs Hi' Hs' Hb. unfold create_pkt. cbn [create_pkt_loop].
  rewrite Hi, Hs. unfold nth_res. rewrite Hb. cbn [bind app].
  rewrite Hi', Hs'.
  assert (Hlen : (i < length app_binaries)%nat)
    by (apply nth_error_Some; rewrite Hb; discriminate).
  assert (Ht : nth_error (take_binary app_binaries i) i = Some []).
  { unfold take_binary. rewrite nth_error_app2 by (rewrite length_firstn; lia).
    rewrite length_firstn. replace (i - Nat.min i (length app_binaries))%nat with 0%nat by lia.
    reflexivity. }
  rewrite Ht. cbn [bind]. rewrite app_nil_r.
  assert (Htt : take_binary (take_binary app_binaries i) i = take_binary app_binaries i).
  { unfold take_binary. rewrite firstn_app, length_firstn.
    replace (i - Nat.min i (length app_binaries))%nat with 0%nat by lia.
    rewrite firstn_O, app_nil_r, firstn_firstn, Nat.min_id.
    rewrite skipn_app, length_firstn.
    replace (S i - Nat.min i (length app_binaries))%nat with 1%nat by lia.
    rewrite skipn_all2 by (rewrite length_firstn; lia). reflexivity. }
  rewrite Htt. reflexivity.
Qed.

Lemma create_pkt_moves_binary_witness :
  let it := mkIndex true (Some 0%nat) false None 262144 4 in
  (idx it = Some 0%nat /\ installed it = true /\ idx it = Some 0%nat /\ installed it = true
   /\ nth_error [[1; 2; 3; 4]] 0 = Some [1; 2; 3; 4])
  /\ create_pkt (fun _ => Ok []) [it; it] [[1; 2; 3; 4]]
     = create_pkt_loop (fun _ => Ok []) [] (take_binary [[1; 2; 3; 4]] 0) [1; 2; 3; 4].
Proof.
  intros it.
  split; [repeat split |].
  exact (create_pkt_moves_binary (fun _ => Ok []) it it [] [[1; 2; 3; 4]] 0 [1; 2; 3; 4]
           eq_refl eq_refl eq_refl eq_refl eq_refl).
Defined.
End ReshuffleAppsProofs.
